(** * boilcheck-psql: the scope, the SQL checker and the call-site resolver

    A shallow embedding of the SQL checker ([Scope], [checkCallRecurse],
    [checkSelect], [typeCheck]) and of the call-site resolver ([tagCall],
    [tagCallsByConstant]), with the properties of the specification that
    concern them; then the tagged declarations and the comment map
    ([tagConstants], [iterateCommentMap]), the order of the results and the
    report of [main], with further properties of the code. *)

From Stdlib Require Import ZArith Ascii String List Lia Bool DecimalString.
From stdpp Require Import base option list strings gmap.

Import ListNotations.
Local Open Scope string_scope.
Local Open Scope Z_scope.

(** ** Outcomes of Go code

    A Go function either returns, or panics (a failed type assertion, an index
    out of range, a nil dereference, an explicit [panic]).  The traversals that
    are modelled with a step budget can also stop with [OutOfFuel]. *)

Inductive Outcome (A : Type) : Type :=
| Done (a : A)
| Panic
| OutOfFuel.

Arguments Done {A} a.
Arguments Panic {A}.
Arguments OutOfFuel {A}.

Definition obind {A B} (m : Outcome A) (k : A -> Outcome B) : Outcome B :=
  match m with
  | Done a => k a
  | Panic => Panic
  | OutOfFuel => OutOfFuel
  end.

Declare Scope go_scope.
Delimit Scope go_scope with go.
Notation "'do' x <- m ; k" := (obind m (fun x => k))
  (at level 10, x pattern, m at level 100, k at level 200) : go_scope.
Local Open Scope go_scope.

(** [len(s) != 0] on a Go string. *)
Definition nonEmpty (s : string) : bool := negb (Nat.eqb (String.length s) 0).

(** ** The catalog ([drivers.DBInfo], [drivers.Table], [drivers.Column]) *)

(** The fields [Name], [Type], [DBType], ... of [drivers.Column], with a prefix
    that keeps them apart from those of [drivers.Table]. *)
Record Column : Type := mkColumn {
  col_Name : string;
  col_Type : string;        (* the driver (Go) type *)
  col_DBType : string;
  col_UDTName : string;
  col_FullDBType : string;
  col_Nullable : bool;
  col_Unique : bool
}.

Record Table : Type := mkTable {
  SchemaName : string;
  Name : string;
  Columns : list Column
}.

Record DBInfo : Type := mkDBInfo {
  Tables : list Table
}.

(** ** The scope *)

Record outputColRef : Type := mkOutputColRef {
  name : string;
  col : option Column      (* [*drivers.Column], possibly nil *)
}.

Record Scope : Type := mkScope {
  info : DBInfo;
  tables : list Table;
  aliases : list string;
  outputNames : list outputColRef
}.

Definition NewScope (i : DBInfo) : Scope := mkScope i [] [] [].

Definition clone (s : Scope) : Scope :=
  mkScope (info s) (tables s) (aliases s) (outputNames s).

(** The loop of [pushTable] over [s.info.Tables]. *)
Fixpoint lookupTable (schema table : string) (ts : list Table) : option Table :=
  match ts with
  | [] => None
  | t :: rest =>
      if nonEmpty schema && negb (String.eqb (SchemaName t) schema)
      then lookupTable schema table rest
      else if String.eqb (Name t) table then Some t
      else lookupTable schema table rest
  end.

Definition pushTable (schema table alias : string) (s : Scope) : bool * Scope :=
  match lookupTable schema table (Tables (info s)) with
  | Some t =>
      (true, mkScope (info s) (tables s ++ [t]) (aliases s ++ [alias]) (outputNames s))
  | None => (false, s)
  end.

Definition pushPseudoTable (alias : string) (data : Table) (s : Scope) : Scope :=
  mkScope (info s) (tables s ++ [data]) (aliases s ++ [alias]) (outputNames s).

(** [popTable] evaluates [s.tables[len(s.tables)-1]] and
    [s.aliases[len(s.aliases)-1]] (the arguments of [debugf]) before it
    reslices: on an empty stack it panics. *)
Definition popTable (s : Scope) : Outcome Scope :=
  match tables s, aliases s with
  | _ :: _, _ :: _ =>
      Done (mkScope (info s) (removelast (tables s)) (removelast (aliases s))
                    (outputNames s))
  | _, _ => Panic
  end.

Definition pushOutputName (n : string) (c : option Column) (s : Scope) : Scope :=
  mkScope (info s) (tables s) (aliases s) (outputNames s ++ [mkOutputColRef n c]).

Definition popOutputName (s : Scope) : Outcome Scope :=
  match outputNames s with
  | _ :: _ =>
      Done (mkScope (info s) (tables s) (aliases s) (removelast (outputNames s)))
  | [] => Panic
  end.

(** Result codes of [Scope.get] ([iota] constants). *)
Definition scopeRetOk : Z := 0.
Definition scopeRetAmbiguous : Z := 1.
Definition scopeRetUnknown : Z := 2.

(** First loop of [get], table given: one pass over [s.tables], reading
    [s.aliases[i]] at each index reached. *)
Fixpoint findInScope (schema table : string) (ts : list Table) (als : list string)
  : Outcome (option Table) :=
  match ts with
  | [] => Done None
  | t :: ts' =>
      match als with
      | [] => Panic
      | a :: als' =>
          if String.eqb a table then Done (Some t)
          else if nonEmpty schema && negb (String.eqb (SchemaName t) schema)
          then findInScope schema table ts' als'
          else if String.eqb (Name t) table then Done (Some t)
          else findInScope schema table ts' als'
      end
  end.

(** [for i, c := range inScope.Columns { if c.Name == column { return ... } }] *)
Fixpoint findColumn (column : string) (cs : list Column) : option Column :=
  match cs with
  | [] => None
  | c :: rest => if String.eqb (col_Name c) column then Some c else findColumn column rest
  end.

(** The nested loops of [get], no table given.  The loop state is [(col, ret)];
    [inl r] is the early [return nil, scopeRetAmbiguous]. *)
Fixpoint scanColumns (column : string) (cs : list Column) (st : option Column * Z)
  : (option Column * Z) + (option Column * Z) :=
  match cs with
  | [] => inr st
  | c :: rest =>
      if String.eqb (col_Name c) column then
        if Z.eqb (snd st) scopeRetOk then inl (None, scopeRetAmbiguous)
        else scanColumns column rest (Some c, scopeRetOk)
      else scanColumns column rest st
  end.

Fixpoint scanTables (column : string) (ts : list Table) (st : option Column * Z)
  : (option Column * Z) + (option Column * Z) :=
  match ts with
  | [] => inr st
  | t :: rest =>
      match scanColumns column (Columns t) st with
      | inl r => inl r
      | inr st' => scanTables column rest st'
      end
  end.

Fixpoint findOutputName (column : string) (os : list outputColRef) : option outputColRef :=
  match os with
  | [] => None
  | o :: rest => if String.eqb column (name o) then Some o else findOutputName column rest
  end.

Definition get (s : Scope) (schema table column : string) : Outcome (option Column * Z) :=
  if nonEmpty table then
    do inScope <- findInScope schema table (tables s) (aliases s);
    match inScope with
    | None => Done (None, scopeRetUnknown)
    | Some t =>
        match findColumn column (Columns t) with
        | Some c => Done (Some c, scopeRetOk)
        | None => Done (None, scopeRetUnknown)
        end
    end
  else
    match scanTables column (tables s) (None, scopeRetUnknown) with
    | inl r => Done r
    | inr (c, ret) =>
        match findOutputName column (outputNames s) with
        | Some o => Done (col o, scopeRetOk)
        | None => Done (c, ret)
        end
    end.

Definition has (s : Scope) (schema table column : string) : Outcome Z :=
  do r <- get s schema table column; Done (snd r).

(** ** Go library functions used by the type checker

    [strings.Split], [strings.Trim] and [path.Base], [path.Dir], [path.Join]
    of the Go standard library, on byte strings. *)

Definition dot : ascii := ascii_of_nat 46.
Definition slash : ascii := ascii_of_nat 47.
Definition quote : ascii := ascii_of_nat 34.

(** [strings.Split(s, sep)] for a one-byte separator. *)
Fixpoint stringsSplit (sep : ascii) (s : string) : list string :=
  match s with
  | EmptyString => [EmptyString]
  | String a r =>
      if Ascii.eqb a sep then EmptyString :: stringsSplit sep r
      else match stringsSplit sep r with
           | h :: t => String a h :: t
           | [] => [String a EmptyString]
           end
  end.

Fixpoint trimLeft (c : ascii) (s : string) : string :=
  match s with
  | String a r => if Ascii.eqb a c then trimLeft c r else s
  | EmptyString => EmptyString
  end.

Fixpoint trimRight (c : ascii) (s : string) : string :=
  match s with
  | EmptyString => EmptyString
  | String a r =>
      match trimRight c r with
      | EmptyString => if Ascii.eqb a c then EmptyString else String a EmptyString
      | r' => String a r'
      end
  end.

(** [strings.Trim(s, cutset)] for a one-byte cutset. *)
Definition stringsTrim (c : ascii) (s : string) : string := trimRight c (trimLeft c s).

(** [strings.Join(elems, sep)]. *)
Fixpoint stringsJoin (sep : string) (elems : list string) : string :=
  match elems with
  | [] => EmptyString
  | [e] => e
  | e :: rest => e ++ sep ++ stringsJoin sep rest
  end.

(** [path.Base]: strip trailing slashes, keep what follows the last slash;
    ["."] for the empty path and ["/"] for a path of slashes only. *)
Definition pathBase (p : string) : string :=
  match p with
  | EmptyString => "."
  | _ =>
      match List.last (stringsSplit slash (trimRight slash p)) EmptyString with
      | EmptyString => "/"
      | b => b
      end
  end.

(** The elements of a cleaned path: [.] and empty elements are dropped, an
    inner [..] removes the element before it, a [..] at the start stays in a
    relative path and is dropped in a rooted one.  [acc] is reversed. *)
Fixpoint cleanElems (rooted : bool) (elems : list string) (acc : list string) : list string :=
  match elems with
  | [] => List.rev acc
  | e :: rest =>
      if String.eqb e "" || String.eqb e "." then cleanElems rooted rest acc
      else if String.eqb e ".." then
        match acc with
        | top :: acc' =>
            if String.eqb top ".." then cleanElems rooted rest (e :: acc)
            else cleanElems rooted rest acc'
        | [] => if rooted then cleanElems rooted rest acc
                else cleanElems rooted rest (e :: acc)
        end
      else cleanElems rooted rest (e :: acc)
  end.

(** [path.Clean]. *)
Definition pathClean (p : string) : string :=
  match p with
  | EmptyString => "."
  | String a _ =>
      let rooted := Ascii.eqb a slash in
      let body := stringsJoin "/" (cleanElems rooted (stringsSplit slash p) []) in
      let out := if rooted then String slash body else body in
      match out with
      | EmptyString => "."
      | _ => out
      end
  end.

(** The part of [p] up to and including its last slash ([path.Split]). *)
Fixpoint dirPart (p : string) : string :=
  match p with
  | EmptyString => EmptyString
  | String a r =>
      if existsb (Ascii.eqb slash) (list_ascii_of_string p)
      then String a (dirPart r) else EmptyString
  end.

(** [path.Dir]. *)
Definition pathDir (p : string) : string := pathClean (dirPart p).

(** [path.Join]: the elements from the first non-empty one on, joined with
    slashes and cleaned; the empty string when every element is empty. *)
Fixpoint pathJoin (elems : list string) : string :=
  match elems with
  | [] => EmptyString
  | e :: rest =>
      if nonEmpty e then pathClean (stringsJoin "/" elems) else pathJoin rest
  end.

(** Go's [int] is 64 bits wide here: arithmetic wraps around. *)
Definition wrapInt (z : Z) : Z := (z + 2 ^ 63) mod 2 ^ 64 - 2 ^ 63.

(** ** Calls, diagnostics and the application state *)

Record Position : Type := mkPosition {
  Filename : string;
  Line : Z;
  PosColumn : Z
}.

Record Call : Type := mkCall {
  SQL : string;
  ArgTypes : list string;
  Package : string;
  Pos : Position
}.

(** Kinds of identifier errors ([iota] constants). *)
Definition Unknown : Z := 0.
Definition Ambiguous : Z := 1.

(** The values that flow through [[]error]. *)
Inductive GoError : Type :=
| IdentErr (Kind : Z) (Schema Table Column : string) (Location : Z) (Fn : Call)
| TypeErr (Schema Table Column CallType DriverType DBType : string)
          (ParamNumber Location : Z) (Fn : Call)
| ParseError (Err : string) (Fn : Call)
| ErrorString (msg : string).   (* [fmt.Errorf] *)

(** [importers.Set] and the [BasedOnType] map of [importers.Collection]. *)
Record ImportSet : Type := mkImportSet {
  Standard : list string;
  ThirdParty : list string
}.

Record State : Type := mkState {
  StateDBInfo : DBInfo;
  BasedOnType : gmap string ImportSet
}.

(** ** The PostgreSQL parse tree ([pg_query_go/nodes])

    Only the node kinds and the fields the checker reads.  [NilNode] is the nil
    interface value, [OtherNode] any node kind the checker has no case for. *)

Record Alias : Type := mkAlias {
  Aliasname : option string
}.

Record RangeVarData : Type := mkRangeVar {
  Schemaname : option string;
  Relname : option string;
  RangeAlias : option Alias;
  RangeLocation : Z
}.

Unset Elimination Schemes.
Inductive Node : Type :=
| NilNode
| OtherNode
| StringNode (Str : string)
| A_Star
| ParamRef (Number Location : Z)
| ColumnRef (Fields : list Node) (Location : Z)
| A_Expr (Lexpr Rexpr : Node)
| BoolExpr (Args : list Node)
| FuncCall (Args : list Node)
| SortBy (Child : Node)
| SubLink (Subselect : Node)
| ResTarget (TargetName : option string) (Val : Node) (Location : Z)
| RangeVar (r : RangeVarData)
| JoinExpr (Larg Rarg Quals : Node)
| RangeSubselect (Lateral : bool) (Subquery : Node) (SubAlias : option Alias)
| RawStmt (Stmt : Node)
| SelectStmtNode (sel : SelectStmt)
| UpdateStmt (Relation : option RangeVarData) (TargetList : list Node) (WhereClause : Node)
| InsertStmt (Relation : option RangeVarData) (Cols : list Node)
| DeleteStmt (Relation : option RangeVarData) (WhereClause : Node)
with SelectStmt : Type :=
| mkSelectStmt (Larg Rarg : option SelectStmt)
               (FromClause : list Node)
               (WhereClause HavingClause : Node)
               (TargetList GroupClause SortClause : list Node).
Set Elimination Schemes.

Definition isNil (n : Node) : bool :=
  match n with NilNode => true | _ => false end.

(** [n.(pgnodes.String).Str]: the type assertion panics on any other node. *)
Definition asString (n : option Node) : Outcome string :=
  match n with
  | Some (StringNode s) => Done s
  | _ => Panic
  end.

(** [*p] for a [*string]. *)
Definition deref {A} (p : option A) : Outcome A :=
  match p with
  | Some a => Done a
  | None => Panic
  end.

Definition orEmpty (p : option string) : string :=
  match p with Some s => s | None => EmptyString end.

(** The qualification of a column reference, as [checkCallRecurse] and
    [typeCheck] both compute it: [(schema, table, offset)]. *)
Definition qualifiers (fields : list Node) : Outcome (string * string * nat) :=
  if Nat.eqb (length fields) 3 then
    do schema <- asString (fields !! 0%nat);
    do table <- asString (fields !! 1%nat);
    Done (schema, table, 2%nat)
  else if Nat.eqb (length fields) 2 then
    do table <- asString (fields !! 0%nat);
    Done (EmptyString, table, 1%nat)
  else Done (EmptyString, EmptyString, 0%nat).

(** ** The type checker *)

(** The import lookup of [typeCheck]: the loop over [allImps], returning [imp]. *)
Fixpoint lookupImport (splits : list string) (colType : string) (allImps : list string)
  : Outcome string :=
  match allImps with
  | [] => Done EmptyString
  | i :: rest =>
      let noQuotes := stringsTrim quote i in
      do second <- deref (splits !! 1%nat);
      if negb (String.eqb second (pathBase noQuotes)) then lookupImport splits colType rest
      else
        let packageDir := pathDir noQuotes in
        Done (pathJoin [packageDir; colType])
  end.

Definition typeCheck (s : State) (fn : Call) (scope : Scope) (lhs rhs : Node)
  : Outcome (option GoError) :=
  if isNil lhs || isNil rhs then Done None else
  let cref := match rhs with
           | ColumnRef f l => Some f
           | _ => match lhs with ColumnRef f l => Some f | _ => None end
           end in
  let p := match rhs with
           | ParamRef n l => Some (n, l)
           | _ => match lhs with ParamRef n l => Some (n, l) | _ => None end
           end in
  match cref, p with
  | Some fields, Some (number, plocation) =>
      do q <- qualifiers fields;
      let '(schema, table, offset) := q in
      do column <- asString (fields !! offset);
      do r <- get scope schema table column;
      let '(found, ret) := r in
      if negb (Z.eqb ret scopeRetOk) then Done None else
      match found with
      | None => Done None
      | Some c =>
          let k := wrapInt (number - 1) in
          if Z.geb k (Z.of_nat (length (ArgTypes fn))) then
            Done (Some (TypeErr schema table column "<none>" (col_Type c)
                                (col_DBType c) number plocation fn))
          else
            do argType <- (if Z.ltb k 0 then Panic
                           else deref (ArgTypes fn !! Z.to_nat k));
            let normalizedType := col_Type c in
            let splits := stringsSplit dot (col_Type c) in
            do failed <-
              (if Nat.ltb 1 (length splits) then
                 let imports := default (mkImportSet [] []) (BasedOnType s !! col_Type c) in
                 let allImps := (Standard imports ++ ThirdParty imports)%list in
                 do imp <- lookupImport splits (col_Type c) allImps;
                 Done (Nat.eqb (String.length imp) 0)
               else Done false);
            if (failed : bool) then
              Done (Some (ErrorString
                     ("failed to lookup package for driver type: " ++ col_Type c)%string))
            else if negb (String.eqb argType normalizedType) then
              Done (Some (TypeErr schema table column argType (col_Type c)
                                  (col_DBType c) number plocation fn))
            else Done None
      end
  | _, _ => Done None
  end.

(** ** The statement checker

    The handlers receive the scope by pointer and change it in place: here each
    returns the scope it leaves behind together with its result.  The mutual
    recursion of [checkCallRecurse] and [checkSelect] runs on a step budget;
    [nodeSize] below is a budget that always suffices, and a larger one gives
    the same result. *)

Definition Recurse : Type := Scope -> Node -> Outcome (list GoError * Scope).
Definition RecurseSelect : Type :=
  Scope -> SelectStmt -> Outcome ((list outputColRef * list GoError) * Scope).

Definition outputColsToPseudoTable (nm : string) (refs : list outputColRef) : Table :=
  mkTable EmptyString nm
    (List.map (fun r =>
       match col r with
       | Some c => mkColumn (name r) (col_Type c) (col_DBType c) (col_UDTName c)
                            (col_FullDBType c) (col_Nullable c) (col_Unique c)
       | None => mkColumn (name r) EmptyString EmptyString EmptyString EmptyString
                          false false
       end) refs).

(** [for _, n := range items { errs = descend(n) }] *)
Fixpoint descendEach (rec : Recurse) (items : list Node) (errs : list GoError)
  (scope : Scope) : Outcome (list GoError * Scope) :=
  match items with
  | [] => Done (errs, scope)
  | n :: rest =>
      do r <- rec scope n;
      descendEach rec rest (errs ++ fst r)%list (snd r)
  end.

(** [for i := 0; i < nTables; i++ { scope.popTable() }] *)
Fixpoint popTables (n : nat) (scope : Scope) : Outcome Scope :=
  match n with
  | O => Done scope
  | S n' => do scope' <- popTable scope; popTables n' scope'
  end.

Fixpoint popOutputNames (n : nat) (scope : Scope) : Outcome Scope :=
  match n with
  | O => Done scope
  | S n' => do scope' <- popOutputName scope; popOutputNames n' scope'
  end.

Definition pushOutputNames (refs : list outputColRef) (scope : Scope) : Scope :=
  fold_left (fun s r => pushOutputName (name r) (col r) s) refs scope.

(** The push of a statement's relation, shared by [addTable] in [checkSelect]
    and by the update, insert and delete handlers: the scope, the errors and
    the count of tables pushed. *)
Definition pushRelation (fn : Call) (schema table alias : string) (location : Z)
  (scope : Scope) (errs : list GoError) (nTables : nat) : Scope * list GoError * nat :=
  let '(ok, scope') := pushTable schema table alias scope in
  if ok then (scope', errs, S nTables)
  else (scope', (errs ++ [IdentErr 0 schema table EmptyString location fn])%list, nTables).

Definition aliasOf (a : option Alias) : Outcome string :=
  match a with
  | Some al => deref (Aliasname al)
  | None => Done EmptyString
  end.

(** [addTable], the closure of [checkSelect]. *)
Definition addTable (fn : Call) (r : RangeVarData) (scope : Scope)
  (errs : list GoError) (nTables : nat) : Outcome (Scope * list GoError * nat) :=
  do table <- deref (Relname r);
  let schema := orEmpty (Schemaname r) in
  do alias <- aliasOf (RangeAlias r);
  Done (pushRelation fn schema table alias (RangeLocation r) scope errs nTables).

(** The head of update, insert and delete: schema and alias first, then the
    table name. *)
Definition pushStatementTable (fn : Call) (rel : option RangeVarData) (scope : Scope)
  : Outcome (Scope * list GoError * nat) :=
  do r <- deref rel;
  let schema := orEmpty (Schemaname r) in
  do alias <- aliasOf (RangeAlias r);
  do table <- deref (Relname r);
  Done (pushRelation fn schema table alias (RangeLocation r) scope [] 0%nat).

(** The worklist loop over the FROM clause.  The Go slice [stack] has its top
    at the end; here the top is the head of the list, so the initial stack is
    the reversed FROM list.  [k] bounds the number of iterations. *)
Fixpoint fromLoop (recN : Recurse) (recS : RecurseSelect) (fn : Call) (k : nat)
  (stack : list Node) (scope : Scope) (errs : list GoError) (nTables : nat)
  : Outcome (Scope * list GoError * nat) :=
  match stack with
  | [] => Done (scope, errs, nTables)
  | popped :: stack' =>
      match k with
      | O => OutOfFuel
      | S k' =>
          match popped with
          | RangeVar r =>
              do st <- addTable fn r scope errs nTables;
              let '(scope', errs', n') := st in
              fromLoop recN recS fn k' stack' scope' errs' n'
          | JoinExpr larg rarg quals =>
              fromLoop recN recS fn k' (larg :: rarg :: quals :: stack') scope errs nTables
          | A_Expr _ _ | BoolExpr _ =>
              do r <- recN scope popped;
              fromLoop recN recS fn k' stack' (snd r) (errs ++ fst r)%list nTables
          | RangeSubselect lateral subquery alias =>
              match alias with
              | None => Panic
              | Some al =>
                  let subSelectScope :=
                    if lateral then clone scope else NewScope (info scope) in
                  match subquery with
                  | SelectStmtNode subSelect =>
                      do r <- recS subSelectScope subSelect;
                      let '(subSelMap, subSelectErrs) := fst r in
                      do aliasname <- deref (Aliasname al);
                      let pseudoTable := outputColsToPseudoTable aliasname subSelMap in
                      fromLoop recN recS fn k' stack'
                        (pushPseudoTable aliasname pseudoTable scope)
                        (errs ++ subSelectErrs)%list (S nTables)
                  | _ => Panic
                  end
              end
          | _ => Panic
          end
      end
  end.

(** One turn of the loop over the select list: [addRefs] and [errs] after it.
    A target whose value is a column reference is resolved in the scope; any
    other value is recorded under the target's name and not looked into. *)
Definition targetStep (fn : Call) (scope : Scope) (listItem : Node)
  (addRefs : list outputColRef) (errs : list GoError)
  : Outcome (list outputColRef * list GoError) :=
  match listItem with
  | ResTarget tname val _ =>
      let nm := orEmpty tname in
      match val with
      | ColumnRef fields location =>
          let ln := length fields in
          do _ <- (if Nat.eqb ln 1
                   then match fields !! 0%nat with
                        | Some A_Star => Panic
                        | _ => Done tt
                        end
                   else Done tt);
          do column <- (if Nat.eqb ln 0 then Panic
                        else asString (fields !! (ln - 1)%nat));
          do table <- (if Nat.leb 2 ln then asString (fields !! (ln - 2)%nat)
                       else Done EmptyString);
          do schema <- (if Nat.leb 3 ln then asString (fields !! (ln - 3)%nat)
                        else Done EmptyString);
          do r <- get scope schema table column;
          if negb (Z.eqb (snd r) scopeRetOk) then
            Done (addRefs, (errs ++ [IdentErr 0 schema table column location fn])%list)
          else
            do nm' <- (if Nat.eqb (String.length nm) 0
                       then do c <- deref (fst r); Done (col_Name c)
                       else Done nm);
            Done ((addRefs ++ [mkOutputColRef nm' (fst r)])%list, errs)
      | _ => Done ((addRefs ++ [mkOutputColRef nm None])%list, errs)
      end
  | _ => Panic
  end.

(** The loop over the select list: the output references and the errors. *)
Fixpoint targetLoop (fn : Call) (scope : Scope) (items : list Node)
  (addRefs : list outputColRef) (errs : list GoError)
  : Outcome (list outputColRef * list GoError) :=
  match items with
  | [] => Done (addRefs, errs)
  | listItem :: rest =>
      do st <- targetStep fn scope listItem addRefs errs;
      targetLoop fn scope rest (fst st) (snd st)
  end.

Definition checkSelectBody (recN : Recurse) (recS : RecurseSelect) (k : nat)
  (fn : Call) (scope : Scope) (sel : SelectStmt)
  : Outcome ((list outputColRef * list GoError) * Scope) :=
  match sel with
  | mkSelectStmt larg rarg from wher having targets group sort =>
      match larg, rarg with
      | Some l, Some r =>
          do r1 <- recN scope (SelectStmtNode l);
          do r2 <- recN (snd r1) (SelectStmtNode r);
          Done (([], (fst r1 ++ fst r2)%list), snd r2)
      | _, _ =>
          do st <- fromLoop recN recS fn k (List.rev from) scope [] 0%nat;
          let '(scope1, errs1, nTables) := st in
          do r2 <- recN scope1 wher;
          do r3 <- recN (snd r2) having;
          do tl <- targetLoop fn (snd r3) targets []
                     ((errs1 ++ fst r2) ++ fst r3)%list;
          let '(addRefs, errs4) := tl in
          let scope4 := pushOutputNames addRefs (snd r3) in
          do r5 <- descendEach recN group errs4 scope4;
          do r6 <- descendEach recN sort (fst r5) (snd r5);
          do scope7 <- popOutputNames (length addRefs) (snd r6);
          do scope8 <- popTables nTables scope7;
          Done ((addRefs, fst r6), scope8)
      end
  end.

Definition checkUpdate (recN : Recurse) (fn : Call) (scope : Scope)
  (rel : option RangeVarData) (targets : list Node) (wher : Node)
  : Outcome (list GoError * Scope) :=
  do st <- pushStatementTable fn rel scope;
  let '(scope1, errs1, nTables) := st in
  do r2 <- descendEach recN targets errs1 scope1;
  do r3 <- recN (snd r2) wher;
  do scope4 <- popTables nTables (snd r3);
  Done ((fst r2 ++ fst r3)%list, scope4).

Definition checkInsert (recN : Recurse) (fn : Call) (scope : Scope)
  (rel : option RangeVarData) (cols : list Node) : Outcome (list GoError * Scope) :=
  do st <- pushStatementTable fn rel scope;
  let '(scope1, errs1, nTables) := st in
  do r2 <- descendEach recN cols errs1 scope1;
  do scope3 <- popTables nTables (snd r2);
  Done (fst r2, scope3).

Definition checkDelete (recN : Recurse) (fn : Call) (scope : Scope)
  (rel : option RangeVarData) (wher : Node) : Outcome (list GoError * Scope) :=
  do st <- pushStatementTable fn rel scope;
  let '(scope1, errs1, nTables) := st in
  do r2 <- recN scope1 wher;
  do scope3 <- popTables nTables (snd r2);
  Done ((errs1 ++ fst r2)%list, scope3).

Definition checkCallRecurseBody (recN : Recurse) (recS : RecurseSelect)
  (state : State) (fn : Call) (scope : Scope) (n : Node)
  : Outcome (list GoError * Scope) :=
  match n with
  | RawStmt _ => Panic
  | SelectStmtNode sel =>
      do r <- recS scope sel;
      Done (snd (fst r), snd r)
  | UpdateStmt rel targets wher => checkUpdate recN fn scope rel targets wher
  | InsertStmt rel cols => checkInsert recN fn scope rel cols
  | DeleteStmt rel wher => checkDelete recN fn scope rel wher
  | SortBy child => recN scope child
  | FuncCall args => descendEach recN args [] scope
  | A_Expr lexpr rexpr =>
      do r1 <- recN scope lexpr;
      do r2 <- recN (snd r1) rexpr;
      do err <- typeCheck state fn (snd r2) lexpr rexpr;
      match err with
      | Some e => Done (((fst r1 ++ fst r2) ++ [e])%list, snd r2)
      | None => Done ((fst r1 ++ fst r2)%list, snd r2)
      end
  | BoolExpr args => descendEach recN args [] scope
  | ColumnRef fields location =>
      do q <- qualifiers fields;
      let '(schema, table, offset) := q in
      match fields !! offset with
      | Some (StringNode column) =>
          do ret <- has scope schema table column;
          let kind := if Z.eqb ret scopeRetUnknown then Unknown
                      else if Z.eqb ret scopeRetAmbiguous then Ambiguous
                      else 0 in
          if negb (Z.eqb ret scopeRetOk)
          then Done ([IdentErr kind schema table column location fn], scope)
          else Done ([], scope)
      | Some A_Star => Done ([], scope)
      | _ => Panic
      end
  | SubLink subselect => recN scope subselect
  | ResTarget tname val location =>
      do errs <- match tname with
                 | Some c =>
                     do ret <- has scope EmptyString EmptyString c;
                     if Z.eqb ret scopeRetUnknown
                     then Done [IdentErr 0 EmptyString EmptyString c location fn]
                     else Done []
                 | None => Done []
                 end;
      if isNil val then Done (errs, scope)
      else do r <- recN scope val; Done ((errs ++ fst r)%list, snd r)
  | _ => Done ([], scope)
  end.

Fixpoint checkCallRecurse (fuel : nat) (state : State) (fn : Call) (scope : Scope)
  (n : Node) {struct fuel} : Outcome (list GoError * Scope) :=
  match fuel with
  | O => OutOfFuel
  | S f =>
      checkCallRecurseBody (checkCallRecurse f state fn) (checkSelect f state fn)
        state fn scope n
  end
with checkSelect (fuel : nat) (state : State) (fn : Call) (scope : Scope)
  (sel : SelectStmt) {struct fuel} : Outcome ((list outputColRef * list GoError) * Scope) :=
  match fuel with
  | O => OutOfFuel
  | S f =>
      checkSelectBody (checkCallRecurse f state fn) (checkSelect f state fn) f
        fn scope sel
  end.

(** The number of nodes of a parse tree: a budget that the traversal of the
    tree never exhausts ([checker_enough]). *)
Fixpoint nodeSize (n : Node) : nat :=
  let sizes := fix sizes (l : list Node) : nat :=
    match l with
    | [] => O
    | x :: r => (nodeSize x + sizes r)%nat
    end in
  match n with
  | ColumnRef fields _ => S (sizes fields)
  | A_Expr l r => S (nodeSize l + nodeSize r)
  | BoolExpr args => S (sizes args)
  | FuncCall args => S (sizes args)
  | SortBy c => S (nodeSize c)
  | SubLink c => S (nodeSize c)
  | ResTarget _ v _ => S (nodeSize v)
  | JoinExpr l r q => S (nodeSize l + nodeSize r + nodeSize q)
  | RangeSubselect _ sub _ => S (nodeSize sub)
  | RawStmt c => S (nodeSize c)
  | SelectStmtNode sel => S (selectSize sel)
  | UpdateStmt _ targets wher => S (sizes targets + nodeSize wher)
  | InsertStmt _ cols => S (sizes cols)
  | DeleteStmt _ wher => S (nodeSize wher)
  | _ => 1%nat
  end
with selectSize (sel : SelectStmt) : nat :=
  let sizes := fix sizes (l : list Node) : nat :=
    match l with
    | [] => O
    | x :: r => (nodeSize x + sizes r)%nat
    end in
  match sel with
  | mkSelectStmt l r from wher having targets group sort =>
      S (S (match l with Some x => selectSize x | None => O end
            + match r with Some x => selectSize x | None => O end
            + sizes from + nodeSize wher + nodeSize having
            + sizes targets + sizes group + sizes sort))
  end.

Fixpoint nodeSizes (l : list Node) : nat :=
  match l with
  | [] => O
  | x :: r => (nodeSize x + nodeSizes r)%nat
  end.

(** [checkCall]: every statement is checked in a scope of its own. *)
Fixpoint checkCall (state : State) (fn : Call) (statements : list Node)
  : Outcome (list GoError) :=
  match statements with
  | [] => Done []
  | stmt :: rest =>
      let stmt' := match stmt with RawStmt inner => inner | _ => stmt end in
      do r <- checkCallRecurse (nodeSize stmt') state fn
                (NewScope (StateDBInfo state)) stmt';
      do errs <- checkCall state fn rest;
      Done (fst r ++ errs)%list
  end.

(** [checkCalls].  The parser ([pgquery.Parse]) is outside the repository: it
    is a parameter, returning the statements and the parse error, if any. *)
Fixpoint checkCalls (parse : string -> list Node * option string)
  (state : State) (fns : list Call) : Outcome (list GoError) :=
  match fns with
  | [] => Done []
  | fn :: rest =>
      let '(tree, err) := parse (SQL fn) in
      let perr := match err with
                  | Some e => [ParseError e fn]
                  | None => []
                  end in
      do errs <- checkCall state fn tree;
      do more <- checkCalls parse state rest;
      Done ((perr ++ errs) ++ more)%list
  end.

(** ** The call-site resolver

    The host syntax tree ([go/ast]) with the node kinds the resolver looks at.
    Every node has an address, its identity as a key of [TypesInfo.Types] and
    as the target of [Obj.Decl], and the position [Fset.Position(n.Pos())]. *)

Record NodeInfo : Type := mkNodeInfo {
  addr : nat;
  npos : Position
}.

Inductive ObjKind : Type := Bad | Pkg | Con | Typ | Var | Fun | Lbl.

(** What [Obj.Decl] points to: a value spec, with the addresses of its
    [Values], or another declaration. *)
Inductive Decl : Type :=
| DeclValueSpec (spec : NodeInfo) (values : list nat)
| DeclOther.

Record Object : Type := mkObject {
  ObjKindOf : ObjKind;
  ObjDecl : Decl;
  ObjPos : Position
}.

Unset Elimination Schemes.
Inductive GoNode : Type :=
| Ident (i : NodeInfo) (IdentName : string) (Obj : option Object)
| SelectorExpr (i : NodeInfo) (X : GoNode) (Sel : string)
| CallExpr (i : NodeInfo) (Fn : GoNode) (Args : list GoNode)
| ExprStmt (i : NodeInfo) (X : GoNode)
| IfStmt (i : NodeInfo) (Init : option GoNode) (Rest : list GoNode)
| AssignStmt (i : NodeInfo) (Lhs Rhs : list GoNode)
| OtherGoNode (i : NodeInfo) (Children : list GoNode).
Set Elimination Schemes.

Definition infoOf (n : GoNode) : NodeInfo :=
  match n with
  | Ident i _ _ | SelectorExpr i _ _ | CallExpr i _ _ | ExprStmt i _
  | IfStmt i _ _ | AssignStmt i _ _ | OtherGoNode i _ => i
  end.

(** [constant.Value], as far as [constant.StringVal] distinguishes it. *)
Inductive ConstValue : Type :=
| StringConst (s : string)
| UnknownConst
| OtherConst.

Record TypeAndValue : Type := mkTypeAndValue {
  IsValue : bool;
  TypeString : string;             (* [Type.String()] *)
  Value : option ConstValue
}.

(** [pkg.TypesInfo.Types] *)
Abbreviation TypesMap := (gmap nat TypeAndValue).

(** [constant.StringVal]: panics on anything but a string or an unknown. *)
Definition StringVal (v : option ConstValue) : Outcome string :=
  match v with
  | Some (StringConst s) => Done s
  | Some UnknownConst => Done EmptyString
  | _ => Panic
  end.

Record Constant : Type := mkConstant {
  ConstName : string;
  ConstVal : string;
  ValSpec : nat;                   (* the address of the [*ast.ValueSpec] *)
  ConstPos : Position
}.

Record Warn : Type := mkWarn {
  WarnErr : string;
  WarnPos : Position
}.

(** [%d] of an [int]. *)
Definition decimalZ (z : Z) : string := DecimalString.NilZero.string_of_int (Z.to_int z).

(** [Warn.Error]: ["%s:%d:%d %s"]. *)
Definition WarnError (w : Warn) : string :=
  Filename (WarnPos w) ++ ":" ++ decimalZ (Line (WarnPos w)) ++ ":"
    ++ decimalZ (PosColumn (WarnPos w)) ++ " " ++ WarnErr w.

Record sqlFunction : Type := mkSqlFunction {
  FnName : string;
  HasContext : bool
}.

Definition functionWhitelist : list sqlFunction :=
  [ mkSqlFunction "Exec" false;
    mkSqlFunction "ExecContext" true;
    mkSqlFunction "Query" false;
    mkSqlFunction "QueryContext" true;
    mkSqlFunction "QueryRow" false;
    mkSqlFunction "QueryRowContext" true;
    mkSqlFunction "SQL" false ].

(** [getSQLFunction], its third result. *)
Definition getSQLFunction (fn : GoNode) : Outcome (option sqlFunction) :=
  match fn with
  | Ident _ nm _ | SelectorExpr _ _ nm =>
      Done (List.find (fun w => String.eqb (FnName w) nm) functionWhitelist)
  | _ => Panic
  end.

(** [%d] of a non-negative [int]. *)
Definition decimal (n : nat) : string := DecimalString.NilEmpty.string_of_uint (Nat.to_uint n).

(** [%q] of an identifier. *)
Definition quoted (s : string) : string := String quote (s ++ String quote EmptyString).

(** The loop that collects the argument types from index [i] on; [shown] is
    what is added to the index in the warning. *)
Fixpoint argTypesFrom (types : TypesMap) (shown : nat) (i : nat) (args : list GoNode)
  (argTypes : list string) : list string + Warn :=
  match args with
  | [] => inl argTypes
  | arg :: rest =>
      match types !! addr (infoOf arg) with
      | None =>
          inr (mkWarn ("argument " ++ decimal (i + shown) ++ " type unknown")
                      (npos (infoOf arg)))
      | Some typeAndVal =>
          argTypesFrom types shown (S i) rest (argTypes ++ [TypeString typeAndVal])%list
      end
  end.

(** The SQL text of the argument at [sqlOffset] of a whitelisted call. *)
Definition sqlOfArg (types : TypesMap) (arg : GoNode) : Outcome (string + Warn) :=
  match arg with
  | Ident i nm obj =>
      do o <- deref obj;
      match ObjKindOf o with
      | Con =>
          match ObjDecl o with
          | DeclValueSpec spec values =>
              do v0 <- deref (values !! 0%nat);
              match types !! v0 with
              | Some typeVal =>
                  if IsValue typeVal
                  then do s <- StringVal (Value typeVal); Done (inl s)
                  else Done (inr (mkWarn "could not find string value for sql statement"
                                         (npos spec)))
              | None => Done (inr (mkWarn "could not find string value for sql statement"
                                          (npos spec)))
              end
          | DeclOther =>
              Done (inr (mkWarn ("declaration of " ++ quoted nm ++ " is not a value")
                                (ObjPos o)))
          end
      | _ => Done (inr (mkWarn ("argument " ++ quoted nm
                                 ++ " to sql function is not a constant") (npos i)))
      end
  | _ =>
      match types !! addr (infoOf arg) with
      | Some typeVal =>
          if IsValue typeVal
          then do s <- StringVal (Value typeVal); Done (inl s)
          else Done (inr (mkWarn
                 "sql argument to function is not an identifier or a constant string"
                 (npos (infoOf arg))))
      | None => Done (inr (mkWarn
                 "sql argument to function is not an identifier or a constant string"
                 (npos (infoOf arg))))
      end
  end.

(** The whitelisted case of [tagCall]. *)
Definition tagWhitelisted (types : TypesMap) (fn : sqlFunction) (i : NodeInfo)
  (args : list GoNode) : Outcome (option Call * option Warn) :=
  let sqlOffset := if HasContext fn then 1%nat else 0%nat in
  do arg <- deref (args !! sqlOffset);
  do sql <- sqlOfArg types arg;
  match sql with
  | inr w => Done (None, Some w)
  | inl sql =>
      match argTypesFrom types 1 (S sqlOffset) (drop (S sqlOffset) args) [] with
      | inr w => Done (None, Some w)
      | inl argTypes =>
          Done (Some (mkCall sql argTypes EmptyString (npos i)), None)
      end
  end.

(** [tagCall].  The loop on [currentNode] moves to a child of the current
    node at each turn: it is the recursion on the node. *)
Fixpoint tagCall (types : TypesMap) (node : GoNode) {struct node}
  : Outcome (option Call * option Warn) :=
  match node with
  | CallExpr i fn args =>
      do f <- getSQLFunction fn;
      match f with
      | None =>
          match fn with
          | SelectorExpr _ (CallExpr _ _ _ as ce) _ => tagCall types ce
          | _ =>
              (fix firstCall (l : list GoNode) : Outcome (option Call * option Warn) :=
                 match l with
                 | [] => Done (None, None)
                 | fnArg :: rest =>
                     do r <- tagCall types fnArg;
                     match fst r with
                     | Some call => Done (Some call, None)
                     | None => firstCall rest
                     end
                 end) args
          end
      | Some f => tagWhitelisted types f i args
      end
  | ExprStmt _ x => tagCall types x
  | IfStmt _ init _ =>
      match init with
      | Some s => tagCall types s
      | None => Done (None, None)
      end
  | AssignStmt _ _ rhs =>
      match rhs with
      | r :: _ => tagCall types r
      | [] => Panic
      end
  | _ => Done (None, None)
  end.

(** The end of the loop body of [iterateCommentMap], for a tagged node that is
    not a declaration: the call, if any, and the warnings. *)
Definition tagNode (types : TypesMap) (node : GoNode) : Outcome (option Call * list Warn) :=
  do r <- tagCall types node;
  let warns := match snd r with
               | Some w => [mkWarn (WarnError w) (npos (infoOf node))]
               | None => []
               end in
  match fst r with
  | None =>
      Done (None, (warns ++ [mkWarn
              "failed to find either function or constant after sqlboiler:check tag"
              (npos (infoOf node))])%list)
  | Some call => Done (Some call, warns)
  end.

(** The inner loop of the visitor of [tagCallsByConstant]: the first constant
    of [consts] with the name of the identifier and declared by the value spec
    the identifier resolves to. *)
Fixpoint matchConstant (nm : string) (obj : option Object) (consts : list Constant)
  : Outcome (option Constant) :=
  match consts with
  | [] => Done None
  | c :: rest =>
      if negb (String.eqb (ConstName c) nm) then matchConstant nm obj rest
      else
        do o <- deref obj;
        match ObjDecl o with
        | DeclValueSpec spec _ =>
            if negb (Nat.eqb (addr spec) (ValSpec c)) then matchConstant nm obj rest
            else Done (Some c)
        | DeclOther => matchConstant nm obj rest
        end
  end.

(** The outer loop: [constVal] and [constIndex] after the scan of the
    arguments.  A later match overwrites an earlier one. *)
Fixpoint findConstArg (consts : list Constant) (i : nat) (args : list GoNode)
  (found : option (Constant * nat)) : Outcome (option (Constant * nat)) :=
  match args with
  | [] => Done found
  | Ident _ nm obj :: rest =>
      do m <- matchConstant nm obj consts;
      findConstArg consts (S i) rest
        (match m with Some c => Some (c, i) | None => found end)
  | _ :: rest => findConstArg consts (S i) rest found
  end.

(** The visitor at a call expression: whether the walk goes on into the
    children, and the calls and warnings so far. *)
Definition visitCall (types : TypesMap) (consts : list Constant) (i : NodeInfo)
  (fn : GoNode) (args : list GoNode) (acc : list Call * list Warn)
  : Outcome (bool * (list Call * list Warn)) :=
  do found <- findConstArg consts 0 args None;
  match found with
  | None => Done (true, acc)
  | Some (constVal, constIndex) =>
      do f <- getSQLFunction fn;
      match f with
      | None =>
          do a <- deref (args !! constIndex);
          Done (true, (fst acc,
                       (snd acc ++ [mkWarn "tagged constant used in non-sql function"
                                           (npos (infoOf a))])%list))
      | Some _ =>
          match argTypesFrom types 0 (S constIndex) (drop (S constIndex) args) [] with
          | inr w => Done (true, (fst acc, (snd acc ++ [w])%list))
          | inl argTypes =>
              Done (false,
                    ((fst acc ++ [mkCall (ConstVal constVal) argTypes EmptyString
                                         (npos i)])%list, snd acc))
          end
      end
  end.

(** [ast.Walk] with the visitor of [tagCallsByConstant]: the children are
    visited in the order of [ast.Walk], unless the visitor returned nil. *)
Fixpoint walk (types : TypesMap) (consts : list Constant) (n : GoNode)
  (acc : list Call * list Warn) {struct n} : Outcome (list Call * list Warn) :=
  let walkList :=
    fix walkList (l : list GoNode) (acc : list Call * list Warn) :=
      match l with
      | [] => Done acc
      | x :: r => do a <- walk types consts x acc; walkList r a
      end in
  match n with
  | CallExpr i fn args =>
      do v <- visitCall types consts i fn args acc;
      if fst v then do a <- walk types consts fn (snd v); walkList args a
      else Done (snd v)
  | Ident _ _ _ => Done acc
  | SelectorExpr _ x _ => walk types consts x acc
  | ExprStmt _ x => walk types consts x acc
  | IfStmt _ init rest =>
      do a <- match init with
              | Some s => walk types consts s acc
              | None => Done acc
              end;
      walkList rest a
  | AssignStmt _ lhs rhs => do a <- walkList lhs acc; walkList rhs a
  | OtherGoNode _ children => walkList children acc
  end.

Definition tagCallsByConstant (types : TypesMap) (file : GoNode) (consts : list Constant)
  : Outcome (list Call * list Warn) :=
  walk types consts file ([], []).

(** The call expressions of a tree: position, callee and arguments. *)
Fixpoint callSites (n : GoNode) : list (NodeInfo * GoNode * list GoNode) :=
  let sites := fix sites (l : list GoNode) :=
    match l with
    | [] => []
    | x :: r => (callSites x ++ sites r)%list
    end in
  match n with
  | CallExpr i fn args => (i, fn, args) :: (callSites fn ++ sites args)%list
  | Ident _ _ _ => []
  | SelectorExpr _ x _ => callSites x
  | ExprStmt _ x => callSites x
  | IfStmt _ init rest =>
      (match init with Some s => callSites s | None => [] end ++ sites rest)%list
  | AssignStmt _ lhs rhs => (sites lhs ++ sites rhs)%list
  | OtherGoNode _ children => sites children
  end.

(** ** The scope in memory

    [Scope.clone] exists so that a lateral sub-select works on stacks of its
    own.  To say what that means the three stacks are modelled as Go has them:
    a slice is a window [(arr, len, cap)] on a backing array in memory,
    [append] writes in place while the capacity lasts and moves to a new array
    otherwise, and reslicing keeps the array.  Address [0] is nil. *)

Record slice : Type := mkSlice {
  arr : nat;
  len : nat;
  cap : nat
}.

Definition nilSlice : slice := mkSlice 0 0 0.

Definition newAddr {A} (h : gmap nat A) : nat := fresh ({[0%nat]} ∪ dom h).

Section Slices.
Context {A : Type} (zero : A).

(** What a slice shows of the memory. *)
Definition view (h : gmap nat (list A)) (s : slice) : list A :=
  take (len s) (default [] (h !! arr s)).

(** [make([]T, n)] *)
Definition make (n : nat) (h : gmap nat (list A)) : slice * gmap nat (list A) :=
  let l := newAddr h in
  (mkSlice l n n, <[l := replicate n zero]> h).

(** [copy(dst, src)] *)
Definition copy (dst src : slice) (h : gmap nat (list A)) : gmap nat (list A) :=
  let n := Nat.min (len dst) (len src) in
  match h !! arr dst with
  | Some d => <[arr dst := (take n (view h src) ++ drop n d)%list]> h
  | None => h
  end.

(** [append(s, x)]; [grow c] is the spare capacity the runtime adds when it
    moves a slice of capacity [c]. *)
Definition append (grow : nat -> nat) (s : slice) (x : A) (h : gmap nat (list A))
  : slice * gmap nat (list A) :=
  if Nat.ltb (len s) (cap s) then
    (mkSlice (arr s) (S (len s)) (cap s),
     match h !! arr s with
     | Some a => <[arr s := <[len s := x]> a]> h
     | None => h
     end)
  else
    let l := newAddr h in
    (mkSlice l (S (len s)) (S (len s) + grow (cap s)),
     <[l := (view h s ++ x :: replicate (grow (cap s)) zero)%list]> h).

(** [s[:len(s)-1]] *)
Definition dropLast (s : slice) : Outcome slice :=
  match len s with
  | O => Panic
  | S n => Done (mkSlice (arr s) n (cap s))
  end.
End Slices.

(** A [*drivers.Table]: nil, or the table pointed to (tables are never
    written through these pointers). *)
Abbreviation TablePtr := (option Table).

Record ScopeObj : Type := mkScopeObj {
  o_info : DBInfo;
  o_tables : slice;
  o_aliases : slice;
  o_outputNames : slice
}.

Record Memory : Type := mkMemory {
  scopes : gmap nat ScopeObj;
  tableArrays : gmap nat (list TablePtr);
  aliasArrays : gmap nat (list string);
  outputArrays : gmap nat (list outputColRef)
}.

Definition zeroOutput : outputColRef := mkOutputColRef EmptyString None.

(** The three stacks of the scope at [p], as the program reads them. *)
Definition stacksOf (m : Memory) (p : nat)
  : option (list TablePtr * list string * list outputColRef) :=
  match scopes m !! p with
  | Some o => Some (view (tableArrays m) (o_tables o),
                    view (aliasArrays m) (o_aliases o),
                    view (outputArrays m) (o_outputNames o))
  | None => None
  end.

Section MemoryScope.
Variable grow : nat -> nat.

(** [Scope.clone] *)
Definition mClone (p : nat) (m : Memory) : Outcome (nat * Memory) :=
  do s <- deref (scopes m !! p);
  let '(ts, h1) := make None (len (o_tables s)) (tableArrays m) in
  let '(als, h2) := make EmptyString (len (o_aliases s)) (aliasArrays m) in
  let '(ons, h3) := make zeroOutput (len (o_outputNames s)) (outputArrays m) in
  let h1' := copy ts (o_tables s) h1 in
  let h2' := copy als (o_aliases s) h2 in
  let h3' := copy ons (o_outputNames s) h3 in
  let c := newAddr (scopes m) in
  Done (c, mkMemory (<[c := mkScopeObj (o_info s) ts als ons]> (scopes m)) h1' h2' h3').

Definition mPushPseudoTable (p : nat) (alias : string) (data : Table) (m : Memory)
  : Outcome Memory :=
  do s <- deref (scopes m !! p);
  let '(als, h2) := append EmptyString grow (o_aliases s) alias (aliasArrays m) in
  let '(ts, h1) := append None grow (o_tables s) (Some data) (tableArrays m) in
  Done (mkMemory (<[p := mkScopeObj (o_info s) ts als (o_outputNames s)]> (scopes m))
                 h1 h2 (outputArrays m)).

Definition mPushTable (p : nat) (schema table alias : string) (m : Memory)
  : Outcome (bool * Memory) :=
  do s <- deref (scopes m !! p);
  match lookupTable schema table (Tables (o_info s)) with
  | Some t => do m' <- mPushPseudoTable p alias t m; Done (true, m')
  | None => Done (false, m)
  end.

(** [popTable]: the arguments of [debugf] read the name of the table on top
    and the alias on top, then the two slices are cut. *)
Definition mPopTable (p : nat) (m : Memory) : Outcome Memory :=
  do s <- deref (scopes m !! p);
  do top <- deref (view (tableArrays m) (o_tables s) !! (len (o_tables s) - 1)%nat);
  do _ <- deref top;
  do _ <- deref (view (aliasArrays m) (o_aliases s) !! (len (o_aliases s) - 1)%nat);
  do als <- dropLast (o_aliases s);
  do ts <- dropLast (o_tables s);
  Done (mkMemory (<[p := mkScopeObj (o_info s) ts als (o_outputNames s)]> (scopes m))
                 (tableArrays m) (aliasArrays m) (outputArrays m)).

Definition mPushOutputName (p : nat) (n : string) (c : option Column) (m : Memory)
  : Outcome Memory :=
  do s <- deref (scopes m !! p);
  let '(ons, h3) := append zeroOutput grow (o_outputNames s) (mkOutputColRef n c)
                      (outputArrays m) in
  Done (mkMemory (<[p := mkScopeObj (o_info s) (o_tables s) (o_aliases s) ons]> (scopes m))
                 (tableArrays m) (aliasArrays m) h3).

Definition mPopOutputName (p : nat) (m : Memory) : Outcome Memory :=
  do s <- deref (scopes m !! p);
  do ons <- dropLast (o_outputNames s);
  Done (mkMemory (<[p := mkScopeObj (o_info s) (o_tables s) (o_aliases s) ons]> (scopes m))
                 (tableArrays m) (aliasArrays m) (outputArrays m)).

(** The operations that change a scope. *)
Inductive ScopeOp : Type :=
| OpPushTable (schema table alias : string)
| OpPushPseudoTable (alias : string) (data : Table)
| OpPopTable
| OpPushOutputName (n : string) (c : option Column)
| OpPopOutputName.

Definition runOp (p : nat) (op : ScopeOp) (m : Memory) : Outcome Memory :=
  match op with
  | OpPushTable schema table alias =>
      do r <- mPushTable p schema table alias m; Done (snd r)
  | OpPushPseudoTable alias data => mPushPseudoTable p alias data m
  | OpPopTable => mPopTable p m
  | OpPushOutputName n c => mPushOutputName p n c m
  | OpPopOutputName => mPopOutputName p m
  end.

Fixpoint runOps (p : nat) (ops : list ScopeOp) (m : Memory) : Outcome Memory :=
  match ops with
  | [] => Done m
  | op :: rest => do m' <- runOp p op m; runOps p rest m'
  end.
End MemoryScope.

(** The same operations on the stacks as lists. *)
Definition applyOp (op : ScopeOp) (s : Scope) : Outcome Scope :=
  match op with
  | OpPushTable schema table alias => Done (snd (pushTable schema table alias s))
  | OpPushPseudoTable alias data => Done (pushPseudoTable alias data s)
  | OpPopTable => popTable s
  | OpPushOutputName n c => Done (pushOutputName n c s)
  | OpPopOutputName => popOutputName s
  end.

(** A slice lies within its array, which has the length of its capacity (no
    array at all for a slice of capacity 0). *)
Definition wfSlice {A} (h : gmap nat (list A)) (s : slice) : Prop :=
  (len s <= cap s)%nat /\ length (default [] (h !! arr s)) = cap s.

(** The scope object at [p] holds the scope [s]. *)
Definition holds (m : Memory) (p : nat) (s : Scope) : Prop :=
  exists o,
    scopes m !! p = Some o /\ o_info o = info s /\
    view (tableArrays m) (o_tables o) = List.map Some (tables s) /\
    view (aliasArrays m) (o_aliases o) = aliases s /\
    view (outputArrays m) (o_outputNames o) = outputNames s /\
    wfSlice (tableArrays m) (o_tables o) /\
    wfSlice (aliasArrays m) (o_aliases o) /\
    wfSlice (outputArrays m) (o_outputNames o).

(** A slice points to nothing or into the memory. *)
Definition inMemory {A} (h : gmap nat (list A)) (s : slice) : Prop :=
  arr s = 0%nat \/ arr s ∈ dom h.

Definition scopeInMemory (m : Memory) (o : ScopeObj) : Prop :=
  inMemory (tableArrays m) (o_tables o) /\
  inMemory (aliasArrays m) (o_aliases o) /\
  inMemory (outputArrays m) (o_outputNames o).

(** ** Definitions used to state the properties *)

(** The resolution of a table name as the specification words it: first the
    whole alias stack, and the tables' own names only if no alias matches. *)
Fixpoint specFindByAlias (table : string) (ts : list Table) (als : list string)
  : option Table :=
  match ts, als with
  | t :: ts', a :: als' =>
      if String.eqb a table then Some t else specFindByAlias table ts' als'
  | _, _ => None
  end.

Fixpoint specFindByName (schema table : string) (ts : list Table) : option Table :=
  match ts with
  | [] => None
  | t :: ts' =>
      if (negb (nonEmpty schema) || String.eqb (SchemaName t) schema)
         && String.eqb (Name t) table
      then Some t else specFindByName schema table ts'
  end.

Definition specFindInScope (schema table : string) (ts : list Table) (als : list string)
  : option Table :=
  match specFindByAlias table ts als with
  | Some t => Some t
  | None => specFindByName schema table ts
  end.

(** What one turn of the loop of [findInScope] tests on an entry of the stack. *)
Definition entryMatches (schema table : string) (e : Table * string) : bool :=
  String.eqb (snd e) table
  || ((negb (nonEmpty schema) || String.eqb (SchemaName (fst e)) schema)
      && String.eqb (Name (fst e)) table).

(** The direct-name test alone. *)
Definition nameMatches (schema table : string) (t : Table) : bool :=
  (negb (nonEmpty schema) || String.eqb (SchemaName t) schema)
  && String.eqb (Name t) table.

(** No column of the list has the name. *)
Definition noColumn (column : string) (cs : list Column) : Prop :=
  Forall (fun c => col_Name c <> column) cs.

Definition stackLengths (s : Scope) : nat * nat * nat :=
  (length (tables s), length (aliases s), length (outputNames s)).

Definition isColumnRef (n : Node) : bool :=
  match n with ColumnRef _ _ => true | _ => false end.

(** Two select-list targets that differ at most in a value that is not a
    column reference (and in where it stands in the text). *)
Inductive sameTarget : Node -> Node -> Prop :=
| sameTarget_refl n : sameTarget n n
| sameTarget_opaque nm v v' loc loc' :
    isColumnRef v = false -> isColumnRef v' = false ->
    sameTarget (ResTarget nm v loc) (ResTarget nm v' loc').

(** The name a select-list target is recorded under when its value is not a
    column reference. *)
Definition targetName (n : Node) : string :=
  match n with
  | ResTarget nm _ _ => orEmpty nm
  | _ => EmptyString
  end.

Definition opaqueTarget (n : Node) : Prop :=
  match n with
  | ResTarget _ v _ => isColumnRef v = false
  | _ => False
  end.

(** An argument has the static type string [ty]. *)
Definition hasType (types : TypesMap) (arg : GoNode) (ty : string) : Prop :=
  exists tv, types !! addr (infoOf arg) = Some tv /\ TypeString tv = ty.

(** An argument is an identifier that resolves to the tagged constant [c]. *)
Definition isTaggedConst (consts : list Constant) (arg : GoNode) (c : Constant) : Prop :=
  exists i nm obj, arg = Ident i nm obj /\ matchConstant nm obj consts = Done (Some c).

(** ** The catalog and the statements of the end-to-end scenarios *)

Definition intColumn (n : string) : Column :=
  mkColumn n "int" "integer" "int4" "int4" false true.

Definition textColumn (n : string) : Column :=
  mkColumn n "string" "text" "text" "text" false false.

Definition usersTable : Table :=
  mkTable EmptyString "users" [intColumn "id"; textColumn "name"].

Definition videosTable : Table :=
  mkTable EmptyString "videos" [intColumn "id"; textColumn "video"].

Definition commentsTable : Table :=
  mkTable EmptyString "comments"
    [intColumn "id"; mkColumn "comment" "null.String" "text" "text" "text" true false].

Definition tagVideosTable : Table :=
  mkTable EmptyString "tag_videos" [intColumn "tag_id"; intColumn "video_id"].

Definition scenarioCatalog : DBInfo :=
  mkDBInfo [usersTable; videosTable; commentsTable; tagVideosTable].

Definition scenarioState : State := mkState scenarioCatalog ∅.

Definition testCall (sql : string) (argTypes : list string) : Call :=
  mkCall sql argTypes "pkg" (mkPosition "t.go" 0 0).

Definition plainTable (n : string) (location : Z) : Node :=
  RangeVar (mkRangeVar None (Some n) None location).

(** [select id from users, videos;] as the parser delivers it: one raw
    statement, the target [id] at byte 7, the tables at bytes 15 and 22. *)
Definition ambiguousSQL : string := "select id from users, videos;".

Definition ambiguousTree : list Node :=
  [RawStmt (SelectStmtNode
     (mkSelectStmt None None
        [plainTable "users" 15; plainTable "videos" 22]
        NilNode NilNode
        [ResTarget None (ColumnRef [StringNode "id"] 7) 7]
        [] []))].

(** A parser that knows this one statement. *)
Definition scenarioParse (sql : string) : list Node * option string :=
  if String.eqb sql ambiguousSQL then (ambiguousTree, None)
  else ([], Some "syntax error").

(** A column of driver type [null.Bool] with the import the driver declares
    for it, as in the state of the repository's type tests. *)
Definition flagsTable : Table :=
  mkTable EmptyString "flags"
    [mkColumn "enabled" "null.Bool" "boolean" "bool" "bool" true false].

Definition nullImport : string :=
  String quote ("github.com/volatiletech/null" ++ String quote EmptyString).

Definition importState : State :=
  mkState (mkDBInfo [flagsTable])
          {[ "null.Bool" := mkImportSet [] [nullImport] ]}.

Definition flagsScope : Scope :=
  mkScope (mkDBInfo [flagsTable]) [flagsTable] [EmptyString] [].

(** A traversal hands the scope back as it received it. *)
Definition restores (rec : Recurse) : Prop :=
  forall scope n r, rec scope n = Done r -> snd r = scope.

Definition restoresSelect (rec : RecurseSelect) : Prop :=
  forall scope sel r, rec scope sel = Done r -> snd r = scope.

(** [s] is [s0] with [n] more tables (and aliases) pushed. *)
Inductive pushedOn (s0 : Scope) : Scope -> nat -> Prop :=
| pushedOn_O : pushedOn s0 s0 O
| pushedOn_S s n alias data :
    pushedOn s0 s n -> pushedOn s0 (pushPseudoTable alias data s) (S n).

(** A traversal does not exhaust its budget on trees of size at most [b]. *)
Definition enoughFor (rec : Recurse) (b : nat) : Prop :=
  forall scope n, (nodeSize n <= b)%nat -> rec scope n <> OutOfFuel.

Definition enoughForSelect (rec : RecurseSelect) (b : nat) : Prop :=
  forall scope sel, (selectSize sel <= b)%nat -> rec scope sel <> OutOfFuel.

(** The array at [pa] is as it was in [h0], the slice [cs] does not use it,
    and [pa] is nil or allocated (so that no new array takes its address). *)
Definition apart {A} (h0 h : gmap nat (list A)) (pa : nat) (cs : slice) : Prop :=
  h !! pa = h0 !! pa /\ arr cs <> pa /\ (pa = 0%nat \/ pa ∈ dom h).

(** The memory [m] after work on the clone at [c] of the scope at [p], which
    was the object [o] in the memory [m0]. *)
Definition framed (m0 : Memory) (p c : nat) (o : ScopeObj) (m : Memory) : Prop :=
  c <> p /\ scopes m !! p = Some o /\
  exists oc, scopes m !! c = Some oc /\
    apart (tableArrays m0) (tableArrays m) (arr (o_tables o)) (o_tables oc) /\
    apart (aliasArrays m0) (aliasArrays m) (arr (o_aliases o)) (o_aliases oc) /\
    apart (outputArrays m0) (outputArrays m) (arr (o_outputNames o)) (o_outputNames oc).

(** The number of nodes of a host syntax tree. *)
Fixpoint goSize (n : GoNode) : nat :=
  let sizes := fix sizes (l : list GoNode) : nat :=
    match l with
    | [] => O
    | x :: r => (goSize x + sizes r)%nat
    end in
  match n with
  | Ident _ _ _ => 1%nat
  | SelectorExpr _ x _ => S (goSize x)
  | CallExpr _ fn args => S (goSize fn + sizes args)
  | ExprStmt _ x => S (goSize x)
  | IfStmt _ init rest =>
      S (match init with Some s => goSize s | None => O end + sizes rest)
  | AssignStmt _ lhs rhs => S (sizes lhs + sizes rhs)
  | OtherGoNode _ children => S (sizes children)
  end.

Fixpoint goSizes (l : list GoNode) : nat :=
  match l with
  | [] => O
  | x :: r => (goSize x + goSizes r)%nat
  end.

(** The call expressions of a list of trees. *)
Fixpoint callSitesOf (l : list GoNode) : list (NodeInfo * GoNode * list GoNode) :=
  match l with
  | [] => []
  | x :: r => (callSites x ++ callSitesOf r)%list
  end.

(** [call] is what the tagged-expression descent makes of the whitelisted call
    expression [site]: the SQL text is that of the argument at the SQL
    position, and the argument types are the static types of the arguments
    after that position, in order. *)
Definition taggedCallAt (types : TypesMap) (site : NodeInfo * GoNode * list GoNode)
  (call : Call) : Prop :=
  let '(i, fn, args) := site in
  exists f,
    getSQLFunction fn = Done (Some f) /\ Pos call = npos i /\
    let off := if HasContext f then 1%nat else 0%nat in
    (exists arg, args !! off = Some arg /\ sqlOfArg types arg = Done (inl (SQL call))) /\
    Forall2 (hasType types) (drop (S off) args) (ArgTypes call).

(** [call] is what the constant-driven re-scan makes of the whitelisted call
    expression [site]: the SQL text is the value of the tagged constant at
    index [k], the last argument that is one, and the argument types are those
    of the arguments after it. *)
Definition constCallAt (types : TypesMap) (consts : list Constant)
  (site : NodeInfo * GoNode * list GoNode) (call : Call) : Prop :=
  let '(i, fn, args) := site in
  exists f c k,
    getSQLFunction fn = Done (Some f) /\
    findConstArg consts 0 args None = Done (Some (c, k)) /\
    (exists arg, args !! k = Some arg /\ isTaggedConst consts arg c) /\
    (forall j arg c', (k < j)%nat -> args !! j = Some arg ->
                      ~ isTaggedConst consts arg c') /\
    SQL call = ConstVal c /\ Pos call = npos i /\
    Forall2 (hasType types) (drop (S k) args) (ArgTypes call).

(** The loop of [tagCall] over the arguments of a call that is not
    whitelisted, and the walk over a list of children, as functions of their
    own. *)
Definition firstCallOf (types : TypesMap)
  : list GoNode -> Outcome (option Call * option Warn) :=
  fix firstCall (l : list GoNode) :=
    match l with
    | [] => Done (None, None)
    | fnArg :: rest =>
        do r <- tagCall types fnArg;
        match fst r with
        | Some call => Done (Some call, None)
        | None => firstCall rest
        end
    end.

Definition walkList (types : TypesMap) (consts : list Constant)
  : list GoNode -> list Call * list Warn -> Outcome (list Call * list Warn) :=
  fix walkList (l : list GoNode) (acc : list Call * list Warn) :=
    match l with
    | [] => Done acc
    | x :: r => do a <- walk types consts x acc; walkList r a
    end.

(** A host statement [db.Exec(two, id)], [two] a tagged string constant and
    [id] an [int], with the type information of its expressions. *)
Definition hostPos (line : Z) : Position := mkPosition "main.go" line 1.

Definition twoSpec : NodeInfo := mkNodeInfo 10 (hostPos 15).

Definition twoIdent : GoNode :=
  Ident (mkNodeInfo 21 (hostPos 49)) "two"
        (Some (mkObject Con (DeclValueSpec twoSpec [11%nat]) (hostPos 15))).

Definition idIdent : GoNode :=
  Ident (mkNodeInfo 22 (hostPos 49)) "id" (Some (mkObject Var DeclOther (hostPos 31))).

Definition execCall : GoNode :=
  CallExpr (mkNodeInfo 20 (hostPos 49))
    (SelectorExpr (mkNodeInfo 23 (hostPos 49))
       (Ident (mkNodeInfo 24 (hostPos 49)) "db" None) "Exec")
    [twoIdent; idIdent].

Definition execStmt : GoNode := ExprStmt (mkNodeInfo 25 (hostPos 49)) execCall.

Definition hostTypes : TypesMap :=
  {[ 11%nat := mkTypeAndValue true "untyped string" (Some (StringConst "select * from users;"));
     21%nat := mkTypeAndValue true "string" (Some (StringConst "select * from users;"));
     22%nat := mkTypeAndValue true "int" None ]}.

Definition twoConstant : Constant :=
  mkConstant "two" "select * from users;" 10 (hostPos 15).

(** A second host statement, [db.Exec(two, three, id)]: [three] is another
    tagged string constant, passed here as the first parameter of the
    statement [two]. *)
Definition threeSpec : NodeInfo := mkNodeInfo 12 (hostPos 18).

Definition threeConstant : Constant :=
  mkConstant "three" "select * from videos;" 12 (hostPos 18).

Definition execTwoThreeArgs : list GoNode :=
  [ Ident (mkNodeInfo 31 (hostPos 52)) "two"
          (Some (mkObject Con (DeclValueSpec twoSpec [11%nat]) (hostPos 15)));
    Ident (mkNodeInfo 32 (hostPos 52)) "three"
          (Some (mkObject Con (DeclValueSpec threeSpec [13%nat]) (hostPos 18)));
    Ident (mkNodeInfo 33 (hostPos 52)) "id" (Some (mkObject Var DeclOther (hostPos 31))) ].

Definition execTwoThreeFn : GoNode :=
  SelectorExpr (mkNodeInfo 34 (hostPos 52))
    (Ident (mkNodeInfo 35 (hostPos 52)) "db" None) "Exec".

Definition execTwoThreeStmt : GoNode :=
  ExprStmt (mkNodeInfo 36 (hostPos 52))
    (CallExpr (mkNodeInfo 30 (hostPos 52)) execTwoThreeFn execTwoThreeArgs).

Definition twoThreeTypes : TypesMap :=
  {[ 11%nat := mkTypeAndValue true "untyped string" (Some (StringConst "select * from users;"));
     13%nat := mkTypeAndValue true "untyped string" (Some (StringConst "select * from videos;"));
     31%nat := mkTypeAndValue true "string" (Some (StringConst "select * from users;"));
     32%nat := mkTypeAndValue true "string" (Some (StringConst "select * from videos;"));
     33%nat := mkTypeAndValue true "int" None ]}.

(** [o'] is [o] unless [o] ran out of budget. *)
Definition agrees {A} (o o' : Outcome A) : Prop := o <> OutOfFuel -> o' = o.

Definition agreesOn (rec rec' : Recurse) : Prop :=
  forall scope n, agrees (rec scope n) (rec' scope n).

Definition agreesOnSelect (rec rec' : RecurseSelect) : Prop :=
  forall scope sel, agrees (rec scope sel) (rec' scope sel).

(** ** Statements of the repository's tests *)

Definition qualified (table column : string) (location : Z) : Node :=
  ColumnRef [StringNode table; StringNode column] location.

(** [select users.id from users left join lateral (select videos.id,
    videos.user_id from videos) as v on v.user_id = users.id], checked against a
    catalog that has only [videos(id, user_id)]. *)
Definition lateralCatalog : DBInfo :=
  mkDBInfo [mkTable EmptyString "videos"
              [mkColumn "id" "" "" "" "" false false;
               mkColumn "user_id" "" "" "" "" false false]].

Definition lateralTree : list Node :=
  [RawStmt (SelectStmtNode
     (mkSelectStmt None None
        [JoinExpr
           (plainTable "users" 28)
           (RangeSubselect true
              (SelectStmtNode
                 (mkSelectStmt None None [plainTable "videos" 99] NilNode NilNode
                    [ResTarget None (qualified "videos" "id" 64) 64;
                     ResTarget None (qualified "videos" "user_id" 75) 75]
                    [] []))
              (Some (mkAlias (Some "v"))))
           (A_Expr (qualified "v" "user_id" 123) (qualified "users" "id" 135))]
        NilNode NilNode
        [ResTarget None (qualified "users" "id" 11) 11]
        [] []))].

(** [select "tv"."tag_id", (select count("tag_videos"."video_id") from
    "tag_videos" where "tag_videos"."tag_id" = "tv"."tag_id") from "tag_videos"
    "tv" where "tv"."video_id" = $1] *)
Definition nestedTree : list Node :=
  [RawStmt (SelectStmtNode
     (mkSelectStmt None None
        [RangeVar (mkRangeVar None (Some "tag_videos") (Some (mkAlias (Some "tv"))) 139)]
        (A_Expr (qualified "tv" "video_id" 164) (ParamRef 1 184)) NilNode
        [ResTarget None (qualified "tv" "tag_id" 10) 10;
         ResTarget None
           (SubLink (SelectStmtNode
              (mkSelectStmt None None [plainTable "tag_videos" 84]
                 (A_Expr (qualified "tag_videos" "tag_id" 106) (qualified "tv" "tag_id" 130))
                 NilNode
                 [ResTarget None (FuncCall [qualified "tag_videos" "video_id" 43]) 37]
                 [] []))) 27]
        [] []))].

(** [update users set name = $1] *)
Definition updateTree : list Node :=
  [RawStmt (UpdateStmt (Some (mkRangeVar None (Some "users") None 7))
              [ResTarget (Some "name") (ParamRef 1 24) 17] NilNode)].

(** Statements of the test package of the repository. *)

Definition dbSelector (method : string) (line : Z) : GoNode :=
  SelectorExpr (mkNodeInfo 23 (hostPos line))
    (Ident (mkNodeInfo 24 (hostPos line)) "db" None) method.

(** [err = db.QueryRow(`select * from logs where id = $1;`, id).Scan(&queryRowScan)] *)
Definition queryRowScanStmt : GoNode :=
  AssignStmt (mkNodeInfo 40 (hostPos 77))
    [Ident (mkNodeInfo 41 (hostPos 77)) "err" (Some (mkObject Var DeclOther (hostPos 27)))]
    [CallExpr (mkNodeInfo 42 (hostPos 77))
       (SelectorExpr (mkNodeInfo 43 (hostPos 77))
          (CallExpr (mkNodeInfo 44 (hostPos 77)) (dbSelector "QueryRow" 77)
             [OtherGoNode (mkNodeInfo 31 (hostPos 77)) []; idIdent])
          "Scan")
       [OtherGoNode (mkNodeInfo 45 (hostPos 77)) []]].

(** [db.QueryRowContext(context.Background(), two, id).Scan(&queryRowScan)] *)
Definition queryRowContextStmt : GoNode :=
  ExprStmt (mkNodeInfo 50 (hostPos 84))
    (CallExpr (mkNodeInfo 51 (hostPos 84))
       (SelectorExpr (mkNodeInfo 52 (hostPos 84))
          (CallExpr (mkNodeInfo 53 (hostPos 84)) (dbSelector "QueryRowContext" 84)
             [CallExpr (mkNodeInfo 54 (hostPos 84))
                (SelectorExpr (mkNodeInfo 55 (hostPos 84))
                   (Ident (mkNodeInfo 56 (hostPos 84)) "context" None) "Background")
                [];
              twoIdent; idIdent])
          "Scan")
       [OtherGoNode (mkNodeInfo 57 (hostPos 84)) []]).

(** [if _, err = db.Exec(one, id); err != nil { ... }], [one] a variable. *)
Definition execVarStmt : GoNode :=
  IfStmt (mkNodeInfo 60 (hostPos 43))
    (Some (AssignStmt (mkNodeInfo 61 (hostPos 43))
             [Ident (mkNodeInfo 62 (hostPos 43)) "_" None;
              Ident (mkNodeInfo 63 (hostPos 43)) "err"
                    (Some (mkObject Var DeclOther (hostPos 27)))]
             [CallExpr (mkNodeInfo 64 (hostPos 43)) (dbSelector "Exec" 43)
                [Ident (mkNodeInfo 65 (hostPos 43)) "one"
                       (Some (mkObject Var (DeclValueSpec (mkNodeInfo 9 (hostPos 11)) [8%nat])
                                       (hostPos 11)));
                 idIdent]]))
    [OtherGoNode (mkNodeInfo 66 (hostPos 43)) []].

Definition testTypes : TypesMap :=
  <[ 31%nat := mkTypeAndValue true "untyped string"
                 (Some (StringConst "select * from logs where id = $1;")) ]> hostTypes.

(** ** Tagged declarations ([tagConstants], [tagValueSpecConstants])

    A value spec [a, b = x, y] has its names (identifiers) and its values; of
    a value only the address matters, the key of [TypesInfo.Types]. *)

Record IdentNode : Type := mkIdentNode {
  id_info : NodeInfo;
  id_Name : string;
  id_Obj : option Object
}.

Record ValueSpec : Type := mkValueSpec {
  vs_info : NodeInfo;
  Names : list IdentNode;
  Values : list nat
}.

(** [token.Token], as far as a [GenDecl] has it. *)
Inductive Token : Type := IMPORT | CONST | TYPE | VAR.

Inductive Spec : Type :=
| ValueSpecOf (v : ValueSpec)
| OtherSpec.                        (* [*ast.ImportSpec], [*ast.TypeSpec] *)

Record GenDecl : Type := mkGenDecl {
  gd_info : NodeInfo;
  Tok : Token;
  Specs : list Spec
}.

(** [ObjKind.String] *)
Definition ObjKindString (k : ObjKind) : string :=
  match k with
  | Bad => "bad"
  | Pkg => "package"
  | Con => "const"
  | Typ => "type"
  | Var => "var"
  | Fun => "func"
  | Lbl => "label"
  end.

(** [pkg.TypesInfo.Types[e]]: the zero [TypeAndValue] for a missing key; it
    is no value and has no constant. *)
Definition typeOf (types : TypesMap) (e : nat) : TypeAndValue :=
  default (mkTypeAndValue false EmptyString None) (types !! e).

(** The loop of [tagValueSpecConstants] from the name at index [i] on. *)
Fixpoint valueSpecNames (types : TypesMap) (valSpec : ValueSpec) (i : nat)
  (names : list IdentNode) (consts : list Constant) (warns : list Warn)
  : Outcome (list Constant * list Warn) :=
  match names with
  | [] => Done (consts, warns)
  | nm :: rest =>
      if match id_Obj nm with
         | Some o => negb (String.eqb (ObjKindString (ObjKindOf o)) "const")
         | None => false
         end
      then valueSpecNames types valSpec (S i) rest consts
             (warns ++ [mkWarn "tagged declaration had obj pointer but was not const"
                               (npos (id_info nm))])%list
      else if String.eqb (id_Name nm) "_"
      then valueSpecNames types valSpec (S i) rest consts
             (warns ++ [mkWarn "tagged declaration assigned to blank identifier"
                               (npos (id_info nm))])%list
      else
        do v <- deref (Values valSpec !! i);
        let typeVal := typeOf types v in
        if negb (IsValue typeVal)
        then valueSpecNames types valSpec (S i) rest consts
               (warns ++ [mkWarn "could not determine type for tagged declaration"
                                 (npos (id_info nm))])%list
        else
          do val <- StringVal (Value typeVal);
          valueSpecNames types valSpec (S i) rest
            (consts ++ [mkConstant (id_Name nm) val (addr (vs_info valSpec))
                                   (npos (vs_info valSpec))])%list
            warns
  end.

Definition tagValueSpecConstants (types : TypesMap) (valSpec : ValueSpec)
  : Outcome (list Constant * list Warn) :=
  valueSpecNames types valSpec 0 (Names valSpec) [] [].

(** The loop of [tagConstants] over the specs of the declaration. *)
Fixpoint tagSpecs (types : TypesMap) (specs : list Spec)
  (consts : list Constant) (warns : list Warn) : Outcome (list Constant * list Warn) :=
  match specs with
  | [] => Done (consts, warns)
  | spec :: rest =>
      match spec with
      | ValueSpecOf valSpec =>
          do more <- tagValueSpecConstants types valSpec;
          tagSpecs types rest (consts ++ fst more)%list (warns ++ snd more)%list
      | OtherSpec => Panic
      end
  end.

Definition tagConstants (types : TypesMap) (genDec : GenDecl)
  : Outcome (list Constant * list Warn) :=
  match Tok genDec with
  | CONST => tagSpecs types (Specs genDec) [] []
  | _ => Done ([], [mkWarn "tagged declaration was not a constant"
                           (npos (gd_info genDec))])
  end.

(** ** The comment map ([iterateCommentMap])

    The keys of an [ast.CommentMap]: a declaration statement (with the
    declaration it wraps, when that is a [GenDecl]), a [GenDecl], a value spec,
    or any other node. *)

Inductive MapNode : Type :=
| DeclStmt (i : NodeInfo) (decl : option GenDecl)
| GenDeclNode (g : GenDecl)
| ValueSpecNode (v : ValueSpec)
| PlainNode (n : GoNode).

(** [strings.HasPrefix(c.Text(), "sqlboiler:check")] for one of the comment
    groups of a node; a comment group is given by its text. *)
Definition isTagged (comments : list string) : bool :=
  existsb (String.prefix "sqlboiler:check") comments.

(** One turn of the loop of [iterateCommentMap]. *)
Definition tagEntry (types : TypesMap) (entry : MapNode * list string)
  (acc : list Constant * list Call * list Warn)
  : Outcome (list Constant * list Call * list Warn) :=
  let '(node, comments) := entry in
  let '(consts, calls, warns) := acc in
  if negb (isTagged comments) then Done acc else
  let declared (r : list Constant * list Warn) :=
    ((consts ++ fst r)%list, calls, (warns ++ snd r)%list) in
  let tagged (n : GoNode) :=
    do r <- tagNode types n;
    Done (consts,
          match fst r with Some call => (calls ++ [call])%list | None => calls end,
          (warns ++ snd r)%list) in
  match node with
  | DeclStmt _ (Some genDec) | GenDeclNode genDec =>
      do r <- tagConstants types genDec; Done (declared r)
  | ValueSpecNode valSpec =>
      do r <- tagValueSpecConstants types valSpec; Done (declared r)
  | DeclStmt i None => tagged (OtherGoNode i [])
  | PlainNode n => tagged n
  end.

(** [iterateCommentMap]; the entries of the map come in the order in which
    the [range] over the map delivers them. *)
Fixpoint tagEntries (types : TypesMap) (cm : list (MapNode * list string))
  (acc : list Constant * list Call * list Warn)
  : Outcome (list Constant * list Call * list Warn) :=
  match cm with
  | [] => Done acc
  | entry :: rest => do acc' <- tagEntry types entry acc; tagEntries types rest acc'
  end.

Definition iterateCommentMap (types : TypesMap) (cm : list (MapNode * list string))
  : Outcome (list Constant * list Call * list Warn) :=
  tagEntries types cm ([], [], []).

(** ** The order of the results ([findTaggedCalls])

    The two functions given to [sort.Slice].  Go compares strings byte by
    byte. *)

Definition callsLess (ci cj : Call) : bool :=
  if String.ltb (Package ci) (Package cj) then true
  else if String.ltb (Package cj) (Package ci) then false
  else if String.ltb (Filename (Pos ci)) (Filename (Pos cj)) then true
  else if String.ltb (Filename (Pos cj)) (Filename (Pos ci)) then false
  else if Z.ltb (Line (Pos ci)) (Line (Pos cj)) then true
  else if Z.gtb (Line (Pos ci)) (Line (Pos cj)) then false
  else if Z.ltb (PosColumn (Pos ci)) (PosColumn (Pos cj)) then true
  else if Z.gtb (PosColumn (Pos ci)) (PosColumn (Pos cj)) then false
  else false.

Definition warnsLess (ci cj : Warn) : bool :=
  if String.ltb (Filename (WarnPos ci)) (Filename (WarnPos cj)) then true
  else if String.ltb (Filename (WarnPos cj)) (Filename (WarnPos ci)) then false
  else if Z.ltb (Line (WarnPos ci)) (Line (WarnPos cj)) then true
  else if Z.gtb (Line (WarnPos ci)) (Line (WarnPos cj)) then false
  else if Z.ltb (PosColumn (WarnPos ci)) (PosColumn (WarnPos cj)) then true
  else if Z.gtb (PosColumn (WarnPos ci)) (PosColumn (WarnPos cj)) then false
  else false.

(** The keys the two orders compare. *)
Definition callKey (c : Call) : string * string * Z * Z :=
  (Package c, Filename (Pos c), Line (Pos c), PosColumn (Pos c)).

Definition warnKey (w : Warn) : string * Z * Z :=
  (Filename (WarnPos w), Line (WarnPos w), PosColumn (WarnPos w)).

(** ** The report ([main])

    The last loop of [main] prints, package after package, the calls that
    were checked (when [flagVerbose] is set) and the errors, each under a
    line that names the package.  What it prints is modelled as the list of
    the lines, in order; an error line stands for [fmt.Println(e)].  Of a
    package only [PkgPath] is used; [rel] is [filepath.Rel(flagDir, _)], with
    [None] for its error. *)

Inductive Output : Type :=
| PackageLine (pkgPath : string)                    (* ["# %s\n"] *)
| CheckLine (filename : string) (line column : Z)   (* ["%s:%d:%d check\n"] *)
| ErrorLine (e : GoError).

(** [printPkg()]: the line of the package, unless it was printed. *)
Definition printPkg (pkgPath : string) (printedPackage : bool) : list Output :=
  if printedPackage then [] else [PackageLine pkgPath].

(** The loop over [calls] of the verbose report, for one package:
    [printedPackage] after it, and the lines. *)
Fixpoint printCalls (rel : string -> option string) (pkgPath : string)
  (calls : list Call) (printedPackage : bool) : bool * list Output :=
  match calls with
  | [] => (printedPackage, [])
  | c :: rest =>
      if negb (String.eqb (Package c) pkgPath) then printCalls rel pkgPath rest printedPackage
      else
        let filename := match rel (Filename (Pos c)) with
                        | Some r => ("./" ++ r)%string
                        | None => Filename (Pos c)
                        end in
        let '(pp, out) := printCalls rel pkgPath rest true in
        (pp, (printPkg pkgPath printedPackage
              ++ CheckLine filename (Line (Pos c)) (PosColumn (Pos c)) :: out)%list)
  end.

(** The type switch of the loop over [errs]: whether the error is printed
    for this package. *)
Definition printedFor (pkgPath : string) (e : GoError) : bool :=
  match e with
  | IdentErr _ _ _ _ _ fn => String.eqb (Package fn) pkgPath
  | TypeErr _ _ _ _ _ _ _ _ fn => String.eqb (Package fn) pkgPath
  | _ => true
  end.

(** The loop over [errs], for one package: the slice [printed] and
    [printedPackage] after it, and the lines.  [printed[i]] is read for every
    index of [errs]. *)
Fixpoint printErrs (pkgPath : string) (errs : list GoError) (printed : list bool)
  (printedPackage : bool) : Outcome (list bool * bool * list Output) :=
  match errs with
  | [] => Done (printed, printedPackage, [])
  | e :: errs' =>
      match printed with
      | [] => Panic
      | p :: printed' =>
          if p then
            do r <- printErrs pkgPath errs' printed' printedPackage;
            let '(ps, pp, out) := r in Done (p :: ps, pp, out)
          else if printedFor pkgPath e then
            do r <- printErrs pkgPath errs' printed' true;
            let '(ps, pp, out) := r in
            Done (true :: ps, pp,
                  (printPkg pkgPath printedPackage ++ ErrorLine e :: out)%list)
          else
            do r <- printErrs pkgPath errs' printed' printedPackage;
            let '(ps, pp, out) := r in Done (p :: ps, pp, out)
      end
  end.

(** The loop over the packages. *)
Fixpoint printPackages (verbose : bool) (rel : string -> option string)
  (pkgs : list string) (calls : list Call) (errs : list GoError) (printed : list bool)
  : Outcome (list Output) :=
  match pkgs with
  | [] => Done []
  | pkgPath :: rest =>
      let '(pp, out1) := if verbose then printCalls rel pkgPath calls false
                         else (false, []) in
      do r <- printErrs pkgPath errs printed pp;
      let '(printed', _, out2) := r in
      do out3 <- printPackages verbose rel rest calls errs printed';
      Done (out1 ++ out2 ++ out3)%list
  end.

(** The report, from [printed := make([]bool, len(errs))] on. *)
Definition report (verbose : bool) (rel : string -> option string)
  (pkgs : list string) (calls : list Call) (errs : list GoError)
  : Outcome (list Output) :=
  printPackages verbose rel pkgs calls errs (replicate (length errs) false).

(** ** Further definitions used to state the properties *)

(** The columns of the tables in scope, in the order [get] scans them, and
    how many of them have the name. *)
Definition columnsInScope (ts : list Table) : list Column :=
  List.concat (List.map Columns ts).

Definition occurrences (column : string) (ts : list Table) : nat :=
  length (List.filter (fun c => String.eqb (col_Name c) column) (columnsInScope ts)).

(** The byte [c] occurs in [s]. *)
Definition containsByte (c : ascii) (s : string) : bool :=
  existsb (Ascii.eqb c) (list_ascii_of_string s).

(** A diagnostic of the checker made for the call [fn]: identifier and type
    errors and parse errors carry the call, and an identifier error is of one
    of the two kinds; the error of [fmt.Errorf] carries no call. *)
Definition errorOf (fn : Call) (e : GoError) : Prop :=
  match e with
  | IdentErr k _ _ _ _ f => f = fn /\ (k = Unknown \/ k = Ambiguous)
  | TypeErr _ _ _ _ _ _ _ _ f => f = fn
  | ParseError _ f => f = fn
  | ErrorString _ => True
  end.

(** The errors of a traversal are all made for [fn]. *)
Definition attributes (fn : Call) (rec : Recurse) : Prop :=
  forall scope n r, rec scope n = Done r -> Forall (errorOf fn) (fst r).

Definition attributesSelect (fn : Call) (rec : RecurseSelect) : Prop :=
  forall scope sel r, rec scope sel = Done r -> Forall (errorOf fn) (snd (fst r)).

(** The call a diagnostic carries, if any. *)
Definition callOf (e : GoError) : option Call :=
  match e with
  | IdentErr _ _ _ _ _ f | TypeErr _ _ _ _ _ _ _ _ f | ParseError _ f => Some f
  | ErrorString _ => None
  end.

(** The column list of an [insert] statement, as the parser delivers it: a
    target per column, with the name of the column and no value. *)
Definition insertColumns (cols : list (string * Z)) : list Node :=
  List.map (fun c => ResTarget (Some (fst c)) NilNode (snd c)) cols.

(** The unknown-identifier errors for the names of [cols] that no column of
    [cs] has. *)
Definition missingColumns (fn : Call) (cs : list Column) (cols : list (string * Z))
  : list GoError :=
  flat_map (fun c => match findColumn (fst c) cs with
                     | Some _ => []
                     | None => [IdentErr Unknown EmptyString EmptyString (fst c) (snd c) fn]
                     end) cols.

(** A sequence of scope operations on the stacks as lists. *)
Fixpoint applyOps (ops : list ScopeOp) (s : Scope) : Outcome Scope :=
  match ops with
  | [] => Done s
  | op :: rest => do s' <- applyOp op s; applyOps rest s'
  end.

(** A FROM clause of plain table names, each with its place in the text. *)
Definition plainTables (tabs : list (string * Z)) : list Node :=
  List.map (fun t => plainTable (fst t) (snd t)) tabs.

(** The tables of the catalog the names stand for, and the errors for the
    names that stand for none. *)
Definition knownTables (i : DBInfo) (tabs : list (string * Z)) : list Table :=
  omap (fun t => lookupTable EmptyString (fst t) (Tables i)) tabs.

Definition unknownTables (fn : Call) (i : DBInfo) (tabs : list (string * Z))
  : list GoError :=
  flat_map (fun t => match lookupTable EmptyString (fst t) (Tables i) with
                     | Some _ => []
                     | None => [IdentErr Unknown EmptyString (fst t) EmptyString (snd t) fn]
                     end) tabs.

(** A select list of plain column names, each with its place in the text. *)
Definition selectColumns (cols : list (string * Z)) : list Node :=
  List.map (fun c => ResTarget None (ColumnRef [StringNode (fst c)] (snd c)) (snd c)) cols.

(** The errors for the names of [cols] that are not the name of exactly one
    column of the tables [ts]. *)
Definition unresolvedColumns (fn : Call) (ts : list Table) (cols : list (string * Z))
  : list GoError :=
  flat_map (fun c => if Nat.eqb (occurrences (fst c) ts) 1 then []
                     else [IdentErr Unknown EmptyString EmptyString (fst c) (snd c) fn])
           cols.

(** The SET list of an [update] that assigns parameters, as the parser
    delivers it: a target per assignment, with the name of the column, its
    place, and the parameter as its value. *)
Definition updateTargets (sets : list (string * Z * (Z * Z))) : list Node :=
  List.map (fun a => ResTarget (Some (fst (fst a)))
                               (ParamRef (fst (snd a)) (snd (snd a))) (snd (fst a)))
           sets.

(** A declared name that passes the first two tests of
    [tagValueSpecConstants]: it has no object or the object of a constant,
    and it is not the blank identifier. *)
Definition mayBeConstant (nm : IdentNode) : bool :=
  negb (match id_Obj nm with
        | Some o => negb (String.eqb (ObjKindString (ObjKindOf o)) "const")
        | None => false
        end)
  && negb (String.eqb (id_Name nm) "_").

(** The results of [iterateCommentMap]. *)
Definition Tagged : Type := list Constant * list Call * list Warn.

Definition joinTagged (a b : Tagged) : Tagged :=
  ((fst (fst a) ++ fst (fst b))%list, (snd (fst a) ++ snd (fst b))%list,
   (snd a ++ snd b)%list).

(** Two runs end alike: both panic, or both return, with the same constants,
    calls and warnings up to their order. *)
Definition sameTagged (o o' : Outcome Tagged) : Prop :=
  match o, o' with
  | Done (consts, calls, warns), Done (consts', calls', warns') =>
      Permutation consts consts' /\ Permutation calls calls' /\ Permutation warns warns'
  | Panic, Panic => True
  | _, _ => False
  end.

(** Comparison of pairs, the first components first. *)
Definition lexCompare {A B} (cA : A -> A -> comparison) (cB : B -> B -> comparison)
  (x y : A * B) : comparison :=
  match cA (fst x) (fst y) with
  | Eq => cB (snd x) (snd y)
  | c => c
  end.

Definition compareCallKeys : string * string * Z * Z -> string * string * Z * Z -> comparison :=
  lexCompare (lexCompare (lexCompare String.compare String.compare) Z.compare) Z.compare.

Definition compareWarnKeys : string * Z * Z -> string * Z * Z -> comparison :=
  lexCompare (lexCompare String.compare Z.compare) Z.compare.

(** The declarations of the test package: the tagged [var one], the tagged
    [const two], and a constant block with a name that repeats the value of
    the name before it. *)
Definition oneSpec : ValueSpec :=
  mkValueSpec (mkNodeInfo 40 (hostPos 11))
    [mkIdentNode (mkNodeInfo 41 (hostPos 11)) "one"
       (Some (mkObject Var (DeclValueSpec (mkNodeInfo 40 (hostPos 11)) [42%nat]) (hostPos 11)))]
    [42%nat].

Definition varOneDecl : GenDecl := mkGenDecl (mkNodeInfo 39 (hostPos 11)) VAR [ValueSpecOf oneSpec].

Definition twoValueSpec : ValueSpec :=
  mkValueSpec twoSpec
    [mkIdentNode (mkNodeInfo 12 (hostPos 15)) "two"
       (Some (mkObject Con (DeclValueSpec twoSpec [11%nat]) (hostPos 15)))]
    [11%nat].

Definition constTwoDecl : GenDecl := mkGenDecl (mkNodeInfo 9 (hostPos 15)) CONST [ValueSpecOf twoValueSpec].

Definition repeatedSpec : ValueSpec :=
  mkValueSpec (mkNodeInfo 50 (hostPos 21))
    [mkIdentNode (mkNodeInfo 51 (hostPos 21)) "again" None]
    [].

(** [c] is the constant made of one of [names], the first of which stands at
    index [i] of the value spec: its value is the string value of the
    expression at the index of its name. *)
Definition constantOf (types : TypesMap) (valSpec : ValueSpec) (i : nat)
  (names : list IdentNode) (c : Constant) : Prop :=
  ConstName c <> "_" /\ ValSpec c = addr (vs_info valSpec) /\
  ConstPos c = npos (vs_info valSpec) /\
  exists j nm v,
    names !! j = Some nm /\ id_Name nm = ConstName c /\
    Values valSpec !! (i + j)%nat = Some v /\
    StringVal (Value (typeOf types v)) = Done (ConstVal c).

(** Every name of [names] that may be a constant has an expression at its
    index. *)
Definition valuesPresent (valSpec : ValueSpec) (i : nat) (names : list IdentNode) : Prop :=
  forall j nm, names !! j = Some nm -> mayBeConstant nm = true ->
               is_Some (Values valSpec !! (i + j)%nat).

(** The number of names the specs of a declaration declare. *)
Fixpoint namesOf (specs : list Spec) : nat :=
  match specs with
  | [] => O
  | ValueSpecOf v :: rest => (length (Names v) + namesOf rest)%nat
  | OtherSpec :: rest => namesOf rest
  end.

(** What is needed of a comparison: it turns around with its arguments, it
    says [Eq] of equal things only, and it is transitive. *)
Definition ordersStrictly {A} (cmp : A -> A -> comparison) : Prop :=
  (forall x y, cmp x y = CompOpp (cmp y x)) /\
  (forall x y, cmp x y = Eq -> x = y) /\
  (forall x y z, cmp x y = Lt -> cmp y z = Lt -> cmp x z = Lt).

(** The errors among the lines printed, in order. *)
Fixpoint errorLines (out : list Output) : list GoError :=
  match out with
  | [] => []
  | ErrorLine e :: rest => e :: errorLines rest
  | _ :: rest => errorLines rest
  end.

(** The errors that are not yet printed. *)
Fixpoint pending (errs : list GoError) (printed : list bool) : list GoError :=
  match errs, printed with
  | e :: errs', p :: printed' =>
      if p then pending errs' printed' else e :: pending errs' printed'
  | _, _ => []
  end.

(** The error is printed for one of the packages. *)
Definition printedForAny (pkgs : list string) (e : GoError) : bool :=
  existsb (fun pkgPath => printedFor pkgPath e) pkgs.

(** * Properties *)

(** ** The tests of the repository, on the model *)

(** [TestUnknownIdentifiers/Select/LateralJoin]: the table [users] is unknown,
    and so is [users.id] in the join condition and in the select list; the
    columns of the lateral sub-select, under its alias [v], are known. *)
Example test_lateral_join :
  let fn := testCall "lateral" [] in
  checkCall (mkState lateralCatalog ∅) fn lateralTree
  = Done [IdentErr Unknown "" "users" "" 28 fn;
          IdentErr Unknown "" "users" "id" 135 fn;
          IdentErr Unknown "" "users" "id" 11 fn].
Proof. vm_compute. reflexivity. Qed.

(** [TestBugNestSelect]: no diagnostic. *)
Example test_nested_select :
  checkCall scenarioState (testCall "nested" ["int"]) nestedTree = Done [].
Proof. vm_compute. reflexivity. Qed.

(** [TestUnknownIdentifiers/Update/Normal], with an empty catalog. *)
Example test_update :
  let fn := testCall "update users set name = $1" [] in
  checkCall (mkState (mkDBInfo []) ∅) fn updateTree
  = Done [IdentErr Unknown "" "users" "" 7 fn;
          IdentErr Unknown "" "" "name" 17 fn].
Proof. vm_compute. reflexivity. Qed.

(** [TestFindTaggedCalls], call 4: the tagged statement is an assignment of a
    chained call; the descent reaches [db.QueryRow] through [.Scan]. *)
Example test_query_row_scan :
  tagCall testTypes queryRowScanStmt
  = Done (Some (mkCall "select * from logs where id = $1;" ["int"] "" (hostPos 77)), None).
Proof. vm_compute. reflexivity. Qed.

(** [TestFindTaggedCalls], call 5: an untagged call with a leading context
    that uses the tagged constant [two]. *)
Example test_query_row_context :
  tagCallsByConstant testTypes queryRowContextStmt [twoConstant]
  = Done ([mkCall "select * from users;" ["int"] "" (hostPos 84)], []).
Proof. vm_compute. reflexivity. Qed.

(** [TestFindTaggedCalls], the second warning: the SQL argument is a variable. *)
Example test_exec_variable :
  tagCall testTypes execVarStmt
  = Done (None, Some (mkWarn ("argument " ++ quoted "one"
                                ++ " to sql function is not a constant") (hostPos 43))).
Proof. vm_compute. reflexivity. Qed.

(** ** [Scope.get] *)

Lemma nonEmpty_true (s : string) : s <> EmptyString -> nonEmpty s = true.
Proof. destruct s; [congruence | reflexivity]. Qed.

Lemma nonEmpty_empty : nonEmpty EmptyString = false.
Proof. reflexivity. Qed.

Lemma findInScope_find schema table ts : forall als,
  length ts = length als ->
  findInScope schema table ts als
  = Done (option_map fst (List.find (entryMatches schema table) (combine ts als))).
Proof.
  induction ts as [|t ts IH]; intros [|a als] Hlen; simpl in Hlen; try discriminate.
  - reflexivity.
  - injection Hlen as Hlen. simpl. unfold entryMatches at 1. simpl.
    destruct (String.eqb a table); simpl; [reflexivity|].
    destruct (nonEmpty schema); simpl.
    + destruct (String.eqb (SchemaName t) schema); simpl.
      * destruct (String.eqb (Name t) table); [reflexivity | auto].
      * auto.
    + destruct (String.eqb (Name t) table); [reflexivity | auto].
Qed.

Lemma findColumn_status column cs :
  match findColumn column cs with
  | Some c => col_Name c = column
  | None => noColumn column cs
  end.
Proof.
  induction cs as [|c cs IH]; simpl.
  - constructor.
  - destruct (String.eqb_spec (col_Name c) column) as [E|E]; [exact E|].
    destruct (findColumn column cs); [exact IH | constructor; assumption].
Qed.

(** C4 -- [Scope.get] (and so [Scope.has]) called with a non-empty table name
    answers [scopeRetOk] or [scopeRetUnknown], never [scopeRetAmbiguous]; and
    it does answer whenever the two stacks have the same length. *)
Theorem get_with_table_never_ambiguous (s : Scope) (schema table column : string) :
  table <> EmptyString ->
  (forall c st, get s schema table column = Done (c, st) ->
     (st = scopeRetOk \/ st = scopeRetUnknown) /\ st <> scopeRetAmbiguous) /\
  (forall st, has s schema table column = Done st ->
     (st = scopeRetOk \/ st = scopeRetUnknown) /\ st <> scopeRetAmbiguous) /\
  (length (tables s) = length (aliases s) ->
     exists c st, get s schema table column = Done (c, st)
                  /\ has s schema table column = Done st).
Proof.
  intros Hne. apply nonEmpty_true in Hne.
  assert (Hget : forall c st, get s schema table column = Done (c, st) ->
            (st = scopeRetOk \/ st = scopeRetUnknown) /\ st <> scopeRetAmbiguous).
  { intros c st. unfold get. rewrite Hne.
    destruct (findInScope schema table (tables s) (aliases s)) as [[t|]| |];
      simpl; try discriminate.
    - destruct (findColumn column (Columns t)); intros [= <- <-];
        (split; [auto | discriminate]).
    - intros [= <- <-]. split; [auto | discriminate]. }
  split; [exact Hget|]. split.
  - intros st. unfold has.
    destruct (get s schema table column) as [[c st']| |] eqn:E; simpl; try discriminate.
    intros [= <-]. eapply Hget. reflexivity.
  - intros Hlen. unfold has, get. rewrite Hne.
    rewrite (findInScope_find _ _ _ _ Hlen). simpl.
    destruct (option_map fst _) as [t|]; [destruct (findColumn column (Columns t))|];
      eauto.
Qed.

Lemma get_with_table_never_ambiguous_witness :
  "users" <> EmptyString /\
  exists c st,
    get (mkScope scenarioCatalog [usersTable] [EmptyString] []) "" "users" "id"
    = Done (c, st) /\
    has (mkScope scenarioCatalog [usersTable] [EmptyString] []) "" "users" "id"
    = Done st.
Proof.
  split; [discriminate|].
  apply (get_with_table_never_ambiguous
           (mkScope scenarioCatalog [usersTable] [EmptyString] []) "" "users" "id");
    [discriminate | reflexivity].
Defined.

Lemma find_first_match {A} (f : A -> bool) (pre : list A) (x : A) (post : list A) :
  Forall (fun e => f e = false) pre -> f x = true ->
  List.find f (pre ++ x :: post) = Some x.
Proof.
  induction 1 as [|e pre He _ IH]; intros Hx; simpl.
  - rewrite Hx. reflexivity.
  - rewrite He. auto.
Qed.

Lemma find_no_alias schema table ts : forall als,
  length ts = length als ->
  specFindByAlias table ts als = None ->
  option_map fst (List.find (entryMatches schema table) (combine ts als))
  = specFindByName schema table ts.
Proof.
  induction ts as [|t ts IH]; intros [|a als] Hlen; simpl in Hlen; try discriminate.
  - reflexivity.
  - injection Hlen as Hlen. simpl. unfold entryMatches at 1. simpl.
    destruct (String.eqb a table); [discriminate|]. simpl. intros Hnone.
    destruct ((negb (nonEmpty schema) || String.eqb (SchemaName t) schema)
              && String.eqb (Name t) table); [reflexivity | auto].
Qed.

(** C3, as the specification states it, does not hold -- resolution is not
    "aliases first": with [users] in scope under its own name and, after it,
    [videos] under the alias [users], the name [users] resolves to the table
    [users]. *)
Lemma alias_first_resolution_counterexample :
  ~ (forall (s : Scope) (schema table : string),
       table <> EmptyString ->
       length (tables s) = length (aliases s) ->
       findInScope schema table (tables s) (aliases s)
       = Done (specFindInScope schema table (tables s) (aliases s))).
Proof.
  intros H.
  specialize (H (mkScope scenarioCatalog [usersTable; videosTable]
                         [EmptyString; "users"] []) EmptyString "users").
  simpl in H. vm_compute in H.
  assert (Hne : "users" <> EmptyString) by discriminate.
  specialize (H Hne eq_refl). discriminate H.
Qed.

(** C3, amended -- [Scope.get] with a non-empty table name makes one pass
    over the stack and takes the first entry whose alias is the name or whose
    own name (and schema, when one is given) matches it.  So the direct names
    decide when no alias in the stack matches, and an alias match wins when no
    entry before it matches. *)
Theorem get_resolves_first_matching_entry (s : Scope) (schema table column : string) :
  table <> EmptyString ->
  length (tables s) = length (aliases s) ->
  get s schema table column
  = Done (match List.find (entryMatches schema table) (combine (tables s) (aliases s)) with
          | None => (None, scopeRetUnknown)
          | Some (t, _) =>
              match findColumn column (Columns t) with
              | Some c => (Some c, scopeRetOk)
              | None => (None, scopeRetUnknown)
              end
          end)
  /\ (specFindByAlias table (tables s) (aliases s) = None ->
      findInScope schema table (tables s) (aliases s)
      = Done (specFindByName schema table (tables s)))
  /\ (forall pre t post,
        combine (tables s) (aliases s) = (pre ++ (t, table) :: post)%list ->
        Forall (fun e => entryMatches schema table e = false) pre ->
        findInScope schema table (tables s) (aliases s) = Done (Some t)).
Proof.
  intros Hne Hlen. apply nonEmpty_true in Hne.
  pose proof (findInScope_find schema table _ _ Hlen) as Hfind.
  split; [|split].
  - unfold get. rewrite Hne, Hfind. simpl.
    destruct (List.find _ _) as [[t a]|]; simpl; [|reflexivity].
    destruct (findColumn column (Columns t)); reflexivity.
  - intros Hnone. rewrite Hfind. f_equal. apply find_no_alias; assumption.
  - intros pre t post Hsplit Hpre. rewrite Hfind, Hsplit.
    rewrite find_first_match; [reflexivity | assumption |].
    unfold entryMatches. simpl. rewrite String.eqb_refl. reflexivity.
Qed.

Lemma get_resolves_first_matching_entry_witness :
  let s := mkScope scenarioCatalog [usersTable; videosTable] [EmptyString; "users"] [] in
  "users" <> EmptyString /\
  length (tables s) = length (aliases s) /\
  get s "" "users" "video" = Done (None, scopeRetUnknown).
Proof.
  intros s.
  assert (Hne : "users" <> EmptyString) by discriminate.
  assert (Hlen : length (tables s) = length (aliases s)) by reflexivity.
  split; [exact Hne|]. split; [exact Hlen|].
  exact (proj1 (get_resolves_first_matching_entry s "" "users" "video" Hne Hlen)).
Defined.

Lemma scanColumns_none column cs st :
  noColumn column cs -> scanColumns column cs st = inr st.
Proof.
  induction 1 as [|c cs Hc _ IH]; simpl; [reflexivity|].
  apply String.eqb_neq in Hc. rewrite Hc. exact IH.
Qed.

Lemma scanColumns_one column cpre c cpost st :
  noColumn column cpre -> col_Name c = column -> noColumn column cpost ->
  snd st <> scopeRetOk ->
  scanColumns column (cpre ++ c :: cpost) st = inr (Some c, scopeRetOk).
Proof.
  intros Hpre Hc Hpost Hst. induction Hpre as [|c' cpre Hc' _ IH]; simpl.
  - apply String.eqb_eq in Hc. rewrite Hc.
    apply Z.eqb_neq in Hst. rewrite Hst.
    apply scanColumns_none. assumption.
  - apply String.eqb_neq in Hc'. rewrite Hc'. exact IH.
Qed.

Lemma scanTables_none column ts st :
  Forall (fun t => noColumn column (Columns t)) ts -> scanTables column ts st = inr st.
Proof.
  induction 1 as [|t ts Ht _ IH]; simpl; [reflexivity|].
  rewrite scanColumns_none by assumption. exact IH.
Qed.

Lemma scanTables_one column pre t post cpre c cpost :
  Forall (fun t => noColumn column (Columns t)) pre ->
  Forall (fun t => noColumn column (Columns t)) post ->
  Columns t = (cpre ++ c :: cpost)%list ->
  noColumn column cpre -> col_Name c = column -> noColumn column cpost ->
  scanTables column (pre ++ t :: post) (None, scopeRetUnknown) = inr (Some c, scopeRetOk).
Proof.
  intros Hpre Hpost Hcols Hcpre Hc Hcpost.
  induction Hpre as [|t' pre Ht' _ IH]; simpl.
  - rewrite Hcols, scanColumns_one by (assumption || discriminate).
    apply scanTables_none. assumption.
  - rewrite scanColumns_none by assumption. exact IH.
Qed.

(** C2, as the specification states it, does not hold -- an output name is
    looked up even after a unique table hit, and its binding replaces the
    column found: with [users] in scope and the output name [id] bound to no
    column ([select 1 as id from users order by id]), [get] answers the nil
    column of the output name. *)
Lemma get_unique_hit_counterexample :
  ~ (forall (s : Scope) (column : string) (pre post : list Table) (t : Table) (c : Column),
       tables s = (pre ++ t :: post)%list ->
       findColumn column (Columns t) = Some c ->
       Forall (fun t' => findColumn column (Columns t') = None) (pre ++ post) ->
       get s EmptyString EmptyString column = Done (Some c, scopeRetOk)).
Proof.
  intros H.
  specialize (H (mkScope scenarioCatalog [usersTable] [EmptyString]
                         [mkOutputColRef "id" None])
                "id" [] [] usersTable (intColumn "id") eq_refl eq_refl (List.Forall_nil _)).
  vm_compute in H. discriminate H.
Qed.

(** One table with two columns of the name, as the pseudo-table of
    [(select u.id, v.id from users u, videos v) as x] has them, is ambiguous
    as well: what counts is the columns, not the tables. *)
Example get_duplicate_column_ambiguous :
  get (mkScope scenarioCatalog
         [outputColsToPseudoTable "x"
            [mkOutputColRef "id" (Some (intColumn "id"));
             mkOutputColRef "id" (Some (intColumn "id"))]]
         ["x"] [])
      "" "" "id"
  = Done (None, scopeRetAmbiguous).
Proof. reflexivity. Qed.

(** C2, amended -- [Scope.get] with an empty table name searches every table
    in scope; when exactly one column of those tables has the name, the status
    is [scopeRetOk], and the column returned is that one unless an output name
    equal to the name is in scope: the output names are searched whenever the
    table search was not ambiguous, and the first binding found is returned in
    place of the table's column. *)
Theorem get_without_table_unique_column (s : Scope) (column : string)
  (pre post : list Table) (t : Table) (cpre cpost : list Column) (c : Column) :
  tables s = (pre ++ t :: post)%list ->
  Columns t = (cpre ++ c :: cpost)%list ->
  col_Name c = column ->
  noColumn column cpre -> noColumn column cpost ->
  Forall (fun t' => noColumn column (Columns t')) pre ->
  Forall (fun t' => noColumn column (Columns t')) post ->
  get s EmptyString EmptyString column
  = Done (match findOutputName column (outputNames s) with
          | Some o => (col o, scopeRetOk)
          | None => (Some c, scopeRetOk)
          end).
Proof.
  intros Hts Hcols Hc Hcpre Hcpost Hpre Hpost.
  unfold get. rewrite nonEmpty_empty, Hts.
  rewrite (scanTables_one column pre t post cpre c cpost) by assumption.
  destruct (findOutputName column (outputNames s)); reflexivity.
Qed.

Lemma get_without_table_unique_column_witness :
  let s := mkScope scenarioCatalog [videosTable; usersTable] [EmptyString; EmptyString]
                   [mkOutputColRef "name" None] in
  tables s = ([videosTable] ++ usersTable :: [])%list /\
  Columns usersTable = ([intColumn "id"] ++ textColumn "name" :: [])%list /\
  get s EmptyString EmptyString "name" = Done (None, scopeRetOk).
Proof.
  intros s. split; [reflexivity|]. split; [reflexivity|].
  apply (get_without_table_unique_column s "name" [videosTable] [] usersTable
           [intColumn "id"] [] (textColumn "name")); try reflexivity.
  - repeat constructor. discriminate.
  - constructor.
  - repeat constructor; discriminate.
  - constructor.
Defined.

(** ** The type checker *)

Lemma wrapInt_small (z : Z) : - 2 ^ 63 <= z < 2 ^ 63 -> wrapInt z = z.
Proof. intros H. unfold wrapInt. rewrite Z.mod_small; lia. Qed.

Lemma has_of_get scope schema table column r :
  get scope schema table column = Done r ->
  has scope schema table column = Done (snd r).
Proof. intros H. unfold has. rewrite H. reflexivity. Qed.

Lemma checkCallRecurse_S fuel st fn scope n :
  checkCallRecurse (S fuel) st fn scope n
  = checkCallRecurseBody (checkCallRecurse fuel st fn) (checkSelect fuel st fn)
      st fn scope n.
Proof. reflexivity. Qed.

Lemma checkSelect_S fuel st fn scope sel :
  checkSelect (S fuel) st fn scope sel
  = checkSelectBody (checkCallRecurse fuel st fn) (checkSelect fuel st fn) fuel
      fn scope sel.
Proof. reflexivity. Qed.

(** C6 -- a binary expression that pairs a column reference resolving to a
    column with a parameter [$n], [n - 1 >= |ArgTypes|], gets exactly one
    diagnostic: the type mismatch with call type ["<none>"], the driver and
    database types of the column, and parameter [n]. *)
Theorem typeCheck_parameter_without_argument
  (st : State) (fn : Call) (scope : Scope) (fields : list Node) (cloc n ploc : Z)
  (schema table column : string) (offset : nat) (c : Column) :
  qualifiers fields = Done (schema, table, offset) ->
  fields !! offset = Some (StringNode column) ->
  get scope schema table column = Done (Some c, scopeRetOk) ->
  - 2 ^ 63 <= n < 2 ^ 63 ->
  n - 1 >= Z.of_nat (length (ArgTypes fn)) ->
  let e := TypeErr schema table column "<none>" (col_Type c) (col_DBType c) n ploc fn in
  typeCheck st fn scope (ColumnRef fields cloc) (ParamRef n ploc) = Done (Some e) /\
  typeCheck st fn scope (ParamRef n ploc) (ColumnRef fields cloc) = Done (Some e) /\
  (forall fuel,
     checkCallRecurse (S (S fuel)) st fn scope
       (A_Expr (ColumnRef fields cloc) (ParamRef n ploc)) = Done ([e], scope) /\
     checkCallRecurse (S (S fuel)) st fn scope
       (A_Expr (ParamRef n ploc) (ColumnRef fields cloc)) = Done ([e], scope)).
Proof.
  intros Hq Hfield Hget Hrange Hn e.
  assert (Hk : Z.geb (wrapInt (n - 1)) (Z.of_nat (length (ArgTypes fn))) = true).
  { rewrite wrapInt_small by lia. apply Z.geb_le. lia. }
  assert (H1 : typeCheck st fn scope (ColumnRef fields cloc) (ParamRef n ploc)
               = Done (Some e)).
  { unfold typeCheck. simpl. rewrite Hq. simpl. rewrite Hfield. simpl.
    rewrite Hget. simpl. rewrite Hk. reflexivity. }
  assert (H2 : typeCheck st fn scope (ParamRef n ploc) (ColumnRef fields cloc)
               = Done (Some e)).
  { unfold typeCheck. simpl. rewrite Hq. simpl. rewrite Hfield. simpl.
    rewrite Hget. simpl. rewrite Hk. reflexivity. }
  assert (Hcol : forall fuel,
            checkCallRecurse (S fuel) st fn scope (ColumnRef fields cloc)
            = Done ([], scope)).
  { intros fuel. simpl. rewrite Hq. simpl. rewrite Hfield.
    rewrite (has_of_get _ _ _ _ _ Hget). reflexivity. }
  assert (Hpar : forall fuel,
            checkCallRecurse (S fuel) st fn scope (ParamRef n ploc)
            = Done ([], scope)) by reflexivity.
  split; [exact H1|]. split; [exact H2|]. intros fuel. split.
  - rewrite checkCallRecurse_S. unfold checkCallRecurseBody.
    rewrite Hcol. unfold obind at 1. simpl snd. simpl fst.
    rewrite Hpar. unfold obind at 1. simpl snd. simpl fst.
    rewrite H1. reflexivity.
  - rewrite checkCallRecurse_S. unfold checkCallRecurseBody.
    rewrite Hpar. unfold obind at 1. simpl snd. simpl fst.
    rewrite Hcol. unfold obind at 1. simpl snd. simpl fst.
    rewrite H2. reflexivity.
Qed.

Lemma typeCheck_parameter_without_argument_witness :
  let scope := mkScope scenarioCatalog [usersTable] [EmptyString] [] in
  let fn := testCall "select * from users where id = $2" ["int"] in
  let e := TypeErr "" "" "id" "<none>" "int" "integer" 2 31 fn in
  2 - 1 >= Z.of_nat (length (ArgTypes fn)) /\
  get scope "" "" "id" = Done (Some (intColumn "id"), scopeRetOk) /\
  typeCheck scenarioState fn scope (ColumnRef [StringNode "id"] 26) (ParamRef 2 31)
  = Done (Some e).
Proof.
  intros scope fn e.
  assert (Hn : 2 - 1 >= Z.of_nat (length (ArgTypes fn))) by (simpl; lia).
  assert (Hget : get scope "" "" "id" = Done (Some (intColumn "id"), scopeRetOk))
    by reflexivity.
  split; [exact Hn|]. split; [exact Hget|].
  refine (proj1 (typeCheck_parameter_without_argument scenarioState fn scope
                   [StringNode "id"] 26 2 31 "" "" "id" 0%nat (intColumn "id")
                   eq_refl eq_refl Hget _ Hn)).
  lia.
Defined.

Lemma pathClean_nonempty (p : string) : pathClean p <> EmptyString.
Proof.
  unfold pathClean. destruct p as [|a p]; [discriminate|].
  destruct (Ascii.eqb a slash); [discriminate|].
  destruct (stringsJoin "/" _); discriminate.
Qed.

Lemma pathJoin_nonempty (d t : string) : t <> EmptyString -> pathJoin [d; t] <> EmptyString.
Proof.
  intros Ht. unfold pathJoin. destruct (nonEmpty d).
  - apply pathClean_nonempty.
  - rewrite (nonEmpty_true t Ht). apply pathClean_nonempty.
Qed.

(** The import lookup finds an import exactly when the last element of some
    import path equals the second piece of the split driver type. *)
Lemma lookupImport_second_piece (first second : string) (more : list string)
  (colType : string) (allImps : list string) :
  colType <> EmptyString ->
  exists imp,
    lookupImport (first :: second :: more) colType allImps = Done imp /\
    (imp = EmptyString <->
     Forall (fun i => pathBase (stringsTrim quote i) <> second) allImps).
Proof.
  intros Hty. induction allImps as [|i rest IH]; simpl.
  - exists EmptyString. repeat split; auto.
  - destruct (String.eqb_spec second (pathBase (stringsTrim quote i))) as [E|E]; simpl.
    + eexists. split; [reflexivity|]. split.
      * intros Himp. exfalso. revert Himp. apply pathJoin_nonempty. exact Hty.
      * intros Hall. inversion Hall; subst. congruence.
    + destruct IH as (imp & Himp & Hiff). exists imp.
      split; [exact Himp|]. rewrite Hiff. split.
      * intros Hall. constructor; [congruence | exact Hall].
      * intros Hall. inversion Hall; subst. assumption.
Qed.

(** C7 -- the import lookup where it departs from the specification: for the
    driver type [null.Bool], declared with the import
    [github.com/volatiletech/null], the lookup compares the last element of
    the import path, [null], with the second piece of the split type, [Bool],
    and not with the package [null].  No import is found and the generic error
    is returned, although the call passes a [null.Bool]. *)
Theorem typeCheck_import_lookup_uses_type_name :
  stringsSplit dot "null.Bool" = ["null"; "Bool"] /\
  pathBase (stringsTrim quote nullImport) = "null" /\
  typeCheck importState
    (testCall "select * from flags where enabled = $1" ["null.Bool"]) flagsScope
    (ColumnRef [StringNode "enabled"] 26) (ParamRef 1 36)
  = Done (Some (ErrorString "failed to lookup package for driver type: null.Bool")).
Proof. repeat split; vm_compute; reflexivity. Qed.

(** ** The end-to-end scenario [select id from users, videos;] *)

(** C1 -- the scenario where it departs from the specification: the single
    diagnostic for [select id from users, videos;] is an identifier error for
    column [id] at byte 7, but of kind [Unknown]: [checkSelect] builds it
    without a kind, although [Scope.get] answered [scopeRetAmbiguous]; the
    column-reference case of [checkCallRecurse], in the same scope, reports
    [Ambiguous]. *)
Theorem checkCalls_ambiguous_select :
  let fn := testCall ambiguousSQL [] in
  let scope := mkScope scenarioCatalog [videosTable; usersTable]
                       [EmptyString; EmptyString] [] in
  checkCalls scenarioParse scenarioState [fn]
  = Done [IdentErr Unknown "" "" "id" 7 fn] /\
  Unknown <> Ambiguous /\
  get scope "" "" "id" = Done (None, scopeRetAmbiguous) /\
  checkCallRecurse 1 scenarioState fn scope (ColumnRef [StringNode "id"] 7)
  = Done ([IdentErr Ambiguous "" "" "id" 7 fn], scope).
Proof. repeat split; try discriminate; vm_compute; reflexivity. Qed.

(** ** Scope discipline of the statement handlers *)

Lemma obind_Done {A B} (m : Outcome A) (k : A -> Outcome B) (b : B) :
  obind m k = Done b -> exists a, m = Done a /\ k a = Done b.
Proof. destruct m; simpl; try discriminate. eauto. Qed.

Ltac bind_inv H :=
  let a := fresh "a" in
  let Ha := fresh "Ha" in
  apply obind_Done in H; destruct H as (a & Ha & H).

Lemma scope_eta (s : Scope) :
  mkScope (info s) (tables s) (aliases s) (outputNames s) = s.
Proof. destruct s; reflexivity. Qed.

Lemma popTable_push alias data s : popTable (pushPseudoTable alias data s) = Done s.
Proof.
  unfold popTable, pushPseudoTable. simpl.
  destruct (tables s ++ [data])%list eqn:Et; [destruct (tables s); discriminate|].
  destruct (aliases s ++ [alias])%list eqn:Ea; [destruct (aliases s); discriminate|].
  rewrite <- Et, <- Ea, !removelast_last. f_equal. apply scope_eta.
Qed.

Lemma popOutputName_push n c s : popOutputName (pushOutputName n c s) = Done s.
Proof.
  unfold popOutputName, pushOutputName. simpl.
  destruct (outputNames s ++ [_])%list eqn:Eo; [destruct (outputNames s); discriminate|].
  rewrite <- Eo, removelast_last. f_equal. apply scope_eta.
Qed.

Lemma popTables_pushedOn s0 s n : pushedOn s0 s n -> popTables n s = Done s0.
Proof.
  induction 1 as [|s n alias data _ IH]; simpl; [reflexivity|].
  rewrite popTable_push. simpl. exact IH.
Qed.

Lemma pushOutputNames_snoc refs r s :
  pushOutputNames (refs ++ [r]) s = pushOutputName (name r) (col r) (pushOutputNames refs s).
Proof. unfold pushOutputNames. rewrite fold_left_app. reflexivity. Qed.

Lemma popOutputNames_push refs : forall s,
  popOutputNames (length refs) (pushOutputNames refs s) = Done s.
Proof.
  induction refs as [|r refs IH] using rev_ind; intros s; [reflexivity|].
  rewrite pushOutputNames_snoc, length_app, Nat.add_comm. simpl.
  rewrite popOutputName_push. simpl. apply IH.
Qed.

Lemma pushTable_pushedOn schema table alias s :
  snd (pushTable schema table alias s) = s /\ fst (pushTable schema table alias s) = false
  \/ exists t, pushTable schema table alias s = (true, pushPseudoTable alias t s).
Proof.
  unfold pushTable. destruct (lookupTable schema table (Tables (info s))) as [t|].
  - right. exists t. reflexivity.
  - left. split; reflexivity.
Qed.

Lemma pushRelation_pushedOn fn schema table alias location s0 s errs n s' errs' n' :
  pushRelation fn schema table alias location s errs n = (s', errs', n') ->
  pushedOn s0 s n -> pushedOn s0 s' n'.
Proof.
  unfold pushRelation. intros H Hs.
  destruct (pushTable_pushedOn schema table alias s) as [[E1 E2]|[t E]].
  - destruct (pushTable schema table alias s) as [ok s1]. simpl in *. subst.
    injection H as <- _ <-. exact Hs.
  - rewrite E in H. injection H as <- _ <-. constructor. exact Hs.
Qed.

Lemma descendEach_restores rec items : restores rec ->
  forall errs scope r, descendEach rec items errs scope = Done r -> snd r = scope.
Proof.
  intros Hrec. induction items as [|n items IH]; simpl; intros errs scope r H.
  - injection H as <-. reflexivity.
  - bind_inv H. apply IH in H. rewrite H. eapply Hrec. eassumption.
Qed.

Lemma fromLoop_pushedOn recN recS fn s0 : restores recN ->
  forall k stack scope errs n scope' errs' n',
    fromLoop recN recS fn k stack scope errs n = Done (scope', errs', n') ->
    pushedOn s0 scope n -> pushedOn s0 scope' n'.
Proof.
  intros HrecN. induction k as [|k IH]; intros stack scope errs n scope' errs' n' H Hs.
  - destruct stack; simpl in H; [|discriminate]. injection H as <- _ <-. exact Hs.
  - destruct stack as [|popped stack]; simpl in H.
    { injection H as <- _ <-. exact Hs. }
    destruct popped; try discriminate.
    + (* A_Expr *)
      bind_inv H. apply HrecN in Ha. rewrite Ha in H. eapply IH; eassumption.
    + (* BoolExpr *)
      bind_inv H. apply HrecN in Ha. rewrite Ha in H. eapply IH; eassumption.
    + (* RangeVar *)
      bind_inv H. destruct a as [[s1 e1] n1].
      unfold addTable in Ha. bind_inv Ha. bind_inv Ha. injection Ha as Ha.
      eapply IH; [eassumption|].
      eapply pushRelation_pushedOn; eassumption.
    + (* JoinExpr *)
      eapply IH; eassumption.
    + (* RangeSubselect *)
      destruct SubAlias as [al|]; [|discriminate].
      destruct popped; try discriminate.
      bind_inv H. destruct (fst a) as [subSelMap subSelectErrs].
      bind_inv H. eapply IH; [eassumption|]. constructor. exact Hs.
Qed.

Lemma pushStatementTable_pushedOn fn rel scope s1 errs1 n1 :
  pushStatementTable fn rel scope = Done (s1, errs1, n1) -> pushedOn scope s1 n1.
Proof.
  unfold pushStatementTable. intros H. bind_inv H. bind_inv H. bind_inv H.
  injection H as H. eapply pushRelation_pushedOn; [eassumption | constructor].
Qed.

Lemma checkUpdate_restores recN fn scope rel targets wher r : restores recN ->
  checkUpdate recN fn scope rel targets wher = Done r -> snd r = scope.
Proof.
  intros HrecN H. unfold checkUpdate in H. bind_inv H. destruct a as [[s1 e1] n1].
  apply pushStatementTable_pushedOn in Ha.
  bind_inv H. apply (descendEach_restores _ _ HrecN) in Ha0.
  bind_inv H. apply HrecN in Ha1. bind_inv H. injection H as <-. simpl.
  rewrite Ha1, Ha0 in Ha2. rewrite (popTables_pushedOn _ _ _ Ha) in Ha2.
  congruence.
Qed.

Lemma checkInsert_restores recN fn scope rel cols r : restores recN ->
  checkInsert recN fn scope rel cols = Done r -> snd r = scope.
Proof.
  intros HrecN H. unfold checkInsert in H. bind_inv H. destruct a as [[s1 e1] n1].
  apply pushStatementTable_pushedOn in Ha.
  bind_inv H. apply (descendEach_restores _ _ HrecN) in Ha0.
  bind_inv H. injection H as <-. simpl.
  rewrite Ha0 in Ha1. rewrite (popTables_pushedOn _ _ _ Ha) in Ha1. congruence.
Qed.

Lemma checkDelete_restores recN fn scope rel wher r : restores recN ->
  checkDelete recN fn scope rel wher = Done r -> snd r = scope.
Proof.
  intros HrecN H. unfold checkDelete in H. bind_inv H. destruct a as [[s1 e1] n1].
  apply pushStatementTable_pushedOn in Ha.
  bind_inv H. apply HrecN in Ha0.
  bind_inv H. injection H as <-. simpl.
  rewrite Ha0 in Ha1. rewrite (popTables_pushedOn _ _ _ Ha) in Ha1. congruence.
Qed.

Lemma checkSelectBody_restores recN recS k fn scope sel r :
  restores recN ->
  checkSelectBody recN recS k fn scope sel = Done r -> snd r = scope.
Proof.
  intros HrecN H. destruct sel as [larg rarg from wher having targets group sort].
  unfold checkSelectBody in H.
  assert (Hmain :
    (do st <- fromLoop recN recS fn k (List.rev from) scope [] 0%nat;
     let '(scope1, errs1, nTables) := st in
     do r2 <- recN scope1 wher;
     do r3 <- recN (snd r2) having;
     do tl <- targetLoop fn (snd r3) targets [] ((errs1 ++ fst r2) ++ fst r3)%list;
     let '(addRefs, errs4) := tl in
     let scope4 := pushOutputNames addRefs (snd r3) in
     do r5 <- descendEach recN group errs4 scope4;
     do r6 <- descendEach recN sort (fst r5) (snd r5);
     do scope7 <- popOutputNames (length addRefs) (snd r6);
     do scope8 <- popTables nTables scope7;
     Done ((addRefs, fst r6), scope8)) = Done r -> snd r = scope).
  { clear H. intros H. bind_inv H. destruct a as [[scope1 errs1] nTables].
    apply (fromLoop_pushedOn _ _ _ scope HrecN) in Ha; [|constructor].
    bind_inv H. apply HrecN in Ha0. bind_inv H. apply HrecN in Ha1.
    bind_inv H. destruct a1 as [addRefs errs4].
    bind_inv H. apply (descendEach_restores _ _ HrecN) in Ha3.
    bind_inv H. apply (descendEach_restores _ _ HrecN) in Ha4.
    bind_inv H. bind_inv H. injection H as <-. simpl.
    rewrite Ha4, Ha3, popOutputNames_push in Ha5. injection Ha5 as <-.
    rewrite Ha1, Ha0, (popTables_pushedOn _ _ _ Ha) in Ha6. congruence. }
  destruct larg as [l|]; [destruct rarg as [r'|]|]; auto.
  bind_inv H. bind_inv H. injection H as <-. simpl.
  apply HrecN in Ha, Ha0. congruence.
Qed.

Lemma checkCallRecurseBody_restores recN recS st fn scope n r :
  restores recN -> restoresSelect recS ->
  checkCallRecurseBody recN recS st fn scope n = Done r -> snd r = scope.
Proof.
  intros HrecN HrecS H. destruct n; simpl in H;
    try (injection H as <-; reflexivity); try discriminate.
  - (* ColumnRef *)
    bind_inv H. destruct a as [[schema table] offset].
    destruct (Fields !! offset) as [[]|]; try discriminate.
    + bind_inv H. destruct (negb _); injection H as <-; reflexivity.
    + injection H as <-; reflexivity.
  - (* A_Expr *)
    bind_inv H. bind_inv H. bind_inv H. apply HrecN in Ha, Ha0.
    destruct a1; injection H as <-; simpl; congruence.
  - (* BoolExpr *) eapply descendEach_restores; eassumption.
  - (* FuncCall *) eapply descendEach_restores; eassumption.
  - (* SortBy *) eapply HrecN; eassumption.
  - (* SubLink *) eapply HrecN; eassumption.
  - (* ResTarget *)
    bind_inv H. destruct (isNil n).
    + injection H as <-; reflexivity.
    + bind_inv H. injection H as <-. simpl. eapply HrecN; eassumption.
  - (* SelectStmtNode *)
    bind_inv H. injection H as <-. simpl. eapply HrecS; eassumption.
  - eapply checkUpdate_restores; eassumption.
  - eapply checkInsert_restores; eassumption.
  - eapply checkDelete_restores; eassumption.
Qed.

Lemma checker_restores st fn : forall fuel,
  restores (checkCallRecurse fuel st fn) /\ restoresSelect (checkSelect fuel st fn).
Proof.
  induction fuel as [|fuel [IHn IHs]].
  - split; intros scope n r H; discriminate H.
  - split.
    + intros scope n r H. rewrite checkCallRecurse_S in H.
      eapply checkCallRecurseBody_restores; eassumption.
    + intros scope sel r H. rewrite checkSelect_S in H.
      eapply checkSelectBody_restores; eassumption.
Qed.

(** ** The budget [nodeSize] suffices *)

Lemma obind_fuel {A B} (m : Outcome A) (k : A -> Outcome B) :
  m <> OutOfFuel -> (forall a, m = Done a -> k a <> OutOfFuel) ->
  obind m k <> OutOfFuel.
Proof. destruct m; simpl; auto. Qed.

Lemma nodeSize_ColumnRef fields l : nodeSize (ColumnRef fields l) = S (nodeSizes fields).
Proof. reflexivity. Qed.
Lemma nodeSize_BoolExpr args : nodeSize (BoolExpr args) = S (nodeSizes args).
Proof. reflexivity. Qed.
Lemma nodeSize_FuncCall args : nodeSize (FuncCall args) = S (nodeSizes args).
Proof. reflexivity. Qed.
Lemma nodeSize_UpdateStmt rel targets wher :
  nodeSize (UpdateStmt rel targets wher) = S (nodeSizes targets + nodeSize wher).
Proof. reflexivity. Qed.
Lemma nodeSize_InsertStmt rel cols : nodeSize (InsertStmt rel cols) = S (nodeSizes cols).
Proof. reflexivity. Qed.
Lemma selectSize_eq l r from wher having targets group sort :
  selectSize (mkSelectStmt l r from wher having targets group sort)
  = S (S (match l with Some x => selectSize x | None => O end
          + match r with Some x => selectSize x | None => O end
          + nodeSizes from + nodeSize wher + nodeSize having
          + nodeSizes targets + nodeSizes group + nodeSizes sort)).
Proof. reflexivity. Qed.

Lemma nodeSize_pos n : (1 <= nodeSize n)%nat.
Proof. destruct n; simpl; lia. Qed.

Lemma nodeSizes_app l1 l2 : nodeSizes (l1 ++ l2) = (nodeSizes l1 + nodeSizes l2)%nat.
Proof. induction l1 as [|x l1 IH]; simpl; [reflexivity | rewrite IH; lia]. Qed.

Lemma nodeSizes_rev l : nodeSizes (List.rev l) = nodeSizes l.
Proof.
  induction l as [|x l IH]; simpl; [reflexivity|].
  rewrite nodeSizes_app, IH. simpl. lia.
Qed.

Create HintDb fuel.

Lemma Done_fuel {A} (a : A) : Done a <> OutOfFuel.
Proof. discriminate. Qed.

Lemma Panic_fuel {A} : @Panic A <> OutOfFuel.
Proof. discriminate. Qed.

Lemma deref_fuel {A} (p : option A) : deref p <> OutOfFuel.
Proof. destruct p; discriminate. Qed.

Lemma asString_fuel n : asString n <> OutOfFuel.
Proof. destruct n as [[]|]; discriminate. Qed.

#[local] Hint Resolve Done_fuel Panic_fuel deref_fuel asString_fuel : fuel.

(** Splits a goal [_ <> OutOfFuel] along the binds and the case distinctions
    of the term, and closes the leaves with the lemmas of the database. *)
Ltac fuel_step :=
  match goal with
  | |- obind _ _ <> OutOfFuel => apply obind_fuel; [|intros ? _]
  | |- (if ?b then _ else _) <> OutOfFuel => destruct b
  | |- (let '(_, _) := ?x in _) <> OutOfFuel => destruct x
  | |- match ?x with _ => _ end <> OutOfFuel => destruct x
  end.

Ltac fuel_tac := repeat (first [solve [auto with fuel] | fuel_step]).

Lemma aliasOf_fuel a : aliasOf a <> OutOfFuel.
Proof. unfold aliasOf. fuel_tac. Qed.

Lemma qualifiers_fuel fields : qualifiers fields <> OutOfFuel.
Proof. unfold qualifiers. fuel_tac. Qed.

Lemma findInScope_fuel schema table ts : forall als,
  findInScope schema table ts als <> OutOfFuel.
Proof. induction ts as [|t ts IH]; intros als; simpl; fuel_tac. Qed.

#[local] Hint Resolve aliasOf_fuel qualifiers_fuel findInScope_fuel : fuel.

Lemma get_fuel s schema table column : get s schema table column <> OutOfFuel.
Proof. unfold get. fuel_tac. Qed.

#[local] Hint Resolve get_fuel : fuel.

Lemma has_fuel s schema table column : has s schema table column <> OutOfFuel.
Proof. unfold has. fuel_tac. Qed.

Lemma lookupImport_fuel splits colType allImps :
  lookupImport splits colType allImps <> OutOfFuel.
Proof. induction allImps as [|i rest IH]; simpl; fuel_tac. Qed.

#[local] Hint Resolve has_fuel lookupImport_fuel : fuel.

Lemma typeCheck_fuel st fn scope lhs rhs : typeCheck st fn scope lhs rhs <> OutOfFuel.
Proof. unfold typeCheck. fuel_tac. Qed.

Lemma popTable_fuel s : popTable s <> OutOfFuel.
Proof. unfold popTable. fuel_tac. Qed.

Lemma popOutputName_fuel s : popOutputName s <> OutOfFuel.
Proof. unfold popOutputName. fuel_tac. Qed.

#[local] Hint Resolve typeCheck_fuel popTable_fuel popOutputName_fuel : fuel.

Lemma popTables_fuel n : forall s, popTables n s <> OutOfFuel.
Proof. induction n as [|n IH]; intros s; simpl; fuel_tac. Qed.

Lemma popOutputNames_fuel n : forall s, popOutputNames n s <> OutOfFuel.
Proof. induction n as [|n IH]; intros s; simpl; fuel_tac. Qed.

Lemma addTable_fuel fn r scope errs n : addTable fn r scope errs n <> OutOfFuel.
Proof. unfold addTable. fuel_tac. Qed.

Lemma pushStatementTable_fuel fn rel scope : pushStatementTable fn rel scope <> OutOfFuel.
Proof. unfold pushStatementTable. fuel_tac. Qed.

Lemma targetStep_fuel fn scope item addRefs errs :
  targetStep fn scope item addRefs errs <> OutOfFuel.
Proof.
  unfold targetStep. destruct item; try discriminate. destruct item; fuel_tac.
Qed.

Lemma targetLoop_fuel fn scope items : forall addRefs errs,
  targetLoop fn scope items addRefs errs <> OutOfFuel.
Proof.
  induction items as [|item items IH]; intros addRefs errs; simpl; [fuel_tac|].
  apply obind_fuel; [apply targetStep_fuel|]. intros st _. apply IH.
Qed.

#[local] Hint Resolve popTables_fuel popOutputNames_fuel addTable_fuel
  pushStatementTable_fuel targetLoop_fuel : fuel.

Lemma descendEach_enough rec b items : enoughFor rec b ->
  (nodeSizes items <= b)%nat ->
  forall errs scope, descendEach rec items errs scope <> OutOfFuel.
Proof.
  intros Hrec. induction items as [|n items IH]; simpl; intros Hsize errs scope.
  - discriminate.
  - apply obind_fuel; [apply Hrec; lia|]. intros a _. apply IH. lia.
Qed.

Lemma fromLoop_enough recN recS fn b :
  enoughFor recN b -> enoughForSelect recS b ->
  forall k stack scope errs n,
    (nodeSizes stack <= k)%nat -> (k <= b)%nat ->
    fromLoop recN recS fn k stack scope errs n <> OutOfFuel.
Proof.
  intros HrecN HrecS. induction k as [|k IH]; intros stack scope errs n Hsize Hk.
  - destruct stack as [|popped stack]; simpl; [discriminate|].
    simpl in Hsize. pose proof (nodeSize_pos popped). lia.
  - destruct stack as [|popped stack]; simpl; [discriminate|].
    simpl in Hsize. pose proof (nodeSize_pos popped) as Hpos.
    assert (Hrest : (nodeSizes stack <= k)%nat) by lia.
    assert (Hk' : (k <= b)%nat) by lia.
    destruct popped; try discriminate.
    + apply obind_fuel; [apply HrecN; lia|]. intros a _. apply IH; assumption.
    + apply obind_fuel; [apply HrecN; lia|]. intros a _. apply IH; assumption.
    + apply obind_fuel; [apply addTable_fuel|]. intros [[s1 e1] n1] _.
      apply IH; assumption.
    + apply IH; [|assumption]. simpl in *. lia.
    + destruct SubAlias as [al|]; [|discriminate].
      destruct popped; try discriminate.
      apply obind_fuel; [apply HrecS; simpl in Hsize; lia|]. intros a _.
      destruct (fst a) as [subSelMap subSelectErrs].
      apply obind_fuel; [apply deref_fuel|]. intros aliasname _.
      apply IH; assumption.
Qed.

Lemma checkSelectBody_enough recN recS f fn scope sel :
  enoughFor recN f -> enoughForSelect recS f ->
  (selectSize sel <= S f)%nat ->
  checkSelectBody recN recS f fn scope sel <> OutOfFuel.
Proof.
  intros HrecN HrecS Hsize.
  destruct sel as [larg rarg from wher having targets group sort].
  rewrite selectSize_eq in Hsize. unfold checkSelectBody.
  assert (Hmain :
    (do st <- fromLoop recN recS fn f (List.rev from) scope [] 0%nat;
     let '(scope1, errs1, nTables) := st in
     do r2 <- recN scope1 wher;
     do r3 <- recN (snd r2) having;
     do tl <- targetLoop fn (snd r3) targets [] ((errs1 ++ fst r2) ++ fst r3)%list;
     let '(addRefs, errs4) := tl in
     let scope4 := pushOutputNames addRefs (snd r3) in
     do r5 <- descendEach recN group errs4 scope4;
     do r6 <- descendEach recN sort (fst r5) (snd r5);
     do scope7 <- popOutputNames (length addRefs) (snd r6);
     do scope8 <- popTables nTables scope7;
     Done ((addRefs, fst r6), scope8)) <> OutOfFuel).
  { apply obind_fuel.
    { apply (fromLoop_enough recN recS fn f HrecN HrecS);
        [rewrite nodeSizes_rev; lia | lia]. }
    intros [[scope1 errs1] nTables] _.
    apply obind_fuel; [apply HrecN; lia|]. intros r2 _.
    apply obind_fuel; [apply HrecN; lia|]. intros r3 _.
    apply obind_fuel; [apply targetLoop_fuel|]. intros [addRefs errs4] _.
    apply obind_fuel; [apply (descendEach_enough _ f); [assumption | lia]|].
    intros r5 _.
    apply obind_fuel; [apply (descendEach_enough _ f); [assumption | lia]|].
    intros r6 _. fuel_tac. }
  destruct larg as [l|]; [destruct rarg as [r|]|]; auto.
  apply obind_fuel; [apply HrecN; simpl; lia|]. intros r1 _.
  apply obind_fuel; [apply HrecN; simpl; lia|]. intros r2 _. discriminate.
Qed.

Lemma checkCallRecurseBody_enough recN recS f st fn scope n :
  enoughFor recN f -> enoughForSelect recS f ->
  (nodeSize n <= S f)%nat ->
  checkCallRecurseBody recN recS st fn scope n <> OutOfFuel.
Proof.
  intros HrecN HrecS Hsize.
  destruct n; unfold checkCallRecurseBody; try discriminate.
  - (* ColumnRef *) fuel_tac.
  - (* A_Expr *)
    simpl in Hsize.
    apply obind_fuel; [apply HrecN; lia|]. intros r1 _.
    apply obind_fuel; [apply HrecN; lia|]. intros r2 _. fuel_tac.
  - rewrite nodeSize_BoolExpr in Hsize. apply (descendEach_enough _ f); [assumption|lia].
  - rewrite nodeSize_FuncCall in Hsize. apply (descendEach_enough _ f); [assumption|lia].
  - simpl in Hsize. apply HrecN. lia.
  - simpl in Hsize. apply HrecN. lia.
  - (* ResTarget *)
    simpl in Hsize. apply obind_fuel; [fuel_tac|]. intros errs _.
    destruct (isNil n); [discriminate|].
    apply obind_fuel; [apply HrecN; lia|]. intros r _. discriminate.
  - (* SelectStmtNode *)
    simpl in Hsize. apply obind_fuel; [apply HrecS; lia|]. intros r _. discriminate.
  - (* UpdateStmt *)
    rewrite nodeSize_UpdateStmt in Hsize. unfold checkUpdate.
    apply obind_fuel; [apply pushStatementTable_fuel|]. intros [[s1 e1] n1] _.
    apply obind_fuel; [apply (descendEach_enough _ f); [assumption | lia]|].
    intros r2 _. apply obind_fuel; [apply HrecN; lia|]. intros r3 _. fuel_tac.
  - (* InsertStmt *)
    rewrite nodeSize_InsertStmt in Hsize. unfold checkInsert.
    apply obind_fuel; [apply pushStatementTable_fuel|]. intros [[s1 e1] n1] _.
    apply obind_fuel; [apply (descendEach_enough _ f); [assumption | lia]|].
    intros r2 _. fuel_tac.
  - (* DeleteStmt *)
    simpl in Hsize. unfold checkDelete.
    apply obind_fuel; [apply pushStatementTable_fuel|]. intros [[s1 e1] n1] _.
    apply obind_fuel; [apply HrecN; lia|]. intros r2 _. fuel_tac.
Qed.

Lemma checker_enough st fn : forall fuel,
  enoughFor (checkCallRecurse fuel st fn) fuel
  /\ enoughForSelect (checkSelect fuel st fn) fuel.
Proof.
  induction fuel as [|fuel [IHn IHs]].
  - split.
    + intros scope n Hsize. pose proof (nodeSize_pos n). lia.
    + intros scope [] Hsize. rewrite selectSize_eq in Hsize. lia.
  - assert (Hn : enoughFor (checkCallRecurse fuel st fn) fuel) by exact IHn.
    split.
    + intros scope n Hsize. rewrite checkCallRecurse_S.
      apply (checkCallRecurseBody_enough _ _ fuel); assumption.
    + intros scope sel Hsize. rewrite checkSelect_S.
      apply checkSelectBody_enough; assumption.
Qed.

(** ** A larger budget changes nothing *)

Lemma agrees_refl {A} (o : Outcome A) : agrees o o.
Proof. intros _. reflexivity. Qed.

Lemma agrees_bind {A B} (m m' : Outcome A) (k k' : A -> Outcome B) :
  agrees m m' -> (forall a, agrees (k a) (k' a)) ->
  agrees (obind m k) (obind m' k').
Proof.
  intros Hm Hk H. destruct m as [a| |]; simpl in *.
  - rewrite Hm by discriminate. simpl. apply Hk. exact H.
  - rewrite Hm by discriminate. reflexivity.
  - congruence.
Qed.

Lemma descendEach_agrees rec rec' items : agreesOn rec rec' ->
  forall errs scope,
    agrees (descendEach rec items errs scope) (descendEach rec' items errs scope).
Proof.
  intros Hrec. induction items as [|n items IH]; intros errs scope; simpl.
  - apply agrees_refl.
  - apply agrees_bind; [apply Hrec|]. intros r. apply IH.
Qed.

Lemma fromLoop_agrees recN recN' recS recS' fn :
  agreesOn recN recN' -> agreesOnSelect recS recS' ->
  forall k k' stack scope errs n, (k <= k')%nat ->
    agrees (fromLoop recN recS fn k stack scope errs n)
           (fromLoop recN' recS' fn k' stack scope errs n).
Proof.
  intros HrecN HrecS. induction k as [|k IH]; intros k' stack scope errs n Hk.
  - destruct stack; simpl; [|intros H; congruence].
    destruct k'; apply agrees_refl.
  - destruct k' as [|k']; [lia|]. assert (Hk' : (k <= k')%nat) by lia.
    destruct stack as [|popped stack]; simpl; [apply agrees_refl|].
    destruct popped; try apply agrees_refl.
    + apply agrees_bind; [apply HrecN|]. intros r. apply IH. exact Hk'.
    + apply agrees_bind; [apply HrecN|]. intros r. apply IH. exact Hk'.
    + apply agrees_bind; [apply agrees_refl|]. intros [[s1 e1] n1]. apply IH. exact Hk'.
    + apply IH. exact Hk'.
    + destruct SubAlias as [al|]; [|apply agrees_refl].
      destruct popped; try apply agrees_refl.
      apply agrees_bind; [apply HrecS|]. intros r.
      destruct (fst r) as [subSelMap subSelectErrs].
      apply agrees_bind; [apply agrees_refl|]. intros aliasname. apply IH. exact Hk'.
Qed.

Lemma checkSelectBody_agrees recN recN' recS recS' k k' fn scope sel :
  agreesOn recN recN' -> agreesOnSelect recS recS' -> (k <= k')%nat ->
  agrees (checkSelectBody recN recS k fn scope sel)
         (checkSelectBody recN' recS' k' fn scope sel).
Proof.
  intros HrecN HrecS Hk.
  destruct sel as [larg rarg from wher having targets group sort].
  unfold checkSelectBody.
  assert (Hmain : agrees
    (do st <- fromLoop recN recS fn k (List.rev from) scope [] 0%nat;
     let '(scope1, errs1, nTables) := st in
     do r2 <- recN scope1 wher;
     do r3 <- recN (snd r2) having;
     do tl <- targetLoop fn (snd r3) targets [] ((errs1 ++ fst r2) ++ fst r3)%list;
     let '(addRefs, errs4) := tl in
     let scope4 := pushOutputNames addRefs (snd r3) in
     do r5 <- descendEach recN group errs4 scope4;
     do r6 <- descendEach recN sort (fst r5) (snd r5);
     do scope7 <- popOutputNames (length addRefs) (snd r6);
     do scope8 <- popTables nTables scope7;
     Done ((addRefs, fst r6), scope8))
    (do st <- fromLoop recN' recS' fn k' (List.rev from) scope [] 0%nat;
     let '(scope1, errs1, nTables) := st in
     do r2 <- recN' scope1 wher;
     do r3 <- recN' (snd r2) having;
     do tl <- targetLoop fn (snd r3) targets [] ((errs1 ++ fst r2) ++ fst r3)%list;
     let '(addRefs, errs4) := tl in
     let scope4 := pushOutputNames addRefs (snd r3) in
     do r5 <- descendEach recN' group errs4 scope4;
     do r6 <- descendEach recN' sort (fst r5) (snd r5);
     do scope7 <- popOutputNames (length addRefs) (snd r6);
     do scope8 <- popTables nTables scope7;
     Done ((addRefs, fst r6), scope8))).
  { apply agrees_bind; [apply fromLoop_agrees; assumption|].
    intros [[scope1 errs1] nTables].
    apply agrees_bind; [apply HrecN|]. intros r2.
    apply agrees_bind; [apply HrecN|]. intros r3.
    apply agrees_bind; [apply agrees_refl|]. intros [addRefs errs4].
    apply agrees_bind; [apply descendEach_agrees; assumption|]. intros r5.
    apply agrees_bind; [apply descendEach_agrees; assumption|]. intros r6.
    apply agrees_refl. }
  destruct larg as [l|]; [destruct rarg as [r|]|]; auto.
  apply agrees_bind; [apply HrecN|]. intros r1.
  apply agrees_bind; [apply HrecN|]. intros r2. apply agrees_refl.
Qed.

Lemma checkCallRecurseBody_agrees recN recN' recS recS' st fn scope n :
  agreesOn recN recN' -> agreesOnSelect recS recS' ->
  agrees (checkCallRecurseBody recN recS st fn scope n)
         (checkCallRecurseBody recN' recS' st fn scope n).
Proof.
  intros HrecN HrecS.
  destruct n; unfold checkCallRecurseBody; try apply agrees_refl.
  - apply agrees_bind; [apply HrecN|]. intros r1.
    apply agrees_bind; [apply HrecN|]. intros r2. apply agrees_refl.
  - apply descendEach_agrees. exact HrecN.
  - apply descendEach_agrees. exact HrecN.
  - apply HrecN.
  - apply HrecN.
  - apply agrees_bind; [apply agrees_refl|]. intros errs.
    destruct (isNil n); [apply agrees_refl|].
    apply agrees_bind; [apply HrecN|]. intros r. apply agrees_refl.
  - apply agrees_bind; [apply HrecS|]. intros r. apply agrees_refl.
  - unfold checkUpdate. apply agrees_bind; [apply agrees_refl|]. intros [[s1 e1] n1].
    apply agrees_bind; [apply descendEach_agrees; exact HrecN|]. intros r2.
    apply agrees_bind; [apply HrecN|]. intros r3. apply agrees_refl.
  - unfold checkInsert. apply agrees_bind; [apply agrees_refl|]. intros [[s1 e1] n1].
    apply agrees_bind; [apply descendEach_agrees; exact HrecN|]. intros r2.
    apply agrees_refl.
  - unfold checkDelete. apply agrees_bind; [apply agrees_refl|]. intros [[s1 e1] n1].
    apply agrees_bind; [apply HrecN|]. intros r2. apply agrees_refl.
Qed.

Lemma checker_agrees st fn : forall fuel fuel', (fuel <= fuel')%nat ->
  agreesOn (checkCallRecurse fuel st fn) (checkCallRecurse fuel' st fn)
  /\ agreesOnSelect (checkSelect fuel st fn) (checkSelect fuel' st fn).
Proof.
  induction fuel as [|fuel IH]; intros fuel' Hle.
  - split; intros scope n H; simpl in H; congruence.
  - destruct fuel' as [|fuel']; [lia|].
    destruct (IH fuel') as [IHn IHs]; [lia|]. split.
    + intros scope n. rewrite !checkCallRecurse_S.
      apply checkCallRecurseBody_agrees; assumption.
    + intros scope sel. rewrite !checkSelect_S.
      apply checkSelectBody_agrees; [assumption | assumption | lia].
Qed.

(** With any budget of at least [nodeSize n] the traversal of [n] gives what
    it gives with the budget [nodeSize n], and that is a return or a panic. *)
Lemma checkCallRecurse_budget st fn scope n fuel :
  (nodeSize n <= fuel)%nat ->
  checkCallRecurse fuel st fn scope n = checkCallRecurse (nodeSize n) st fn scope n
  /\ checkCallRecurse fuel st fn scope n <> OutOfFuel.
Proof.
  intros Hle. split.
  - apply (proj1 (checker_agrees st fn (nodeSize n) fuel Hle)).
    apply (proj1 (checker_enough st fn (nodeSize n))). lia.
  - apply (proj1 (checker_enough st fn fuel)). exact Hle.
Qed.

Lemma removelast_length {A} (l : list A) : length (removelast l) = Nat.pred (length l).
Proof.
  rewrite removelast_firstn_len, length_firstn. lia.
Qed.

Lemma popTable_Done s s' :
  popTable s = Done s' ->
  s' = mkScope (info s) (removelast (tables s)) (removelast (aliases s)) (outputNames s).
Proof.
  unfold popTable. destruct s as [i ts als os]. cbn [tables aliases info outputNames].
  destruct ts; [discriminate|]. destruct als; [discriminate|].
  intros [= <-]. reflexivity.
Qed.

(** C5 -- the scope operations keep [|tables| = |aliases|], and every
    statement handler that returns leaves the three stacks at the lengths they
    had on entry, whether its [pushTable] succeeded or not; with the budget
    [nodeSize] a handler does return (with the scope it received) or panic. *)
Theorem scope_stacks_balanced (st : State) (fn : Call) :
  (forall s schema table alias,
     length (tables s) = length (aliases s) ->
     length (tables (snd (pushTable schema table alias s)))
     = length (aliases (snd (pushTable schema table alias s)))) /\
  (forall s alias data,
     length (tables s) = length (aliases s) ->
     length (tables (pushPseudoTable alias data s))
     = length (aliases (pushPseudoTable alias data s))) /\
  (forall s s',
     length (tables s) = length (aliases s) ->
     popTable s = Done s' -> length (tables s') = length (aliases s')) /\
  (forall s,
     length (tables s) = length (aliases s) ->
     length (tables (clone s)) = length (aliases (clone s))) /\
  (forall fuel scope sel r,
     checkSelect fuel st fn scope sel = Done r ->
     stackLengths (snd r) = stackLengths scope) /\
  (forall fuel scope rel targets wher r,
     checkUpdate (checkCallRecurse fuel st fn) fn scope rel targets wher = Done r ->
     stackLengths (snd r) = stackLengths scope) /\
  (forall fuel scope rel cols r,
     checkInsert (checkCallRecurse fuel st fn) fn scope rel cols = Done r ->
     stackLengths (snd r) = stackLengths scope) /\
  (forall fuel scope rel wher r,
     checkDelete (checkCallRecurse fuel st fn) fn scope rel wher = Done r ->
     stackLengths (snd r) = stackLengths scope) /\
  (forall fuel scope n,
     (nodeSize n <= fuel)%nat ->
     checkCallRecurse fuel st fn scope n = Panic \/
     exists errs, checkCallRecurse fuel st fn scope n = Done (errs, scope)).
Proof.
  repeat apply conj.
  - intros s schema table alias Hinv. unfold pushTable.
    destruct (lookupTable schema table (Tables (info s))); simpl; [|exact Hinv].
    rewrite !length_app, Hinv. reflexivity.
  - intros s alias data Hinv. simpl. rewrite !length_app, Hinv. reflexivity.
  - intros s s' Hinv H. apply popTable_Done in H. subst s'. cbn [tables aliases].
    rewrite !removelast_length, Hinv. reflexivity.
  - intros s Hinv. exact Hinv.
  - intros fuel scope sel r H.
    apply (proj2 (checker_restores st fn fuel)) in H. rewrite H. reflexivity.
  - intros fuel scope rel targets wher r H.
    apply checkUpdate_restores in H; [|apply checker_restores].
    rewrite H. reflexivity.
  - intros fuel scope rel cols r H.
    apply checkInsert_restores in H; [|apply checker_restores].
    rewrite H. reflexivity.
  - intros fuel scope rel wher r H.
    apply checkDelete_restores in H; [|apply checker_restores].
    rewrite H. reflexivity.
  - intros fuel scope n Hsize.
    pose proof (proj1 (checker_enough st fn fuel) scope n Hsize) as Hfuel.
    destruct (checkCallRecurse fuel st fn scope n) as [[errs s']| |] eqn:E.
    + right. exists errs. apply (proj1 (checker_restores st fn fuel)) in E.
      simpl in E. rewrite E. reflexivity.
    + left. reflexivity.
    + congruence.
Qed.

Lemma scope_stacks_balanced_witness :
  let fn := testCall ambiguousSQL [] in
  let scope := NewScope scenarioCatalog in
  let stmt := UpdateStmt (Some (mkRangeVar None (Some "nosuch") None 7))
                [ResTarget (Some "name") (ParamRef 1 24) 18] NilNode in
  (nodeSize stmt <= 4)%nat /\
  (checkCallRecurse 4 scenarioState fn scope stmt = Panic \/
   exists errs, checkCallRecurse 4 scenarioState fn scope stmt = Done (errs, scope)).
Proof.
  intros fn scope stmt.
  assert (Hsize : (nodeSize stmt <= 4)%nat) by (vm_compute; lia).
  split; [exact Hsize|].
  apply (scope_stacks_balanced scenarioState fn). exact Hsize.
Defined.

(** ** Select-list targets *)

Lemma targetStep_sameTarget fn scope t t' refs errs :
  sameTarget t t' -> targetStep fn scope t refs errs = targetStep fn scope t' refs errs.
Proof.
  intros [n|nm v v' loc loc' Hv Hv']; [reflexivity|].
  unfold targetStep. destruct v; try discriminate; destruct v'; try discriminate;
    reflexivity.
Qed.

Lemma targetLoop_sameTarget fn scope targets targets' :
  Forall2 sameTarget targets targets' ->
  forall refs errs,
    targetLoop fn scope targets refs errs = targetLoop fn scope targets' refs errs.
Proof.
  induction 1 as [|t t' targets targets' Ht _ IH]; intros refs errs; simpl;
    [reflexivity|].
  rewrite (targetStep_sameTarget fn scope t t' refs errs Ht).
  destruct (targetStep fn scope t' refs errs) as [[refs' errs']| |]; simpl; auto.
Qed.

(** C10 -- a select-list target whose value is not a column reference is
    recorded under its name and never looked into: the turn of the loop for
    it reads neither the value nor the scope and adds no diagnostic, and the
    whole result of [checkSelect] (diagnostics, output columns, scope) is the
    same whatever such values are. *)
Theorem select_targets_not_recursed (st : State) (fn : Call) (scope : Scope) :
  (forall item refs errs,
     opaqueTarget item ->
     targetStep fn scope item refs errs
     = Done ((refs ++ [mkOutputColRef (targetName item) None])%list, errs)) /\
  (forall fuel l r from wher having targets targets' group sort,
     Forall2 sameTarget targets targets' ->
     checkSelect fuel st fn scope (mkSelectStmt l r from wher having targets group sort)
     = checkSelect fuel st fn scope (mkSelectStmt l r from wher having targets' group sort)).
Proof.
  split.
  - intros item refs errs Hop. destruct item; try contradiction.
    simpl in Hop. unfold targetStep, targetName.
    destruct item; try discriminate; reflexivity.
  - intros fuel l r from wher having targets targets' group sort Hsame.
    destruct fuel as [|fuel]; [reflexivity|].
    rewrite !checkSelect_S. unfold checkSelectBody.
    destruct l as [l|]; [destruct r as [r|]|]; try reflexivity;
      (destruct (fromLoop _ _ _ _ _ _ _ _) as [[[scope1 errs1] nTables]| |];
         simpl; try reflexivity;
       destruct (checkCallRecurse fuel st fn scope1 wher) as [r2| |];
         simpl; try reflexivity;
       destruct (checkCallRecurse fuel st fn (snd r2) having) as [r3| |];
         simpl; try reflexivity;
       rewrite (targetLoop_sameTarget fn (snd r3) targets targets' Hsame);
       reflexivity).
Qed.

Lemma select_targets_not_recursed_witness :
  let fn := testCall "select length(nosuch) from users" [] in
  let scope := NewScope scenarioCatalog in
  let sel v := mkSelectStmt None None [plainTable "users" 27] NilNode NilNode
                 [ResTarget None v 7] [] [] in
  Forall2 sameTarget [ResTarget None (FuncCall [ColumnRef [StringNode "nosuch"] 14]) 7]
                     [ResTarget None OtherNode 7] /\
  checkSelect 3 scenarioState fn scope (sel (FuncCall [ColumnRef [StringNode "nosuch"] 14]))
  = checkSelect 3 scenarioState fn scope (sel OtherNode).
Proof.
  intros fn scope sel.
  assert (Hsame : Forall2 sameTarget
            [ResTarget None (FuncCall [ColumnRef [StringNode "nosuch"] 14]) 7]
            [ResTarget None OtherNode 7]).
  { constructor; [|constructor]. apply sameTarget_opaque; reflexivity. }
  split; [exact Hsame|].
  apply (proj2 (select_targets_not_recursed scenarioState fn scope)). exact Hsame.
Defined.

(** ** The clone and its parent in memory *)

Lemma newAddr_fresh {A} (h : gmap nat A) : newAddr h <> 0%nat /\ newAddr h ∉ dom h.
Proof.
  unfold newAddr. pose proof (is_fresh ({[0%nat]} ∪ dom h)) as H.
  split; [intros E; apply H; rewrite E|intros E; apply H]; set_solver.
Qed.

Lemma newAddr_allocated {A} (h : gmap nat A) (pa : nat) :
  pa = 0%nat \/ pa ∈ dom h -> newAddr h <> pa.
Proof.
  intros [->| Hin] E; destruct (newAddr_fresh h) as [H0 Hd]; [auto|].
  apply Hd. rewrite E. exact Hin.
Qed.

Section SliceFacts.
Context {A : Type} (zero : A).
Implicit Types h : gmap nat (list A).

Lemma append_apart grow h0 h pa cs x cs' h' :
  apart h0 h pa cs -> append zero grow cs x h = (cs', h') -> apart h0 h' pa cs'.
Proof.
  intros (Hsame & Hne & Hin). unfold append.
  destruct (Nat.ltb (len cs) (cap cs)).
  - intros [= <- <-]. simpl. destruct (h !! arr cs) as [a|] eqn:Ea.
    + split; [|split]; [rewrite lookup_insert_ne by exact Hne; exact Hsame
                        | exact Hne |].
      destruct Hin as [->|Hin]; [left; reflexivity | right; set_solver].
    + split; [exact Hsame | split; [exact Hne | exact Hin]].
  - intros [= <- <-]. simpl.
    pose proof (newAddr_allocated h pa Hin) as Hfresh.
    split; [|split]; [rewrite lookup_insert_ne by exact Hfresh; exact Hsame
                      | exact Hfresh |].
    destruct Hin as [->|Hin]; [left; reflexivity | right; set_solver].
Qed.

Lemma dropLast_apart h0 h pa cs cs' :
  apart h0 h pa cs -> dropLast cs = Done cs' -> apart h0 h pa cs'.
Proof.
  intros (Hsame & Hne & Hin). unfold dropLast.
  destruct (len cs); [discriminate|]. intros [= <-]. repeat split; assumption.
Qed.

Lemma view_same h0 h s : h !! arr s = h0 !! arr s -> view h s = view h0 s.
Proof. intros H. unfold view. rewrite H. reflexivity. Qed.

(** [make] followed by [copy], as [clone] does it: the new slice shows what
    the source shows, over an array of its own. *)
Lemma make_copy h src :
  arr src = 0%nat \/ arr src ∈ dom h ->
  let '(dst, h1) := make zero (len src) h in
  let h2 := copy dst src h1 in
  view h2 dst = view h src /\ apart h h2 (arr src) dst.
Proof.
  intros Hin. unfold make. simpl.
  pose proof (newAddr_allocated h (arr src) Hin) as Hfresh.
  unfold copy. simpl. rewrite lookup_insert_eq, Nat.min_id.
  assert (Hv : view (<[newAddr h := replicate (len src) zero]> h) src = view h src).
  { apply view_same. apply lookup_insert_ne. exact Hfresh. }
  rewrite Hv. split.
  - unfold view at 1. simpl. rewrite lookup_insert_eq. simpl.
    rewrite drop_ge by (rewrite length_replicate; lia).
    rewrite app_nil_r. unfold view. rewrite take_take, Nat.min_id, take_take, Nat.min_id.
    reflexivity.
  - split; [|split].
    + rewrite !lookup_insert_ne by exact Hfresh. reflexivity.
    + simpl. exact Hfresh.
    + destruct Hin as [->|Hin]; [left; reflexivity | right; set_solver].
Qed.
End SliceFacts.

Section Frame.
Variable grow : nat -> nat.

Lemma mPushPseudoTable_framed m0 p c o m alias data m' :
  framed m0 p c o m -> mPushPseudoTable grow c alias data m = Done m' ->
  framed m0 p c o m'.
Proof.
  intros (Hcp & Hp & oc & Hc & Ht & Ha & Ho). unfold mPushPseudoTable.
  rewrite Hc. simpl.
  destruct (append EmptyString grow (o_aliases oc) alias (aliasArrays m))
    as [als h2] eqn:Eals.
  destruct (append None grow (o_tables oc) (Some data) (tableArrays m))
    as [ts h1] eqn:Ets.
  intros [= <-]. split; [exact Hcp|]. simpl. split.
  - rewrite lookup_insert_ne by exact Hcp. exact Hp.
  - eexists. split; [apply lookup_insert_eq|]. simpl. split; [|split].
    + eapply append_apart; eassumption.
    + eapply append_apart; eassumption.
    + exact Ho.
Qed.

Lemma runOp_framed m0 p c o m op m' :
  framed m0 p c o m -> runOp grow c op m = Done m' -> framed m0 p c o m'.
Proof.
  intros Hfr. destruct op; simpl.
  - (* pushTable *)
    intros H. bind_inv H. injection H as <-. unfold mPushTable in Ha.
    bind_inv Ha. destruct (lookupTable _ _ _).
    + bind_inv Ha. injection Ha as <-. simpl.
      eapply mPushPseudoTable_framed; eassumption.
    + injection Ha as <-. exact Hfr.
  - apply mPushPseudoTable_framed. exact Hfr.
  - (* popTable *)
    destruct Hfr as (Hcp & Hp & oc & Hc & Ht & Ha & Ho). unfold mPopTable.
    rewrite Hc. cbn [deref obind]. intros H.
    bind_inv H. bind_inv H. bind_inv H. bind_inv H. bind_inv H. injection H as <-.
    split; [exact Hcp|]. simpl. split.
    + rewrite lookup_insert_ne by exact Hcp. exact Hp.
    + eexists. split; [apply lookup_insert_eq|]. simpl. split; [|split].
      * eapply dropLast_apart; eassumption.
      * eapply dropLast_apart; eassumption.
      * exact Ho.
  - (* pushOutputName *)
    destruct Hfr as (Hcp & Hp & oc & Hc & Ht & Ha & Ho). unfold mPushOutputName.
    rewrite Hc. simpl.
    destruct (append zeroOutput grow (o_outputNames oc) _ (outputArrays m))
      as [ons h3] eqn:Eons.
    intros [= <-]. split; [exact Hcp|]. simpl. split.
    + rewrite lookup_insert_ne by exact Hcp. exact Hp.
    + eexists. split; [apply lookup_insert_eq|]. simpl. split; [|split].
      * exact Ht.
      * exact Ha.
      * eapply append_apart; eassumption.
  - (* popOutputName *)
    destruct Hfr as (Hcp & Hp & oc & Hc & Ht & Ha & Ho). unfold mPopOutputName.
    rewrite Hc. simpl. intros H. bind_inv H. injection H as <-.
    split; [exact Hcp|]. simpl. split.
    + rewrite lookup_insert_ne by exact Hcp. exact Hp.
    + eexists. split; [apply lookup_insert_eq|]. simpl. split; [|split].
      * exact Ht.
      * exact Ha.
      * eapply dropLast_apart; eassumption.
Qed.

Lemma runOps_framed m0 p c o ops : forall m m',
  framed m0 p c o m -> runOps grow c ops m = Done m' -> framed m0 p c o m'.
Proof.
  induction ops as [|op ops IH]; simpl; intros m m' Hfr H.
  - injection H as <-. exact Hfr.
  - bind_inv H. eapply IH; [|eassumption]. eapply runOp_framed; eassumption.
Qed.

Lemma framed_stacks m0 p c o m :
  scopes m0 !! p = Some o -> framed m0 p c o m -> stacksOf m p = stacksOf m0 p.
Proof.
  intros Hp0 (_ & Hp & oc & _ & (Ht & _) & (Ha & _) & (Ho & _)).
  unfold stacksOf. rewrite Hp, Hp0.
  rewrite (view_same _ _ _ Ht), (view_same _ _ _ Ha), (view_same _ _ _ Ho).
  reflexivity.
Qed.

Lemma mClone_framed m p o :
  scopes m !! p = Some o -> scopeInMemory m o ->
  exists c m1 oc,
    mClone p m = Done (c, m1) /\ framed m p c o m1 /\
    scopes m1 !! c = Some oc /\ o_info oc = o_info o /\
    stacksOf m1 c = stacksOf m p.
Proof.
  intros Hp (Hti & Hai & Hoi). unfold mClone. rewrite Hp. simpl.
  pose proof (make_copy None (tableArrays m) (o_tables o) Hti) as Ht.
  pose proof (make_copy EmptyString (aliasArrays m) (o_aliases o) Hai) as Ha.
  pose proof (make_copy zeroOutput (outputArrays m) (o_outputNames o) Hoi) as Ho.
  unfold make in Ht, Ha, Ho. cbv zeta in Ht, Ha, Ho.
  destruct Ht as [Htv Hta], Ha as [Hav Haa], Ho as [Hov Hoa].
  assert (Hc : newAddr (scopes m) <> p).
  { intros E. destruct (newAddr_fresh (scopes m)) as [_ Hd]. apply Hd.
    rewrite E. apply elem_of_dom. eauto. }
  eexists _, _, _. split; [reflexivity|]. split; [|split; [|split]].
  - split; [exact Hc|]. simpl. split.
    + rewrite lookup_insert_ne by exact Hc. exact Hp.
    + eexists. split; [apply lookup_insert_eq|].
      split; [exact Hta | split; [exact Haa | exact Hoa]].
  - simpl. apply lookup_insert_eq.
  - reflexivity.
  - unfold stacksOf.
    cbn [scopes tableArrays aliasArrays outputArrays].
    rewrite lookup_insert_eq, Hp.
    cbn [o_tables o_aliases o_outputNames].
    f_equal. f_equal; [f_equal|]; [exact Htv | exact Hav | exact Hov].
Qed.
End Frame.

(** ** The call-site resolver *)

Lemma tagCall_CallExpr types i fn args :
  tagCall types (CallExpr i fn args)
  = do f <- getSQLFunction fn;
    match f with
    | None =>
        match fn with
        | SelectorExpr _ (CallExpr _ _ _ as ce) _ => tagCall types ce
        | _ => firstCallOf types args
        end
    | Some f => tagWhitelisted types f i args
    end.
Proof. reflexivity. Qed.

Lemma firstCallOf_cons types fnArg rest :
  firstCallOf types (fnArg :: rest)
  = do r <- tagCall types fnArg;
    match fst r with
    | Some call => Done (Some call, None)
    | None => firstCallOf types rest
    end.
Proof. reflexivity. Qed.

Lemma walkList_cons types consts x r acc :
  walkList types consts (x :: r) acc
  = do a <- walk types consts x acc; walkList types consts r a.
Proof. reflexivity. Qed.

Lemma walk_CallExpr types consts i fn args acc :
  walk types consts (CallExpr i fn args) acc
  = do v <- visitCall types consts i fn args acc;
    if fst v then do a <- walk types consts fn (snd v); walkList types consts args a
    else Done (snd v).
Proof. reflexivity. Qed.

Lemma walk_IfStmt types consts i init rest acc :
  walk types consts (IfStmt i init rest) acc
  = do a <- match init with
            | Some s => walk types consts s acc
            | None => Done acc
            end;
    walkList types consts rest a.
Proof. reflexivity. Qed.

Lemma walk_AssignStmt types consts i lhs rhs acc :
  walk types consts (AssignStmt i lhs rhs) acc
  = do a <- walkList types consts lhs acc; walkList types consts rhs a.
Proof. reflexivity. Qed.

Lemma walk_OtherGoNode types consts i children acc :
  walk types consts (OtherGoNode i children) acc = walkList types consts children acc.
Proof. reflexivity. Qed.

Lemma callSites_CallExpr i fn args :
  callSites (CallExpr i fn args) = (i, fn, args) :: (callSites fn ++ callSitesOf args)%list.
Proof. reflexivity. Qed.

Lemma callSites_IfStmt i init rest :
  callSites (IfStmt i init rest)
  = (match init with Some s => callSites s | None => [] end ++ callSitesOf rest)%list.
Proof. reflexivity. Qed.

Lemma callSites_AssignStmt i lhs rhs :
  callSites (AssignStmt i lhs rhs) = (callSitesOf lhs ++ callSitesOf rhs)%list.
Proof. reflexivity. Qed.

Lemma callSites_OtherGoNode i children :
  callSites (OtherGoNode i children) = callSitesOf children.
Proof. reflexivity. Qed.

Lemma goSize_CallExpr i fn args :
  goSize (CallExpr i fn args) = S (goSize fn + goSizes args).
Proof. reflexivity. Qed.

Lemma goSize_IfStmt i init rest :
  goSize (IfStmt i init rest)
  = S (match init with Some s => goSize s | None => O end + goSizes rest).
Proof. reflexivity. Qed.

Lemma goSize_AssignStmt i lhs rhs :
  goSize (AssignStmt i lhs rhs) = S (goSizes lhs + goSizes rhs).
Proof. reflexivity. Qed.

Lemma goSize_OtherGoNode i children :
  goSize (OtherGoNode i children) = S (goSizes children).
Proof. reflexivity. Qed.

Lemma goSize_pos n : (1 <= goSize n)%nat.
Proof. destruct n; simpl; lia. Qed.

Lemma callSitesOf_In x l site :
  In x l -> In site (callSites x) -> In site (callSitesOf l).
Proof.
  induction l as [|y l IH]; simpl; [tauto|].
  intros [->|Hin] Hs; apply in_or_app; [left | right]; auto.
Qed.

Lemma goSizes_In x l : In x l -> (goSize x <= goSizes l)%nat.
Proof.
  induction l as [|y l IH]; simpl; [tauto|].
  intros [->|Hin]; [lia | specialize (IH Hin); lia].
Qed.

Lemma argTypesFrom_types types shown args : forall i acc tys,
  argTypesFrom types shown i args acc = inl tys ->
  exists new, tys = (acc ++ new)%list /\ Forall2 (hasType types) args new.
Proof.
  induction args as [|arg args IH]; simpl; intros i acc tys H.
  - injection H as <-. exists []. rewrite app_nil_r. split; [reflexivity | constructor].
  - destruct (types !! addr (infoOf arg)) as [tv|] eqn:Etv; [|discriminate].
    apply IH in H. destruct H as (new & -> & Hall).
    exists (TypeString tv :: new). split.
    + rewrite <- app_assoc. reflexivity.
    + constructor; [exists tv; auto | exact Hall].
Qed.

Lemma argTypesFrom_unknown types shown args arg :
  In arg args -> types !! addr (infoOf arg) = None ->
  forall i acc, exists j arg',
    In arg' args /\ types !! addr (infoOf arg') = None /\
    argTypesFrom types shown i args acc
    = inr (mkWarn ("argument " ++ decimal (j + shown) ++ " type unknown")
                  (npos (infoOf arg'))).
Proof.
  induction args as [|a args IH]; simpl; [tauto|].
  intros Hin Hnone i acc.
  destruct (types !! addr (infoOf a)) as [tv|] eqn:Ea.
  - destruct Hin as [->|Hin]; [congruence|].
    destruct (IH Hin Hnone (S i) (acc ++ [TypeString tv])%list)
      as (j & arg' & Hin' & Hnone' & E).
    exists j, arg'. auto.
  - exists i, a. auto.
Qed.

Lemma tagWhitelisted_call types f i fn args call w :
  getSQLFunction fn = Done (Some f) ->
  tagWhitelisted types f i args = Done (Some call, w) ->
  taggedCallAt types (i, fn, args) call.
Proof.
  intros Hf H. unfold tagWhitelisted in H. bind_inv H. bind_inv H.
  destruct a0 as [sql|w']; [|discriminate].
  destruct (argTypesFrom types 1 _ _ []) as [argTypes|w'] eqn:Eargs; [|discriminate].
  injection H as <- <-. apply argTypesFrom_types in Eargs.
  destruct Eargs as (new & -> & Hall).
  exists f. split; [exact Hf|]. split; [reflexivity|]. simpl. split.
  - exists a. split; [|exact Ha0]. destruct (args !! _); [|discriminate].
    injection Ha as ->. reflexivity.
  - exact Hall.
Qed.

Lemma tagCall_sites types : forall n node,
  (goSize node < n)%nat ->
  forall call w, tagCall types node = Done (Some call, w) ->
  exists site, In site (callSites node) /\ taggedCallAt types site call.
Proof.
  induction n as [|n IH]; intros node Hsize call w H; [lia|].
  assert (Hargs : forall args, (goSizes args < n)%nat ->
            firstCallOf types args = Done (Some call, w) ->
            exists site, In site (callSitesOf args) /\ taggedCallAt types site call).
  { clear H. induction args as [|arg args IHargs]; intros Hs H; [discriminate|].
    rewrite firstCallOf_cons in H. bind_inv H. simpl in Hs.
    destruct a as [[call'|] w']; simpl in H.
    - injection H as <- _. apply IH in Ha; [|lia].
      destruct Ha as (site & Hin & Hat). exists site. split; [|exact Hat].
      simpl. apply in_or_app. left. exact Hin.
    - apply IHargs in H; [|lia]. destruct H as (site & Hin & Hat).
      exists site. split; [|exact Hat]. simpl. apply in_or_app. right. exact Hin. }
  destruct node as [i nm obj|i x sel|i fn args|i x|i init rest|i lhs rhs|i children];
    try discriminate.
  - (* CallExpr *)
    rewrite tagCall_CallExpr in H. rewrite goSize_CallExpr in Hsize.
    rewrite callSites_CallExpr. bind_inv H. destruct a as [f|].
    + exists (i, fn, args). split; [left; reflexivity|].
      eapply tagWhitelisted_call; eassumption.
    + assert (Hrest : firstCallOf types args = Done (Some call, w) ->
                exists site, In site ((i, fn, args) :: callSites fn ++ callSitesOf args)
                             /\ taggedCallAt types site call).
      { intros H'. apply Hargs in H'; [|pose proof (goSize_pos fn); lia].
        destruct H' as (site & Hin & Hat).
        exists site. split; [|exact Hat]. right. apply in_or_app. right. exact Hin. }
      destruct fn as [? ? ?|? x ?|? ? ?|? ?|? ? ?|? ? ?|? ?]; auto.
      destruct x as [? ? ?|? ? ?|j fn' args'|? ?|? ? ?|? ? ?|? ?]; auto.
      apply IH in H; [|simpl in Hsize |- *; lia].
      destruct H as (site & Hin & Hat). exists site. split; [|exact Hat].
      right. apply in_or_app. left. exact Hin.
  - (* ExprStmt *)
    simpl in H, Hsize. apply IH in H; [exact H | lia].
  - (* IfStmt *)
    rewrite goSize_IfStmt in Hsize. rewrite callSites_IfStmt.
    simpl in H. destruct init as [s|]; [|discriminate].
    apply IH in H; [|lia]. destruct H as (site & Hin & Hat).
    exists site. split; [|exact Hat]. apply in_or_app. left. exact Hin.
  - (* AssignStmt *)
    rewrite goSize_AssignStmt in Hsize. rewrite callSites_AssignStmt.
    simpl in H. destruct rhs as [|r rhs]; [discriminate|].
    simpl in Hsize. apply IH in H; [|lia]. destruct H as (site & Hin & Hat).
    exists site. split; [|exact Hat]. apply in_or_app. right. simpl.
    apply in_or_app. left. exact Hin.
Qed.

Lemma findConstArg_found consts : forall args i found c k,
  findConstArg consts i args found = Done (Some (c, k)) ->
  found = Some (c, k) \/
  ((i <= k)%nat /\ exists arg, args !! (k - i)%nat = Some arg /\ isTaggedConst consts arg c).
Proof.
  induction args as [|arg args IH]; simpl; intros i found c k H.
  - injection H as ->. left. reflexivity.
  - assert (Hlater : (S i <= k)%nat /\
              (exists arg', args !! (k - S i)%nat = Some arg' /\ isTaggedConst consts arg' c) ->
              (i <= k)%nat /\
              exists arg', (arg :: args) !! (k - i)%nat = Some arg'
                           /\ isTaggedConst consts arg' c).
    { intros [Hle (arg' & Hlook & Htag)]. split; [lia|]. exists arg'.
      split; [|exact Htag]. replace (k - i)%nat with (S (k - S i)) by lia. exact Hlook. }
    destruct arg as [j nm obj|? ? ?|? ? ?|? ?|? ? ?|? ? ?|? ?];
      try (apply IH in H; destruct H as [H|H]; [left; exact H | right; auto]).
    bind_inv H. apply IH in H. destruct H as [H|H]; [|right; auto].
    destruct a as [c'|]; [|left; exact H].
    injection H as -> ->. right. split; [lia|]. exists (Ident j nm obj).
    rewrite Nat.sub_diag. split; [reflexivity|]. exists j, nm, obj. auto.
Qed.

Lemma findConstArg_last consts : forall args i found c k,
  findConstArg consts i args found = Done (Some (c, k)) ->
  forall j arg c',
    (k < j)%nat -> (i <= j)%nat -> args !! (j - i)%nat = Some arg ->
    ~ isTaggedConst consts arg c'.
Proof.
  induction args as [|a args IH]; simpl; intros i found c k H j arg c' Hkj Hij Hlook;
    [discriminate|].
  destruct (decide (j = i)) as [->|Hne].
  - rewrite Nat.sub_diag in Hlook. simpl in Hlook. injection Hlook as ->.
    intros (i0 & nm & obj & -> & Hmatch). rewrite Hmatch in H. simpl in H.
    apply findConstArg_found in H. destruct H as [[= _ ->]|[Hle _]]; lia.
  - assert (Hlook' : args !! (j - S i)%nat = Some arg).
    { replace (j - i)%nat with (S (j - S i)) in Hlook by lia. exact Hlook. }
    destruct a as [i0 nm obj|? ? ?|? ? ?|? ?|? ? ?|? ? ?|? ?];
      try (eapply IH; [exact H | exact Hkj | lia | exact Hlook']).
    bind_inv H. eapply IH; [exact H | exact Hkj | lia | exact Hlook'].
Qed.

Lemma visitCall_result types consts i fn args acc b acc' :
  visitCall types consts i fn args acc = Done (b, acc') ->
  fst acc' = fst acc \/
  (b = false /\ exists call,
     fst acc' = (fst acc ++ [call])%list /\ constCallAt types consts (i, fn, args) call).
Proof.
  unfold visitCall. intros H. bind_inv H. destruct a as [[c k]|].
  - bind_inv H. destruct a as [f|].
    + destruct (argTypesFrom types 0 (S k) (drop (S k) args) []) as [argTypes|w] eqn:Eargs.
      * injection H as <- <-. right. split; [reflexivity|]. eexists. split; [reflexivity|].
        apply argTypesFrom_types in Eargs. destruct Eargs as (new & -> & Hall).
        exists f, c, k. split; [exact Ha0|]. split; [exact Ha|].
        pose proof (findConstArg_last _ _ _ _ _ _ Ha) as Hlast.
        apply findConstArg_found in Ha. destruct Ha as [Ha|[_ Ha]]; [discriminate|].
        rewrite Nat.sub_0_r in Ha. split; [exact Ha|]. split; [|auto].
        intros j arg c' Hkj Hlook. apply (Hlast j arg c' Hkj); [lia|].
        rewrite Nat.sub_0_r. exact Hlook.
      * injection H as <- <-. left. reflexivity.
    + bind_inv H. injection H as <- <-. left. reflexivity.
  - injection H as <- <-. left. reflexivity.
Qed.

Lemma constCalls_weaken types consts (sites sites' : list (NodeInfo * GoNode * list GoNode))
  (new : list Call) :
  (forall site, In site sites -> In site sites') ->
  Forall (fun call => exists site, In site sites /\ constCallAt types consts site call) new ->
  Forall (fun call => exists site, In site sites' /\ constCallAt types consts site call) new.
Proof.
  intros Hsub Hall. eapply List.Forall_impl; [|exact Hall].
  intros call (site & Hin & Hat). exists site. auto.
Qed.

Lemma walk_sites types consts : forall n node,
  (goSize node < n)%nat ->
  forall acc acc', walk types consts node acc = Done acc' ->
  exists new, fst acc' = (fst acc ++ new)%list /\
    Forall (fun call => exists site, In site (callSites node)
                                     /\ constCallAt types consts site call) new.
Proof.
  induction n as [|n IH]; intros node Hsize acc acc' H; [lia|].
  assert (Hlist : forall l, (goSizes l < n)%nat ->
            forall acc acc', walkList types consts l acc = Done acc' ->
            exists new, fst acc' = (fst acc ++ new)%list /\
              Forall (fun call => exists site, In site (callSitesOf l)
                                               /\ constCallAt types consts site call) new).
  { clear H acc acc'. induction l as [|x l IHl]; intros Hs acc acc' H.
    - injection H as <-. exists []. rewrite app_nil_r. split; [reflexivity | constructor].
    - rewrite walkList_cons in H. bind_inv H. simpl in Hs.
      apply IH in Ha; [|lia]. apply IHl in H; [|lia].
      destruct Ha as (new1 & E1 & H1), H as (new2 & E2 & H2).
      exists (new1 ++ new2)%list. split; [rewrite E2, E1, app_assoc; reflexivity|].
      apply Forall_app. split; (eapply constCalls_weaken; [|eassumption]);
        intros site Hin; simpl; apply in_or_app; auto. }
  destruct node as [i nm obj|i x sel|i fn args|i x|i init rest|i lhs rhs|i children].
  - injection H as <-. exists []. rewrite app_nil_r. split; [reflexivity | constructor].
  - simpl in H, Hsize. apply IH in H; [exact H | lia].
  - rewrite walk_CallExpr in H. rewrite goSize_CallExpr in Hsize.
    rewrite callSites_CallExpr. bind_inv H. destruct a as [b acc1].
    pose proof (goSize_pos fn) as Hpos.
    apply visitCall_result in Ha. simpl in H. destruct b.
    + destruct Ha as [E0|[? _]]; [|discriminate].
      bind_inv H. apply IH in Ha; [|lia]. apply Hlist in H; [|lia].
      destruct Ha as (new1 & E1 & H1), H as (new2 & E2 & H2).
      exists (new1 ++ new2)%list.
      split; [rewrite E2, E1, E0, app_assoc; reflexivity|].
      apply Forall_app. split; (eapply constCalls_weaken; [|eassumption]);
        intros site Hin; right; apply in_or_app; auto.
    + injection H as <-. destruct Ha as [E0|[_ (call & E0 & Hat)]].
      * exists []. rewrite app_nil_r. split; [exact E0 | constructor].
      * exists [call]. split; [exact E0|]. constructor; [|constructor].
        exists (i, fn, args). split; [left; reflexivity | exact Hat].
  - simpl in H, Hsize. apply IH in H; [exact H | lia].
  - rewrite walk_IfStmt in H. rewrite goSize_IfStmt in Hsize. rewrite callSites_IfStmt.
    bind_inv H. apply Hlist in H; [|destruct init; lia].
    destruct H as (new2 & E2 & H2). destruct init as [s|].
    + apply IH in Ha; [|lia]. destruct Ha as (new1 & E1 & H1).
      exists (new1 ++ new2)%list. split; [rewrite E2, E1, app_assoc; reflexivity|].
      apply Forall_app. split; (eapply constCalls_weaken; [|eassumption]);
        intros site Hin; apply in_or_app; auto.
    + injection Ha as <-. exists new2. split; [exact E2 | exact H2].
  - rewrite walk_AssignStmt in H. rewrite goSize_AssignStmt in Hsize.
    rewrite callSites_AssignStmt. bind_inv H.
    apply Hlist in Ha; [|lia]. apply Hlist in H; [|lia].
    destruct Ha as (new1 & E1 & H1), H as (new2 & E2 & H2).
    exists (new1 ++ new2)%list. split; [rewrite E2, E1, app_assoc; reflexivity|].
    apply Forall_app. split; (eapply constCalls_weaken; [|eassumption]);
      intros site Hin; apply in_or_app; auto.
  - rewrite walk_OtherGoNode in H. rewrite goSize_OtherGoNode in Hsize.
    rewrite callSites_OtherGoNode. apply Hlist in H; [exact H | lia].
Qed.

Lemma taggedCallAt_length types i fn args call :
  taggedCallAt types (i, fn, args) call ->
  exists f, getSQLFunction fn = Done (Some f) /\
    length (ArgTypes call) = (length args - S (if HasContext f then 1 else 0))%nat.
Proof.
  intros (f & Hf & _ & _ & Hall). exists f. split; [exact Hf|].
  apply Forall2_length in Hall. rewrite <- Hall. apply length_drop.
Qed.

Lemma constCallAt_length types consts i fn args call :
  constCallAt types consts (i, fn, args) call ->
  exists c k, findConstArg consts 0 args None = Done (Some (c, k)) /\
    SQL call = ConstVal c /\
    length (ArgTypes call) = (length args - S k)%nat.
Proof.
  intros (f & c & k & _ & Hfind & _ & _ & Hsql & _ & Hall). exists c, k.
  split; [exact Hfind|]. split; [exact Hsql|].
  apply Forall2_length in Hall. rewrite <- Hall. apply length_drop.
Qed.

Lemma StringVal_fuel v : StringVal v <> OutOfFuel.
Proof. unfold StringVal. fuel_tac. Qed.

#[local] Hint Resolve StringVal_fuel : fuel.

Lemma sqlOfArg_fuel types arg : sqlOfArg types arg <> OutOfFuel.
Proof. unfold sqlOfArg. destruct arg; fuel_tac. Qed.

Lemma In_drop {A} (x : A) (n : nat) : forall l : list A, In x (drop n l) -> In x l.
Proof.
  induction n as [|n IH]; intros l Hin; [exact Hin|].
  destruct l as [|y l]; [exact Hin|]. right. apply IH. exact Hin.
Qed.

Lemma In_drop_lookup {A} (x : A) (n : nat) (l : list A) :
  In x (drop (S n) l) -> exists y, l !! n = Some y.
Proof.
  intros Hin. destruct (l !! n) as [y|] eqn:E; [eauto|].
  apply lookup_ge_None in E. rewrite drop_ge in Hin by lia. destruct Hin.
Qed.

(** What each path takes the argument types from.  The tagged-expression
    descent lists the static types of the arguments after the SQL position of
    the whitelist, index 0 or 1 (a leading context).  The constant-driven
    re-scan lists those of the arguments after index [k], the last argument
    that is a tagged constant, wherever the whitelist puts the SQL text.  In
    both, an argument of unknown type after that index gives a warning and no
    call record. *)
Theorem arg_types_follow_chosen_argument (types : TypesMap) :
  (forall node call w,
     tagCall types node = Done (Some call, w) ->
     exists i fn args f,
       In (i, fn, args) (callSites node) /\
       taggedCallAt types (i, fn, args) call /\
       getSQLFunction fn = Done (Some f) /\
       length (ArgTypes call) = (length args - S (if HasContext f then 1 else 0))%nat) /\
  (forall consts file calls warns,
     tagCallsByConstant types file consts = Done (calls, warns) ->
     Forall (fun call =>
               exists i fn args c k,
                 In (i, fn, args) (callSites file) /\
                 constCallAt types consts (i, fn, args) call /\
                 findConstArg consts 0 args None = Done (Some (c, k)) /\
                 SQL call = ConstVal c /\
                 length (ArgTypes call) = (length args - S k)%nat) calls) /\
  (forall i fn args f arg,
     getSQLFunction fn = Done (Some f) ->
     In arg (drop (S (if HasContext f then 1 else 0)) args) ->
     types !! addr (infoOf arg) = None ->
     tagCall types (CallExpr i fn args) = Panic \/
     exists w,
       tagCall types (CallExpr i fn args) = Done (None, Some w) /\
       tagNode types (CallExpr i fn args)
       = Done (None, [mkWarn (WarnError w) (npos i);
                      mkWarn "failed to find either function or constant after sqlboiler:check tag"
                             (npos i)]) /\
       forall sqlArg sql,
         args !! (if HasContext f then 1 else 0)%nat = Some sqlArg ->
         sqlOfArg types sqlArg = Done (inl sql) ->
         exists j arg', In arg' args /\ types !! addr (infoOf arg') = None /\
           w = mkWarn ("argument " ++ decimal (j + 1) ++ " type unknown")
                      (npos (infoOf arg'))) /\
  (forall consts i fn args acc f c k arg,
     findConstArg consts 0 args None = Done (Some (c, k)) ->
     getSQLFunction fn = Done (Some f) ->
     In arg (drop (S k) args) ->
     types !! addr (infoOf arg) = None ->
     exists j arg', In arg' args /\ types !! addr (infoOf arg') = None /\
       visitCall types consts i fn args acc
       = Done (true, (fst acc,
                      (snd acc ++ [mkWarn ("argument " ++ decimal (j + 0) ++ " type unknown")
                                          (npos (infoOf arg'))])%list))).
Proof.
  repeat apply conj.
  - intros node call w H.
    apply (tagCall_sites types (S (goSize node))) in H; [|lia].
    destruct H as ([[i fn] args] & Hin & Hat).
    destruct (taggedCallAt_length _ _ _ _ _ Hat) as (f & Hf & Hlen).
    exists i, fn, args, f. auto.
  - intros consts file calls warns H. unfold tagCallsByConstant in H.
    apply (walk_sites types consts (S (goSize file))) in H; [|lia].
    destruct H as (new & E & Hall). simpl in E. subst new.
    eapply List.Forall_impl; [|exact Hall].
    intros call ([[i fn] args] & Hin & Hat).
    destruct (constCallAt_length _ _ _ _ _ _ Hat) as (c & k & Hfind & Hsql & Hlen).
    exists i, fn, args, c, k. auto.
  - intros i fn args f arg Hf Hin Hnone.
    destruct (In_drop_lookup _ _ _ Hin) as (sqlArg & Hsql).
    destruct (argTypesFrom_unknown types 1 _ arg Hin Hnone
                (S (if HasContext f then 1 else 0))%nat [])
      as (j & arg' & Hin' & Hnone' & Eargs).
    assert (Ht : tagCall types (CallExpr i fn args)
                 = do sql <- sqlOfArg types sqlArg;
                   match sql with
                   | inr w => Done (None, Some w)
                   | inl _ => Done (None, Some (mkWarn
                        ("argument " ++ decimal (j + 1) ++ " type unknown")
                        (npos (infoOf arg'))))
                   end).
    { rewrite tagCall_CallExpr, Hf. simpl obind at 1. unfold tagWhitelisted.
      rewrite Hsql. simpl obind at 1.
      destruct (sqlOfArg types sqlArg) as [[sql|w]| |]; simpl; try reflexivity.
      rewrite Eargs. reflexivity. }
    unfold tagNode. rewrite Ht. clear Ht.
    destruct (sqlOfArg types sqlArg) as [[sql|w]| |] eqn:Esql; simpl.
    + right. eexists. split; [reflexivity|]. split; [reflexivity|].
      intros sqlArg' sql' Hsql' _. exists j, arg'. split; [|auto].
      eapply In_drop. exact Hin'.
    + right. eexists. split; [reflexivity|]. split; [reflexivity|].
      intros sqlArg' sql' Hsql' Hok. rewrite Hsql in Hsql'. injection Hsql' as <-.
      rewrite Esql in Hok. discriminate.
    + left. reflexivity.
    + exfalso. exact (sqlOfArg_fuel types sqlArg Esql).
  - intros consts i fn args acc f c k arg Hfind Hf Hin Hnone.
    destruct (argTypesFrom_unknown types 0 _ arg Hin Hnone (S k) [])
      as (j & arg' & Hin' & Hnone' & Eargs).
    exists j, arg'. split; [eapply In_drop; exact Hin'|]. split; [exact Hnone'|].
    unfold visitCall. rewrite Hfind. simpl. rewrite Hf. simpl.
    rewrite Eargs. reflexivity.
Qed.

Lemma arg_types_follow_chosen_argument_witness :
  let call := mkCall "select * from users;" ["int"] "" (hostPos 49) in
  tagCall hostTypes execStmt = Done (Some call, None) /\
  tagCallsByConstant hostTypes execStmt [twoConstant] = Done ([call], []) /\
  exists i fn args f,
    In (i, fn, args) (callSites execStmt) /\
    taggedCallAt hostTypes (i, fn, args) call /\
    getSQLFunction fn = Done (Some f) /\
    length (ArgTypes call) = (length args - S (if HasContext f then 1 else 0))%nat.
Proof.
  intros call.
  assert (Htag : tagCall hostTypes execStmt = Done (Some call, None))
    by (vm_compute; reflexivity).
  split; [exact Htag|]. split; [vm_compute; reflexivity|].
  exact (proj1 (arg_types_follow_chosen_argument hostTypes) execStmt call None Htag).
Defined.

(** The count of the re-scan is that of the arguments after the SQL position
    exactly when the last tagged constant stands at that position. *)
Lemma constCallAt_count_iff_sql_position (types : TypesMap) (consts : list Constant)
  (i : NodeInfo) (fn : GoNode) (args : list GoNode) (call : Call) (f : sqlFunction)
  (c : Constant) (k : nat) :
  constCallAt types consts (i, fn, args) call ->
  getSQLFunction fn = Done (Some f) ->
  findConstArg consts 0 args None = Done (Some (c, k)) ->
  let off := if HasContext f then 1%nat else 0%nat in
  (off < length args)%nat ->
  (length (ArgTypes call) = (length args - S off)%nat <-> k = off).
Proof.
  intros Hat Hf Hfind off Hoff.
  destruct Hat as (f' & c' & k' & _ & Hfind' & (arg & Harg & _) & _ & _ & _ & Hall).
  rewrite Hfind in Hfind'. injection Hfind' as <- <-.
  apply lookup_lt_Some in Harg. apply Forall2_length in Hall.
  rewrite length_drop in Hall. lia.
Qed.

(** C8 -- the call site where it departs from the specification:
    [db.Exec(two, three, id)] with [two] and [three] tagged constants.
    [Exec] takes no context, so the SQL argument is [two] and two arguments
    follow it; the tagged-expression descent records the text of [two] with
    their two types.  The constant-driven re-scan of the same call site takes
    the last argument that is a tagged constant, [three], for the SQL
    argument: it records the text of [three] and the one type after it. *)
Theorem tagCallsByConstant_counts_from_last_constant :
  let pos := hostPos 52 in
  let off := 0%nat in
  callSites execTwoThreeStmt = [(mkNodeInfo 30 pos, execTwoThreeFn, execTwoThreeArgs)] /\
  getSQLFunction execTwoThreeFn = Done (Some (mkSqlFunction "Exec" false)) /\
  length (drop (S off) execTwoThreeArgs) = 2%nat /\
  tagCall twoThreeTypes execTwoThreeStmt
  = Done (Some (mkCall "select * from users;" ["string"; "int"] "" pos), None) /\
  tagCallsByConstant twoThreeTypes execTwoThreeStmt [twoConstant; threeConstant]
  = Done ([mkCall "select * from videos;" ["int"] "" pos], []) /\
  findConstArg [twoConstant; threeConstant] 0 execTwoThreeArgs None
  = Done (Some (threeConstant, 1%nat)) /\
  length (ArgTypes (mkCall "select * from videos;" ["int"] "" pos))
  <> length (drop (S off) execTwoThreeArgs).
Proof. repeat split; try discriminate; vm_compute; reflexivity. Qed.

(** ** The stacks as lists are the stacks in memory

    Each operation on a scope object does to the stacks it shows what the
    operation on lists does, and panics when that one does: the statement
    checker above, written on lists, describes the program. *)

Section SliceViews.
Context {A : Type} (zero : A).
Implicit Types h : gmap nat (list A).

Lemma view_length h s : wfSlice h s -> length (view h s) = len s.
Proof.
  intros [Hle Hlen]. unfold view. rewrite length_take. lia.
Qed.

Lemma append_view grow h s x s' h' :
  wfSlice h s -> append zero grow s x h = (s', h') ->
  view h' s' = (view h s ++ [x])%list /\ wfSlice h' s'.
Proof.
  intros Hwf. pose proof (view_length h s Hwf) as Hvl.
  destruct Hwf as [Hle Hlen]. unfold append.
  destruct (Nat.ltb_spec (len s) (cap s)) as [Hlt|Hge]; intros [= <- <-].
  - unfold view in *. simpl.
    destruct (h !! arr s) as [a|] eqn:Ea; simpl in *; [|lia].
    rewrite lookup_insert_eq. simpl. split.
    + rewrite (take_S_r _ _ x) by (apply list_lookup_insert_eq; lia).
      rewrite take_insert_ge by lia. reflexivity.
    + split; simpl; [lia|]. rewrite lookup_insert_eq. simpl.
      rewrite length_insert. exact Hlen.
  - unfold view at 1. simpl. rewrite lookup_insert_eq. simpl. split.
    + change (view h s ++ x :: replicate (grow (cap s)) zero)%list
        with (view h s ++ [x] ++ replicate (grow (cap s)) zero)%list.
      rewrite app_assoc. apply take_app_length'.
      rewrite length_app, Hvl. simpl. lia.
    + split; simpl; [lia|]. rewrite lookup_insert_eq. simpl.
      rewrite length_app, Hvl. simpl. rewrite length_replicate. lia.
Qed.

Lemma dropLast_view h s :
  wfSlice h s ->
  match view h s with
  | [] => dropLast s = Panic
  | _ :: _ =>
      exists s', dropLast s = Done s' /\ view h s' = removelast (view h s)
                 /\ wfSlice h s'
  end.
Proof.
  intros Hwf. pose proof (view_length h s Hwf) as Hvl. destruct Hwf as [Hle Hlen].
  unfold dropLast. destruct (len s) as [|n] eqn:En.
  - destruct (view h s); [reflexivity | discriminate].
  - destruct (view h s) as [|y v] eqn:Ev; [discriminate|].
    eexists. split; [reflexivity|]. split.
    + rewrite <- Ev. unfold view. simpl. rewrite En.
      rewrite removelast_firstn_len, length_take.
      rewrite take_take. f_equal. lia.
    + split; simpl; [lia | exact Hlen].
Qed.
End SliceViews.

Lemma map_removelast {A B} (f : A -> B) (l : list A) :
  List.map f (removelast l) = removelast (List.map f l).
Proof.
  induction l as [|x l IH]; [reflexivity|].
  destruct l as [|y l]; [reflexivity|].
  change (removelast (x :: y :: l)) with (x :: removelast (y :: l)).
  change (List.map f (x :: removelast (y :: l)))
    with (f x :: List.map f (removelast (y :: l))).
  rewrite IH. reflexivity.
Qed.

Lemma map_Some_lookup {A} (l : list A) (i : nat) :
  (i < length l)%nat -> exists x, List.map Some l !! i = Some (Some x).
Proof.
  revert i. induction l as [|y l IH]; intros i Hi; simpl in Hi; [lia|].
  destruct i as [|i]; simpl; [eauto | apply IH; lia].
Qed.

Section Refinement.
Variable grow : nat -> nat.

Lemma mPushPseudoTable_refines m p s alias data :
  holds m p s ->
  exists m', mPushPseudoTable grow p alias data m = Done m'
             /\ holds m' p (pushPseudoTable alias data s).
Proof.
  intros (o & Hp & Hinfo & Hvt & Hva & Hvo & Hwt & Hwa & Hwo).
  unfold mPushPseudoTable. rewrite Hp. simpl.
  destruct (append EmptyString grow (o_aliases o) alias (aliasArrays m))
    as [als h2] eqn:Eals.
  destruct (append None grow (o_tables o) (Some data) (tableArrays m))
    as [ts h1] eqn:Ets.
  destruct (append_view _ _ _ _ _ _ _ Hwa Eals) as [Hva' Hwa'].
  destruct (append_view _ _ _ _ _ _ _ Hwt Ets) as [Hvt' Hwt'].
  eexists. split; [reflexivity|].
  eexists. split; [apply lookup_insert_eq|]. simpl.
  rewrite Hvt', Hva', Hvt, Hva, map_app. auto 10.
Qed.

Lemma runOp_refines m p s op :
  holds m p s ->
  match applyOp op s with
  | Done s' => exists m', runOp grow p op m = Done m' /\ holds m' p s'
  | Panic => runOp grow p op m = Panic
  | OutOfFuel => False
  end.
Proof.
  intros Hh. destruct op; simpl.
  - (* pushTable *)
    pose proof Hh as (o & Hp & Hinfo & _). unfold mPushTable, pushTable.
    rewrite Hp. simpl. rewrite Hinfo.
    destruct (lookupTable schema table (Tables (info s))) as [t|]; simpl.
    + destruct (mPushPseudoTable_refines m p s alias t Hh) as (m' & Hm & Hh').
      rewrite Hm. simpl. eauto.
    + eauto.
  - apply mPushPseudoTable_refines. exact Hh.
  - (* popTable *)
    destruct Hh as (o & Hp & Hinfo & Hvt & Hva & Hvo & Hwt & Hwa & Hwo).
    unfold mPopTable, popTable. rewrite Hp. cbn [deref obind].
    pose proof (dropLast_view _ _ Hwa) as Ha. rewrite Hva in Ha.
    pose proof (dropLast_view _ _ Hwt) as Ht. rewrite Hvt in Ht.
    rewrite <- map_removelast in Ht.
    pose proof (view_length _ _ Hwt) as Hlt. rewrite Hvt, length_map in Hlt.
    pose proof (view_length _ _ Hwa) as Hla. rewrite Hva in Hla.
    rewrite Hvt, Hva.
    destruct (tables s) as [|t ts] eqn:Et.
    { simpl in Hlt. rewrite <- Hlt. reflexivity. }
    destruct (map_Some_lookup (t :: ts) (len (o_tables o) - 1)%nat) as (top & Etop);
      [simpl in *; lia|]. rewrite Etop. cbn [deref obind].
    destruct (aliases s) as [|a als] eqn:Ea; cbv beta iota.
    { simpl in Hla. rewrite <- Hla. reflexivity. }
    destruct ((a :: als) !! (len (o_aliases o) - 1)%nat) as [atop|] eqn:Eatop;
      [|apply lookup_ge_None in Eatop; simpl in *; lia].
    cbn [deref obind].
    destruct Ha as (als' & -> & Hva' & Hwa').
    destruct Ht as (ts' & -> & Hvt' & Hwt').
    eexists. split; [reflexivity|].
    eexists. split; [apply lookup_insert_eq|].
    cbn [info tables aliases outputNames o_info o_tables o_aliases o_outputNames
         tableArrays aliasArrays outputArrays].
    rewrite <- Et, <- Ea in *. auto 10.
  - (* pushOutputName *)
    destruct Hh as (o & Hp & Hinfo & Hvt & Hva & Hvo & Hwt & Hwa & Hwo).
    unfold mPushOutputName. rewrite Hp. simpl.
    destruct (append zeroOutput grow (o_outputNames o) _ (outputArrays m))
      as [ons h3] eqn:Eons.
    destruct (append_view _ _ _ _ _ _ _ Hwo Eons) as [Hvo' Hwo'].
    eexists. split; [reflexivity|].
    eexists. split; [apply lookup_insert_eq|]. simpl.
    rewrite Hvo', Hvo. auto 10.
  - (* popOutputName *)
    destruct Hh as (o & Hp & Hinfo & Hvt & Hva & Hvo & Hwt & Hwa & Hwo).
    unfold mPopOutputName, popOutputName. rewrite Hp. simpl.
    pose proof (dropLast_view _ _ Hwo) as Ho. rewrite Hvo in Ho.
    destruct (outputNames s) as [|r rs] eqn:Er.
    + rewrite Ho. reflexivity.
    + destruct Ho as (ons' & -> & Hvo' & Hwo'). simpl.
      eexists. split; [reflexivity|].
      eexists. split; [apply lookup_insert_eq|]. simpl.
      rewrite Hvo'. auto 10.
Qed.
End Refinement.

Lemma wfSlice_same {A} (h0 h : gmap nat (list A)) (s : slice) :
  h !! arr s = h0 !! arr s -> wfSlice h0 s -> wfSlice h s.
Proof. intros E [Hle Hlen]. split; [exact Hle|]. rewrite E. exact Hlen. Qed.

Lemma make_copy_wf {A} (zero : A) (h : gmap nat (list A)) (src : slice) :
  wfSlice h src ->
  wfSlice (copy (fst (make zero (len src) h)) src (snd (make zero (len src) h)))
          (fst (make zero (len src) h)).
Proof.
  intros Hwf. pose proof (view_length h src Hwf) as Hvl.
  unfold make, copy. simpl. rewrite lookup_insert_eq, Nat.min_id.
  split; simpl; [lia|]. rewrite lookup_insert_eq. simpl.
  rewrite drop_ge by (rewrite length_replicate; lia).
  rewrite app_nil_r, length_take. unfold view. rewrite length_take.
  destruct (decide (newAddr h = arr src)) as [E|E].
  - rewrite <- E, lookup_insert_eq. simpl. rewrite length_replicate. lia.
  - rewrite lookup_insert_ne by exact E. unfold view in Hvl.
    rewrite length_take in Hvl. lia.
Qed.

Lemma framed_holds m0 p c o m s :
  scopes m0 !! p = Some o -> framed m0 p c o m -> holds m0 p s -> holds m p s.
Proof.
  intros Hp0 (_ & Hp & oc & _ & (Ht & _) & (Ha & _) & (Ho & _)).
  intros (o' & Hp' & Hinfo & Hvt & Hva & Hvo & Hwt & Hwa & Hwo).
  rewrite Hp0 in Hp'. injection Hp' as <-.
  exists o. split; [exact Hp|]. split; [exact Hinfo|].
  rewrite (view_same _ _ _ Ht), (view_same _ _ _ Ha), (view_same _ _ _ Ho).
  repeat (split; [assumption|]).
  split; [|split]; eapply wfSlice_same; eassumption.
Qed.

Lemma mClone_holds m p o s c m1 :
  scopes m !! p = Some o -> holds m p s ->
  mClone p m = Done (c, m1) -> stacksOf m1 c = stacksOf m p ->
  holds m1 c (clone s).
Proof.
  intros Hp (o' & Hp' & Hinfo & Hvt & Hva & Hvo & Hwt & Hwa & Hwo) Hclone Hst.
  rewrite Hp in Hp'. injection Hp' as <-.
  unfold mClone in Hclone. rewrite Hp in Hclone. cbn [deref obind] in Hclone.
  pose proof (make_copy_wf None _ _ Hwt) as Hwt'.
  pose proof (make_copy_wf EmptyString _ _ Hwa) as Hwa'.
  pose proof (make_copy_wf zeroOutput _ _ Hwo) as Hwo'.
  destruct (make None (len (o_tables o)) (tableArrays m)) as [ts h1].
  destruct (make EmptyString (len (o_aliases o)) (aliasArrays m)) as [als h2].
  destruct (make zeroOutput (len (o_outputNames o)) (outputArrays m)) as [ons h3].
  injection Hclone as <- <-. unfold stacksOf in Hst.
  cbn [scopes tableArrays aliasArrays outputArrays] in Hst.
  rewrite lookup_insert_eq, Hp in Hst.
  cbn [o_tables o_aliases o_outputNames] in Hst. injection Hst as Et Ea Eo.
  eexists. split; [apply lookup_insert_eq|].
  cbn [o_info o_tables o_aliases o_outputNames tableArrays aliasArrays outputArrays
       clone info tables aliases outputNames fst snd] in *.
  rewrite Et, Ea, Eo. auto 10.
Qed.

(** C9 -- the scope of a lateral sub-select is a clone: an object of its own
    with the catalog of the parent and stacks that show what the parent's
    show, over arrays of their own; whatever sequence of [pushTable],
    [pushPseudoTable], [popTable], [pushOutputName] and [popOutputName] runs on
    the clone, the parent's object and the three stacks it shows stay as they
    were.  In the checker the sub-select is checked in [clone scope], and the
    parent scope goes on as it was, with the pseudo-table pushed. *)
Theorem lateral_clone_leaves_parent (grow : nat -> nat) :
  (forall (m : Memory) (p : nat) (o : ScopeObj),
     scopes m !! p = Some o -> scopeInMemory m o ->
     exists c m1 oc,
       mClone p m = Done (c, m1) /\ c <> p /\
       scopes m1 !! c = Some oc /\ o_info oc = o_info o /\
       stacksOf m1 c = stacksOf m p /\
       arr (o_tables oc) <> arr (o_tables o) /\
       arr (o_aliases oc) <> arr (o_aliases o) /\
       arr (o_outputNames oc) <> arr (o_outputNames o) /\
       forall ops m2,
         runOps grow c ops m1 = Done m2 ->
         scopes m2 !! p = Some o /\ stacksOf m2 p = stacksOf m p) /\
  (forall (m : Memory) (p : nat) (o : ScopeObj) (s : Scope),
     scopes m !! p = Some o -> scopeInMemory m o -> holds m p s ->
     exists c m1,
       mClone p m = Done (c, m1) /\ holds m1 c (clone s) /\ holds m1 p s /\
       forall ops m2, runOps grow c ops m1 = Done m2 -> holds m2 p s) /\
  (forall recN recS fn k stack scope errs n sub al aliasname r,
     Aliasname al = Some aliasname ->
     recS (clone scope) sub = Done r ->
     fromLoop recN recS fn (S k)
       (RangeSubselect true (SelectStmtNode sub) (Some al) :: stack) scope errs n
     = fromLoop recN recS fn k stack
         (pushPseudoTable aliasname
            (outputColsToPseudoTable aliasname (fst (fst r))) scope)
         (errs ++ snd (fst r))%list (S n)).
Proof.
  split; [|split].
  - intros m p o Hp Hin.
    destruct (mClone_framed m p o Hp Hin) as (c & m1 & oc & Hclone & Hfr & Hc & Hinfo & Hst).
    exists c, m1, oc. split; [exact Hclone|].
    pose proof Hfr as (Hcp & _ & oc' & Hc' & (_ & Ht & _) & (_ & Ha & _) & (_ & Ho & _)).
    rewrite Hc in Hc'. injection Hc' as <-.
    repeat (split; [assumption|]).
    intros ops m2 Hrun.
    pose proof (runOps_framed grow m p c o ops m1 m2 Hfr Hrun) as Hfr2.
    split; [apply Hfr2 | eapply framed_stacks; eassumption].
  - intros m p o s Hp Hin Hh.
    destruct (mClone_framed m p o Hp Hin) as (c & m1 & oc & Hclone & Hfr & Hc & Hinfo & Hst).
    exists c, m1. split; [exact Hclone|]. split; [|split].
    + exact (mClone_holds m p o s c m1 Hp Hh Hclone Hst).
    + exact (framed_holds m p c o m1 s Hp Hfr Hh).
    + intros ops m2 Hrun.
      exact (framed_holds m p c o m2 s Hp
               (runOps_framed grow m p c o ops m1 m2 Hfr Hrun) Hh).
  - intros recN recS fn k stack scope errs n sub al aliasname r Hal Hsub.
    simpl. rewrite Hsub. simpl. destruct (fst r) as [subSelMap subSelectErrs].
    rewrite Hal. reflexivity.
Qed.

Lemma lateral_clone_leaves_parent_witness :
  let o := mkScopeObj scenarioCatalog (mkSlice 1 1 2) (mkSlice 1 1 1) nilSlice in
  let m := mkMemory {[ 1%nat := o ]}
                    {[ 1%nat := [Some usersTable; Some videosTable] ]}
                    {[ 1%nat := ["u"] ]} ∅ in
  scopes m !! 1%nat = Some o /\ scopeInMemory m o /\
  exists c m1 oc,
    mClone 1 m = Done (c, m1) /\ c <> 1%nat /\
    scopes m1 !! c = Some oc /\ o_info oc = o_info o /\
    stacksOf m1 c = stacksOf m 1 /\
    arr (o_tables oc) <> arr (o_tables o) /\
    arr (o_aliases oc) <> arr (o_aliases o) /\
    arr (o_outputNames oc) <> arr (o_outputNames o) /\
    forall ops m2,
      runOps (fun c => c) c ops m1 = Done m2 ->
      scopes m2 !! 1%nat = Some o /\ stacksOf m2 1 = stacksOf m 1.
Proof.
  intros o m.
  assert (Hp : scopes m !! 1%nat = Some o) by reflexivity.
  assert (Hin : scopeInMemory m o).
  { split; [|split].
    - right. apply elem_of_dom. exists [Some usersTable; Some videosTable]. reflexivity.
    - right. apply elem_of_dom. exists ["u"]. reflexivity.
    - left. reflexivity. }
  split; [exact Hp|]. split; [exact Hin|].
  exact (proj1 (lateral_clone_leaves_parent (fun c => c)) m 1%nat o Hp Hin).
Defined.

(** * Further properties *)

(** ** More on the scope *)

Lemma nonEmpty_false (s : string) : nonEmpty s = false -> s = EmptyString.
Proof. destruct s; [reflexivity | discriminate]. Qed.

Lemma lookupTable_cons schema table t0 ts :
  lookupTable schema table (t0 :: ts)
  = if nameMatches schema table t0 then Some t0 else lookupTable schema table ts.
Proof.
  simpl. unfold nameMatches.
  destruct (nonEmpty schema), (String.eqb (SchemaName t0) schema),
    (String.eqb (Name t0) table); reflexivity.
Qed.

Lemma lookupTable_Some schema table ts t :
  lookupTable schema table ts = Some t ->
  exists pre post,
    ts = (pre ++ t :: post)%list /\ nameMatches schema table t = true /\
    Forall (fun t' => nameMatches schema table t' = false) pre.
Proof.
  induction ts as [|t0 ts IH]; [discriminate|].
  rewrite lookupTable_cons. destruct (nameMatches schema table t0) eqn:E.
  - intros [= <-]. exists [], ts. auto.
  - intros H. destruct (IH H) as (pre & post & -> & Hm & Hpre).
    exists (t0 :: pre), post. auto.
Qed.

Lemma lookupTable_None schema table ts :
  lookupTable schema table ts = None ->
  Forall (fun t' => nameMatches schema table t' = false) ts.
Proof.
  induction ts as [|t0 ts IH]; [constructor|].
  rewrite lookupTable_cons. destruct (nameMatches schema table t0) eqn:E; [discriminate|].
  auto.
Qed.

Lemma nameMatches_true schema table t :
  nameMatches schema table t = true <->
  Name t = table /\ (schema = EmptyString \/ SchemaName t = schema).
Proof.
  unfold nameMatches. rewrite andb_true_iff, orb_true_iff, negb_true_iff.
  rewrite !String.eqb_eq. split.
  - intros [[H|H] Hn]; (split; [exact Hn|]); [left; apply nonEmpty_false, H | right; exact H].
  - intros [Hn [->|H]]; (split; [|exact Hn]); [left; reflexivity | right; exact H].
Qed.

(** X1 -- [Scope.pushTable] looks the table up in the catalog: it succeeds
    exactly when the catalog has a table of that name (in that schema, when a
    schema is given), and then pushes the first such table of the catalog
    together with the alias, one entry on each of the two stacks; when it
    fails the scope is as it was. *)
Theorem pushTable_pushes_first_catalog_match (s : Scope) (schema table alias : string) :
  (fst (pushTable schema table alias s) = true <->
   exists t, In t (Tables (info s)) /\ Name t = table /\
             (schema = EmptyString \/ SchemaName t = schema)) /\
  (fst (pushTable schema table alias s) = true ->
   exists pre t post,
     Tables (info s) = (pre ++ t :: post)%list /\
     nameMatches schema table t = true /\
     Forall (fun t' => nameMatches schema table t' = false) pre /\
     snd (pushTable schema table alias s)
     = mkScope (info s) (tables s ++ [t]) (aliases s ++ [alias]) (outputNames s)) /\
  (fst (pushTable schema table alias s) = false ->
   snd (pushTable schema table alias s) = s).
Proof.
  unfold pushTable.
  destruct (lookupTable schema table (Tables (info s))) as [t|] eqn:E; simpl.
  - destruct (lookupTable_Some _ _ _ _ E) as (pre & post & Hts & Hm & Hpre).
    split; [|split].
    + split; [|reflexivity]. intros _. exists t. rewrite Hts.
      split; [apply in_elt|]. apply nameMatches_true. exact Hm.
    + intros _. exists pre, t, post. auto.
    + discriminate.
  - pose proof (lookupTable_None _ _ _ E) as Hnone.
    split; [|split].
    + split; [discriminate|]. intros (t & Hin & Hn & Hs).
      rewrite List.Forall_forall in Hnone. specialize (Hnone t Hin).
      assert (nameMatches schema table t = true) as Ht by (apply nameMatches_true; auto).
      congruence.
    + discriminate.
    + reflexivity.
Qed.

(** X2 -- what is pushed is what is popped: [popTable] after a [pushTable]
    that succeeded, or after a [pushPseudoTable], and [popOutputName] after a
    [pushOutputName], give back the scope as it was before the push. *)
Theorem pop_after_push_restores_scope (s : Scope) (schema table alias : string)
  (data : Table) (n : string) (c : option Column) :
  (fst (pushTable schema table alias s) = true ->
   popTable (snd (pushTable schema table alias s)) = Done s) /\
  popTable (pushPseudoTable alias data s) = Done s /\
  popOutputName (pushOutputName n c s) = Done s.
Proof.
  split; [|split].
  - destruct (pushTable_pushedOn schema table alias s) as [[_ E]|[t E]].
    + rewrite E. discriminate.
    + rewrite E. simpl. intros _. apply popTable_push.
  - apply popTable_push.
  - apply popOutputName_push.
Qed.

Lemma firstn_removelast {A} (l : list A) :
  removelast l = firstn (length l - 1) l.
Proof.
  destruct l as [|x l] using rev_ind; [reflexivity|].
  rewrite removelast_last, length_app. simpl.
  replace (length l + 1 - 1)%nat with (length l + 0)%nat by lia.
  rewrite firstn_app_2. simpl. rewrite app_nil_r. reflexivity.
Qed.

Lemma popTables_spec n : forall s,
  popTables n s =
  if (n <=? length (tables s))%nat && (n <=? length (aliases s))%nat
  then Done (mkScope (info s) (firstn (length (tables s) - n) (tables s))
                     (firstn (length (aliases s) - n) (aliases s)) (outputNames s))
  else Panic.
Proof.
  induction n as [|n IH]; intros s.
  - simpl. rewrite !Nat.sub_0_r, !firstn_all. destruct s; reflexivity.
  - cbn [popTables]. unfold popTable.
    destruct (tables s) as [|t ts] eqn:Et.
    { reflexivity. }
    destruct (aliases s) as [|a als] eqn:Ea.
    { simpl. rewrite andb_false_r. reflexivity. }
    cbn [obind]. rewrite IH. cbn [info tables aliases outputNames].
    rewrite !removelast_length.
    change (Nat.pred (length (t :: ts))) with (length ts).
    change (Nat.pred (length (a :: als))) with (length als).
    change (S n <=? length (t :: ts))%nat with (n <=? length ts)%nat.
    change (S n <=? length (a :: als))%nat with (n <=? length als)%nat.
    destruct ((n <=? length ts)%nat && (n <=? length als)%nat); [|reflexivity].
    rewrite !firstn_removelast, !firstn_firstn. do 2 f_equal.
    + f_equal. simpl. lia.
    + f_equal. simpl. lia.
Qed.

(** X3 -- the loop [for i := 0; i < nTables; i++ { scope.popTable() }]
    succeeds when both stacks hold at least [nTables] entries, and then cuts
    exactly that many off the end of each, leaving the output names alone; it
    panics when one of the stacks is shorter. *)
Theorem popTables_cuts_or_panics (n : nat) (s : Scope) :
  ((n <= length (tables s))%nat /\ (n <= length (aliases s))%nat ->
   popTables n s
   = Done (mkScope (info s) (firstn (length (tables s) - n) (tables s))
                   (firstn (length (aliases s) - n) (aliases s)) (outputNames s))) /\
  ((length (tables s) < n)%nat \/ (length (aliases s) < n)%nat ->
   popTables n s = Panic).
Proof.
  rewrite popTables_spec. split.
  - intros [H1 H2]. apply Nat.leb_le in H1, H2. rewrite H1, H2. reflexivity.
  - intros [H|H]; apply Nat.leb_gt in H; rewrite H; [|rewrite andb_false_r]; reflexivity.
Qed.

Lemma popTables_cuts_or_panics_witness :
  let s := mkScope scenarioCatalog [usersTable; videosTable] ["u"; "v"] [] in
  popTables 1 s = Done (mkScope scenarioCatalog [usersTable] ["u"] []) /\
  popTables 3 s = Panic.
Proof.
  intros s. split.
  - apply (proj1 (popTables_cuts_or_panics 1 s)). simpl. lia.
  - apply (proj2 (popTables_cuts_or_panics 3 s)). simpl. lia.
Defined.

Lemma pushTable_pushes_first_catalog_match_witness :
  fst (pushTable "" "videos" "v" (NewScope scenarioCatalog)) = true /\
  exists pre t post,
    Tables (info (NewScope scenarioCatalog)) = (pre ++ t :: post)%list /\
    nameMatches "" "videos" t = true /\
    Forall (fun t' => nameMatches "" "videos" t' = false) pre /\
    snd (pushTable "" "videos" "v" (NewScope scenarioCatalog))
    = mkScope scenarioCatalog ([] ++ [t]) ([] ++ ["v"]) [].
Proof.
  assert (H : fst (pushTable "" "videos" "v" (NewScope scenarioCatalog)) = true)
    by reflexivity.
  split; [exact H|].
  exact (proj1 (proj2 (pushTable_pushes_first_catalog_match
                         (NewScope scenarioCatalog) "" "videos" "v")) H).
Defined.

Lemma pop_after_push_restores_scope_witness :
  fst (pushTable "" "users" "u" (NewScope scenarioCatalog)) = true /\
  popTable (snd (pushTable "" "users" "u" (NewScope scenarioCatalog)))
  = Done (NewScope scenarioCatalog).
Proof.
  assert (H : fst (pushTable "" "users" "u" (NewScope scenarioCatalog)) = true)
    by reflexivity.
  split; [exact H|].
  exact (proj1 (pop_after_push_restores_scope (NewScope scenarioCatalog)
                  "" "users" "u" usersTable "" None) H).
Defined.

(** ** More on [Scope.get] *)

Lemma scanTables_flat column ts : forall st,
  scanTables column ts st = scanColumns column (columnsInScope ts) st.
Proof.
  unfold columnsInScope.
  induction ts as [|t ts IH]; intros st; simpl; [reflexivity|].
  assert (Happ : forall cs cs' st0,
            scanColumns column (cs ++ cs') st0
            = match scanColumns column cs st0 with
              | inl r => inl r
              | inr st' => scanColumns column cs' st'
              end).
  { induction cs as [|c cs IHc]; intros cs' st0; simpl; [reflexivity|].
    destruct (String.eqb (col_Name c) column); [|apply IHc].
    destruct (Z.eqb (snd st0) scopeRetOk); [reflexivity | apply IHc]. }
  rewrite Happ. destruct (scanColumns column (Columns t) st); [reflexivity | apply IH].
Qed.

Lemma scanColumns_found column c0 cs :
  scanColumns column cs (Some c0, scopeRetOk)
  = if (1 <=? length (List.filter (fun c => String.eqb (col_Name c) column) cs))%nat
    then inl (None, scopeRetAmbiguous)
    else inr (Some c0, scopeRetOk).
Proof.
  induction cs as [|c cs IH]; simpl; [reflexivity|].
  destruct (String.eqb (col_Name c) column); simpl; [reflexivity | exact IH].
Qed.

Lemma scanColumns_start column cs :
  scanColumns column cs (None, scopeRetUnknown)
  = if (2 <=? length (List.filter (fun c => String.eqb (col_Name c) column) cs))%nat
    then inl (None, scopeRetAmbiguous)
    else match findColumn column cs with
         | Some c => inr (Some c, scopeRetOk)
         | None => inr (None, scopeRetUnknown)
         end.
Proof.
  induction cs as [|c cs IH]; simpl; [reflexivity|].
  destruct (String.eqb (col_Name c) column); simpl; [|exact IH].
  rewrite scanColumns_found.
  destruct (List.filter _ cs); reflexivity.
Qed.

Lemma get_without_table_spec (s : Scope) (schema column : string) :
  get s schema EmptyString column
  = Done (if (2 <=? occurrences column (tables s))%nat
          then (None, scopeRetAmbiguous)
          else match findOutputName column (outputNames s) with
               | Some o => (col o, scopeRetOk)
               | None =>
                   match findColumn column (columnsInScope (tables s)) with
                   | Some c => (Some c, scopeRetOk)
                   | None => (None, scopeRetUnknown)
                   end
               end).
Proof.
  unfold get, occurrences. rewrite nonEmpty_empty, scanTables_flat, scanColumns_start.
  destruct (2 <=? _)%nat; [reflexivity|].
  destruct (findColumn column (columnsInScope (tables s)));
    destruct (findOutputName column (outputNames s)); reflexivity.
Qed.

(** X4 -- [Scope.get] without a table name decides by the number of columns
    of that name among all the tables in scope: two or more make the name
    ambiguous, whatever the output names are; otherwise the first output name
    equal to it answers, if there is one; otherwise the one column of that
    name answers, and with none the name is unknown.  The schema argument
    plays no part. *)
Theorem get_without_table_counts_columns (s : Scope) (schema column : string) :
  get s schema EmptyString column
  = Done (if (2 <=? occurrences column (tables s))%nat
          then (None, scopeRetAmbiguous)
          else match findOutputName column (outputNames s) with
               | Some o => (col o, scopeRetOk)
               | None =>
                   match findColumn column (columnsInScope (tables s)) with
                   | Some c => (Some c, scopeRetOk)
                   | None => (None, scopeRetUnknown)
                   end
               end).
Proof.
  unfold get. rewrite nonEmpty_empty, scanTables_flat, scanColumns_start.
  fold (occurrences column (tables s)).
  destruct (Nat.leb 2 (occurrences column (tables s))); [reflexivity|].
  destruct (findColumn column (columnsInScope (tables s))) as [c|].
  - destruct (findOutputName column (outputNames s)); reflexivity.
  - destruct (findOutputName column (outputNames s)); reflexivity.
Qed.

Lemma findColumn_In column cs c :
  findColumn column cs = Some c -> In c cs /\ col_Name c = column.
Proof.
  induction cs as [|c0 cs IH]; simpl; [discriminate|].
  destruct (String.eqb_spec (col_Name c0) column) as [E|E].
  - intros [= <-]. auto.
  - intros H. destruct (IH H). auto.
Qed.

Lemma findOutputName_In column os o :
  findOutputName column os = Some o -> In o os /\ name o = column.
Proof.
  induction os as [|o0 os IH]; simpl; [discriminate|].
  destruct (String.eqb_spec column (name o0)) as [E|E].
  - intros [= <-]. auto.
  - intros H. destruct (IH H). auto.
Qed.

Lemma findInScope_In schema table ts : forall als t,
  findInScope schema table ts als = Done (Some t) -> In t ts.
Proof.
  induction ts as [|t0 ts IH]; intros [|a als] t; simpl; try discriminate.
  destruct (String.eqb a table); [intros [= <-]; auto|].
  destruct (nonEmpty schema && negb (String.eqb (SchemaName t0) schema)).
  - intros H. right. eapply IH. exact H.
  - destruct (String.eqb (Name t0) table); [intros [= <-]; auto|].
    intros H. right. eapply IH. exact H.
Qed.

Lemma columnsInScope_In c ts :
  In c (columnsInScope ts) -> exists t, In t ts /\ In c (Columns t).
Proof.
  unfold columnsInScope. rewrite in_concat. intros (cs & Hcs & Hc).
  apply in_map_iff in Hcs. destruct Hcs as (t & <- & Ht). eauto.
Qed.

(** X5 -- what [Scope.get] returns: the status is one of the three codes; a
    column comes only with [scopeRetOk]; and the column returned has the name
    asked for and is a column of a table in scope or, when no table name was
    given, the column bound to an output name equal to the name. *)
Theorem get_returns_column_in_scope (s : Scope) (schema table column : string)
  (c : option Column) (st : Z) :
  get s schema table column = Done (c, st) ->
  (st = scopeRetOk \/ st = scopeRetAmbiguous \/ st = scopeRetUnknown) /\
  (st <> scopeRetOk -> c = None) /\
  (forall c', c = Some c' ->
     (exists t, In t (tables s) /\ In c' (Columns t) /\ col_Name c' = column) \/
     (table = EmptyString /\
      exists o, In o (outputNames s) /\ name o = column /\ col o = Some c')).
Proof.
  destruct (nonEmpty table) eqn:Et.
  - unfold get. rewrite Et.
    destruct (findInScope schema table (tables s) (aliases s)) as [[t|]| |] eqn:Ef;
      simpl; try discriminate.
    + apply findInScope_In in Ef.
      destruct (findColumn column (Columns t)) as [c0|] eqn:Ec; intros [= <- <-].
      * apply findColumn_In in Ec. destruct Ec as [Hin Hn].
        split; [auto|]. split; [congruence|].
        intros c' [= <-]. left. eauto.
      * split; [auto|]. split; [reflexivity | discriminate].
    + intros [= <- <-]. split; [auto|]. split; [reflexivity | discriminate].
  - apply nonEmpty_false in Et. subst table.
    rewrite get_without_table_spec.
    destruct (2 <=? _)%nat.
    { intros [= <- <-]. split; [auto|]. split; [reflexivity | discriminate]. }
    destruct (findOutputName column (outputNames s)) as [o|] eqn:Eo.
    { apply findOutputName_In in Eo. destruct Eo as [Hin Hn]. intros [= <- <-].
      split; [auto|]. split; [congruence|].
      intros c' Hc. right. split; [reflexivity|]. eauto. }
    destruct (findColumn column (columnsInScope (tables s))) as [c0|] eqn:Ec;
      intros [= <- <-].
    + apply findColumn_In in Ec. destruct Ec as [Hin Hn].
      apply columnsInScope_In in Hin. destruct Hin as (t & Ht & Hc).
      split; [auto|]. split; [congruence|].
      intros c' [= <-]. left. eauto.
    + split; [auto|]. split; [reflexivity | discriminate].
Qed.

Lemma get_returns_column_in_scope_witness :
  let s := mkScope scenarioCatalog [usersTable] ["u"] [] in
  get s "" "u" "id" = Done (Some (intColumn "id"), scopeRetOk) /\
  ((exists t, In t (tables s) /\ In (intColumn "id") (Columns t)
              /\ col_Name (intColumn "id") = "id") \/
   ("u" = EmptyString /\
    exists o, In o (outputNames s) /\ name o = "id" /\ col o = Some (intColumn "id"))).
Proof.
  intros s.
  assert (H : get s "" "u" "id" = Done (Some (intColumn "id"), scopeRetOk))
    by reflexivity.
  split; [exact H|].
  exact (proj2 (proj2 (get_returns_column_in_scope s "" "u" "id" _ _ H))
           (intColumn "id") eq_refl).
Defined.

Lemma find_app_Some {A} (f : A -> bool) (l l' : list A) (x : A) :
  List.find f l = Some x -> List.find f (l ++ l') = Some x.
Proof.
  induction l as [|y l IH]; simpl; [discriminate|].
  destruct (f y); auto.
Qed.

Lemma find_app_None {A} (f : A -> bool) (l l' : list A) :
  List.find f l = None -> List.find f (l ++ l') = List.find f l'.
Proof.
  induction l as [|y l IH]; simpl; [reflexivity|].
  destruct (f y); [discriminate | auto].
Qed.

Lemma combine_snoc {A B} (l : list A) (l' : list B) (x : A) (y : B) :
  length l = length l' ->
  combine (l ++ [x]) (l' ++ [y]) = (combine l l' ++ [(x, y)])%list.
Proof.
  revert l'. induction l as [|a l IH]; intros [|b l'] H; simpl in *; try discriminate.
  - reflexivity.
  - f_equal. apply IH. lia.
Qed.

Lemma get_with_table_find s schema table column :
  table <> EmptyString -> length (tables s) = length (aliases s) ->
  get s schema table column
  = Done (match List.find (entryMatches schema table) (combine (tables s) (aliases s)) with
          | None => (None, scopeRetUnknown)
          | Some (t, _) =>
              match findColumn column (Columns t) with
              | Some c => (Some c, scopeRetOk)
              | None => (None, scopeRetUnknown)
              end
          end).
Proof.
  intros Hne Hlen. apply nonEmpty_true in Hne.
  unfold get. rewrite Hne, (findInScope_find schema table _ _ Hlen). simpl.
  destruct (List.find _ _) as [[t a]|]; simpl; [|reflexivity].
  destruct (findColumn column (Columns t)); reflexivity.
Qed.

(** X6 -- the entries of the stack are tried oldest first, so a later push
    never changes what a table name already resolves to: when the name finds
    an entry of the scope (by alias or by table name), [get] with that name
    answers the same after any [pushPseudoTable], and after any [pushTable],
    even one of the same name or alias. *)
Theorem get_keeps_resolution_after_push (s : Scope) (schema table column : string)
  (t : Table) (alias : string) (data : Table) (schema' table' alias' : string) :
  table <> EmptyString ->
  length (tables s) = length (aliases s) ->
  findInScope schema table (tables s) (aliases s) = Done (Some t) ->
  get (pushPseudoTable alias data s) schema table column = get s schema table column /\
  get (snd (pushTable schema' table' alias' s)) schema table column
  = get s schema table column.
Proof.
  intros Hne Hlen Hfind.
  assert (Hpush : forall a d,
            get (pushPseudoTable a d s) schema table column = get s schema table column).
  { intros a d. rewrite !get_with_table_find; try assumption.
    - simpl. rewrite combine_snoc by assumption.
      rewrite (findInScope_find _ _ _ _ Hlen) in Hfind.
      destruct (List.find (entryMatches schema table) (combine (tables s) (aliases s)))
        as [e|] eqn:E; [|discriminate].
      rewrite (find_app_Some _ _ _ _ E). reflexivity.
    - simpl. rewrite !length_app. simpl. lia. }
  split; [apply Hpush|].
  destruct (pushTable_pushedOn schema' table' alias' s) as [[E _]|[t' E]].
  - rewrite E. reflexivity.
  - rewrite E. simpl. apply Hpush.
Qed.

Lemma get_keeps_resolution_after_push_witness :
  let s := mkScope scenarioCatalog [usersTable] ["x"] [] in
  "x" <> EmptyString /\
  get (pushPseudoTable "x" videosTable s) "" "x" "name" = get s "" "x" "name" /\
  get (snd (pushTable "" "videos" "x" s)) "" "x" "name" = get s "" "x" "name".
Proof.
  intros s.
  assert (Hne : "x" <> EmptyString) by discriminate.
  split; [exact Hne|].
  exact (get_keeps_resolution_after_push s "" "x" "name" usersTable "x" videosTable
           "" "videos" "x" Hne eq_refl eq_refl).
Defined.

Lemma findColumn_pseudo column alias refs :
  findColumn column (Columns (outputColsToPseudoTable alias refs))
  = match findOutputName column refs with
    | Some o =>
        Some (match col o with
              | Some c => mkColumn (name o) (col_Type c) (col_DBType c) (col_UDTName c)
                                   (col_FullDBType c) (col_Nullable c) (col_Unique c)
              | None => mkColumn (name o) EmptyString EmptyString EmptyString
                                 EmptyString false false
              end)
    | None => None
    end.
Proof.
  unfold outputColsToPseudoTable. simpl.
  induction refs as [|[n c] refs IH]; simpl; [reflexivity|].
  rewrite (String.eqb_sym column n).
  destruct c; simpl; destruct (String.eqb n column); try reflexivity; exact IH.
Qed.

(** X7 -- a sub-select in the FROM clause is visible through its alias: once
    the pseudo-table made of its output columns is pushed under the alias, a
    name qualified by the alias resolves, unless an older entry answers to the
    alias, to the first output column of that name, with the name it was
    given and the driver and database types of the column it stands for (none
    when it stands for an expression); a name that is not among the output
    columns is unknown.  The schema given with the alias is not looked at. *)
Theorem get_resolves_subselect_column (s : Scope) (schema alias column : string)
  (refs : list outputColRef) :
  alias <> EmptyString ->
  length (tables s) = length (aliases s) ->
  List.find (entryMatches schema alias) (combine (tables s) (aliases s)) = None ->
  match findOutputName column refs with
  | None =>
      get (pushPseudoTable alias (outputColsToPseudoTable alias refs) s)
          schema alias column = Done (None, scopeRetUnknown)
  | Some o =>
      exists c',
        get (pushPseudoTable alias (outputColsToPseudoTable alias refs) s)
            schema alias column = Done (Some c', scopeRetOk) /\
        col_Name c' = column /\
        match col o with
        | Some c => col_Type c' = col_Type c /\ col_DBType c' = col_DBType c
        | None => col_Type c' = EmptyString /\ col_DBType c' = EmptyString
        end
  end.
Proof.
  intros Hne Hlen Hnone.
  assert (Hget : get (pushPseudoTable alias (outputColsToPseudoTable alias refs) s)
                     schema alias column
                 = Done (match findColumn column
                                 (Columns (outputColsToPseudoTable alias refs)) with
                         | Some c => (Some c, scopeRetOk)
                         | None => (None, scopeRetUnknown)
                         end)).
  { rewrite get_with_table_find; [|assumption|simpl; rewrite !length_app; simpl; lia].
    simpl tables. simpl aliases. rewrite combine_snoc by assumption.
    rewrite (find_app_None _ _ _ Hnone). simpl.
    unfold entryMatches at 1. simpl. rewrite String.eqb_refl. reflexivity. }
  rewrite Hget, findColumn_pseudo.
  destruct (findOutputName column refs) as [o|] eqn:Eo; [|reflexivity].
  apply findOutputName_In in Eo. destruct Eo as [_ Hn].
  eexists. split; [reflexivity|]. destruct (col o); simpl; auto.
Qed.

Lemma get_resolves_subselect_column_witness :
  "x" <> EmptyString /\
  exists c',
    get (pushPseudoTable "x"
           (outputColsToPseudoTable "x" [mkOutputColRef "n" (Some (textColumn "name"))])
           (NewScope scenarioCatalog))
        "nowhere" "x" "n" = Done (Some c', scopeRetOk) /\
    col_Name c' = "n" /\
    col_Type c' = col_Type (textColumn "name") /\
    col_DBType c' = col_DBType (textColumn "name").
Proof.
  assert (Hne : "x" <> EmptyString) by discriminate.
  split; [exact Hne|].
  exact (get_resolves_subselect_column (NewScope scenarioCatalog) "nowhere" "x" "n"
           [mkOutputColRef "n" (Some (textColumn "name"))] Hne eq_refl eq_refl).
Defined.

(** ** More on the type checker *)

Lemma typeCheck_operands_commute_aux (s : State) (fn : Call) (scope : Scope)
  (lhs rhs : Node) :
  typeCheck s fn scope lhs rhs = typeCheck s fn scope rhs lhs.
Proof. destruct lhs, rhs; reflexivity. Qed.

(** X8 -- [typeCheck] does not care on which side of the operator the column
    and the parameter stand: swapping the two operands gives the same result,
    whatever they are. *)
Theorem typeCheck_operands_commute (s : State) (fn : Call) (scope : Scope)
  (lhs rhs : Node) :
  typeCheck s fn scope lhs rhs = typeCheck s fn scope rhs lhs.
Proof.
  destruct (isNil lhs) eqn:El, (isNil rhs) eqn:Er;
    try (destruct lhs, rhs; try discriminate; reflexivity).
Qed.

Lemma stringsSplit_plain (sep : ascii) (s : string) :
  containsByte sep s = false -> stringsSplit sep s = [s].
Proof.
  unfold containsByte. induction s as [|a r IH]; simpl; [reflexivity|].
  rewrite orb_false_iff. intros [Ha Hr]. rewrite Ascii.eqb_sym in Ha.
  rewrite Ha, (IH Hr). reflexivity.
Qed.

Lemma typeCheck_resolved s fn scope fields l number pl schema table offset column r :
  qualifiers fields = Done (schema, table, offset) ->
  fields !! offset = Some (StringNode column) ->
  get scope schema table column = Done r ->
  typeCheck s fn scope (ColumnRef fields l) (ParamRef number pl)
  = let '(found, ret) := r in
    if negb (Z.eqb ret scopeRetOk) then Done None else
    match found with
    | None => Done None
    | Some c =>
        let k := wrapInt (number - 1) in
        if Z.geb k (Z.of_nat (length (ArgTypes fn))) then
          Done (Some (TypeErr schema table column "<none>" (col_Type c)
                              (col_DBType c) number pl fn))
        else
          do argType <- (if Z.ltb k 0 then Panic
                         else deref (ArgTypes fn !! Z.to_nat k));
          let splits := stringsSplit dot (col_Type c) in
          do failed <-
            (if Nat.ltb 1 (length splits) then
               let imports := default (mkImportSet [] []) (BasedOnType s !! col_Type c) in
               let allImps := (Standard imports ++ ThirdParty imports)%list in
               do imp <- lookupImport splits (col_Type c) allImps;
               Done (Nat.eqb (String.length imp) 0)
             else Done false);
          if (failed : bool) then
            Done (Some (ErrorString
                   ("failed to lookup package for driver type: " ++ col_Type c)%string))
          else if negb (String.eqb argType (col_Type c)) then
            Done (Some (TypeErr schema table column argType (col_Type c)
                                (col_DBType c) number pl fn))
          else Done None
    end.
Proof.
  intros Hq Hf Hg. unfold typeCheck. cbn [isNil orb].
  rewrite Hq. cbn [obind]. rewrite Hf. cbn [asString obind]. rewrite Hg. cbn [obind].
  reflexivity.
Qed.

(** X9 -- for a column whose driver type is a plain type name (no dot in it)
    and a parameter [$n] that has an argument, [typeCheck] reports a type
    mismatch exactly when the type of argument [n] is not, letter for letter,
    the driver type of the column; the error carries both types, the
    parameter number and its position. *)
Theorem typeCheck_compares_plain_types (s : State) (fn : Call) (scope : Scope)
  (fields : list Node) (l number pl : Z) (schema table column : string) (offset : nat)
  (c : Column) (argType : string) :
  qualifiers fields = Done (schema, table, offset) ->
  fields !! offset = Some (StringNode column) ->
  get scope schema table column = Done (Some c, scopeRetOk) ->
  1 <= number < 2 ^ 63 ->
  ArgTypes fn !! Z.to_nat (number - 1) = Some argType ->
  containsByte dot (col_Type c) = false ->
  typeCheck s fn scope (ColumnRef fields l) (ParamRef number pl)
  = Done (if String.eqb argType (col_Type c) then None
          else Some (TypeErr schema table column argType (col_Type c) (col_DBType c)
                             number pl fn)).
Proof.
  intros Hq Hf Hg Hn Ha Hd.
  rewrite (typeCheck_resolved _ _ _ _ _ _ _ _ _ _ _ _ Hq Hf Hg).
  cbv zeta. cbn [negb]. change (scopeRetOk =? scopeRetOk) with true. cbn [negb].
  rewrite wrapInt_small by lia.
  pose proof (lookup_lt_Some _ _ _ Ha) as Hlt.
  replace (number - 1 >=? Z.of_nat (length (ArgTypes fn))) with false
    by (symmetry; rewrite Z.geb_leb; apply Z.leb_gt; lia).
  replace (number - 1 <? 0) with false by (symmetry; apply Z.ltb_ge; lia).
  rewrite Ha. cbn [deref obind].
  rewrite (stringsSplit_plain _ _ Hd). cbn [length Nat.ltb Nat.leb obind].
  destruct (String.eqb argType (col_Type c)); reflexivity.
Qed.

Lemma typeCheck_compares_plain_types_witness :
  let scope := mkScope scenarioCatalog [usersTable] [EmptyString] [] in
  1 <= 1 < 2 ^ 63 /\
  typeCheck scenarioState (testCall "select id from users where id = $1" ["string"])
    scope (ColumnRef [StringNode "id"] 30) (ParamRef 1 35)
  = Done (if String.eqb "string" (col_Type (intColumn "id")) then None
          else Some (TypeErr "" "" "id" "string" (col_Type (intColumn "id"))
                             (col_DBType (intColumn "id")) 1 35
                             (testCall "select id from users where id = $1" ["string"]))).
Proof.
  intros scope.
  assert (Hn : 1 <= 1 < 2 ^ 63) by lia.
  split; [exact Hn|].
  exact (typeCheck_compares_plain_types scenarioState
           (testCall "select id from users where id = $1" ["string"]) scope
           [StringNode "id"] 30 1 35 "" "" "id" 0%nat (intColumn "id") "string"
           eq_refl eq_refl eq_refl Hn eq_refl eq_refl).
Defined.

(** X10 -- a parameter numbered zero or below has no argument to be compared
    with: once the column is resolved, [fn.ArgTypes[p.Number-1]] is read at a
    negative index and [typeCheck] panics. *)
Theorem typeCheck_parameter_below_one_panics (s : State) (fn : Call) (scope : Scope)
  (fields : list Node) (l number pl : Z) (schema table column : string) (offset : nat)
  (c : Column) :
  qualifiers fields = Done (schema, table, offset) ->
  fields !! offset = Some (StringNode column) ->
  get scope schema table column = Done (Some c, scopeRetOk) ->
  - 2 ^ 63 < number <= 0 ->
  typeCheck s fn scope (ColumnRef fields l) (ParamRef number pl) = Panic.
Proof.
  intros Hq Hf Hg Hn.
  rewrite (typeCheck_resolved _ _ _ _ _ _ _ _ _ _ _ _ Hq Hf Hg).
  cbv zeta. change (scopeRetOk =? scopeRetOk) with true. cbn [negb].
  rewrite wrapInt_small by lia.
  replace (number - 1 >=? Z.of_nat (length (ArgTypes fn))) with false
    by (symmetry; rewrite Z.geb_leb; apply Z.leb_gt; lia).
  replace (number - 1 <? 0) with true by (symmetry; apply Z.ltb_lt; lia).
  reflexivity.
Qed.

Lemma typeCheck_parameter_below_one_panics_witness :
  - 2 ^ 63 < 0 <= 0 /\
  typeCheck scenarioState (testCall "select id from users where id = $0" ["int"])
    (mkScope scenarioCatalog [usersTable] [EmptyString] [])
    (ColumnRef [StringNode "id"] 30) (ParamRef 0 35) = Panic.
Proof.
  assert (Hn : - 2 ^ 63 < 0 <= 0) by lia.
  split; [exact Hn|].
  exact (typeCheck_parameter_below_one_panics scenarioState
           (testCall "select id from users where id = $0" ["int"])
           (mkScope scenarioCatalog [usersTable] [EmptyString] [])
           [StringNode "id"] 30 0 35 "" "" "id" 0%nat (intColumn "id")
           eq_refl eq_refl eq_refl Hn).
Defined.

Lemma stringsSplit_dotted (sep : ascii) (s : string) :
  (1 < length (stringsSplit sep s))%nat -> containsByte sep s = true.
Proof.
  intros H. destruct (containsByte sep s) eqn:E; [reflexivity|].
  rewrite (stringsSplit_plain _ _ E) in H. simpl in H. lia.
Qed.

(** X11 -- what [typeCheck] reports is real.  It reports only when one
    operand is a column reference and the other a parameter, and [Scope.get],
    asked for the schema, table and column that this reference names,
    answers [scopeRetOk] with a column; a type mismatch then carries those
    names, the driver and database types of that column and the number and
    place of that parameter, and it says ["<none>"] when the call has no
    argument for the parameter, and otherwise the type of that argument, which
    then differs from the driver type.  The only other report is the failed
    package lookup, for a driver type with a dot in it.  So for a reference to
    a column that is unknown or ambiguous, or to an output name that stands
    for an expression, it reports nothing. *)
Theorem typeCheck_reports_real_mismatches (s : State) (fn : Call) (scope : Scope)
  (lhs rhs : Node) (e : GoError) :
  typeCheck s fn scope lhs rhs = Done (Some e) ->
  exists fields l number pl schema table offset column c,
    (lhs = ColumnRef fields l /\ rhs = ParamRef number pl \/
     lhs = ParamRef number pl /\ rhs = ColumnRef fields l) /\
    qualifiers fields = Done (schema, table, offset) /\
    fields !! offset = Some (StringNode column) /\
    get scope schema table column = Done (Some c, scopeRetOk) /\
    (e = TypeErr schema table column "<none>" (col_Type c) (col_DBType c) number pl fn /\
     Z.of_nat (length (ArgTypes fn)) <= wrapInt (number - 1)
     \/
     (exists argType,
        e = TypeErr schema table column argType (col_Type c) (col_DBType c) number pl fn /\
        ArgTypes fn !! Z.to_nat (wrapInt (number - 1)) = Some argType /\
        argType <> col_Type c)
     \/
     e = ErrorString ("failed to lookup package for driver type: " ++ col_Type c)%string /\
     containsByte dot (col_Type c) = true).
Proof.
  intros H.
  assert (Hshape : exists fields l number pl,
            (lhs = ColumnRef fields l /\ rhs = ParamRef number pl \/
             lhs = ParamRef number pl /\ rhs = ColumnRef fields l)).
  { destruct lhs, rhs; try discriminate H; eauto 10. }
  destruct Hshape as (fields & l & number & pl & Hshape).
  assert (Hcol : typeCheck s fn scope (ColumnRef fields l) (ParamRef number pl)
                 = Done (Some e)).
  { destruct Hshape as [[-> ->]|[-> ->]]; [exact H|].
    rewrite typeCheck_operands_commute_aux. exact H. }
  clear H. unfold typeCheck in Hcol. cbn [isNil orb] in Hcol.
  apply obind_Done in Hcol. destruct Hcol as ([[schema table] offset] & Hq & Hcol).
  apply obind_Done in Hcol. destruct Hcol as (column & Hf & Hcol).
  apply obind_Done in Hcol. destruct Hcol as ([found ret] & Hget & Hcol).
  destruct (Z.eqb_spec ret scopeRetOk) as [->|]; cbn [negb] in Hcol; [|discriminate].
  destruct found as [c|]; [|discriminate].
  exists fields, l, number, pl, schema, table, offset, column, c.
  split; [exact Hshape|]. split; [exact Hq|].
  split; [destruct (fields !! offset) as [[]|]; try discriminate Hf;
          injection Hf as ->; reflexivity|].
  split; [exact Hget|].
  destruct (Z.geb_spec (wrapInt (number - 1)) (Z.of_nat (length (ArgTypes fn))))
    as [Hge|Hlt].
  { injection Hcol as <-. left. split; [reflexivity | lia]. }
  apply obind_Done in Hcol. destruct Hcol as (argType & Harg & Hcol).
  apply obind_Done in Hcol. destruct Hcol as (failed & Hfailed & Hcol).
  destruct (wrapInt (number - 1) <? 0); [discriminate|].
  destruct (ArgTypes fn !! Z.to_nat (wrapInt (number - 1))) as [argType'|] eqn:Earg;
    [|discriminate].
  injection Harg as ->.
  destruct failed.
  - injection Hcol as <-. right. right. split; [reflexivity|].
    destruct (Nat.ltb_spec 1 (length (stringsSplit dot (col_Type c)))) as [Hlen|Hlen];
      [|discriminate].
    apply stringsSplit_dotted. exact Hlen.
  - destruct (String.eqb_spec argType (col_Type c)) as [E|E]; cbn [negb] in Hcol;
      [discriminate|].
    injection Hcol as <-. right. left. exists argType. auto.
Qed.

Lemma typeCheck_reports_real_mismatches_witness :
  let fn := testCall "select id from users where $1 = id" ["string"] in
  let scope := mkScope scenarioCatalog [usersTable] [EmptyString] [] in
  exists fields l number pl schema table offset column c,
    (ParamRef 1 27 = ColumnRef fields l /\
     ColumnRef [StringNode "id"] 32 = ParamRef number pl \/
     ParamRef 1 27 = ParamRef number pl /\
     ColumnRef [StringNode "id"] 32 = ColumnRef fields l) /\
    qualifiers fields = Done (schema, table, offset) /\
    fields !! offset = Some (StringNode column) /\
    get scope schema table column = Done (Some c, scopeRetOk) /\
    (TypeErr "" "" "id" "string" "int" "integer" 1 27 fn
     = TypeErr schema table column "<none>" (col_Type c) (col_DBType c) number pl fn /\
     Z.of_nat (length (ArgTypes fn)) <= wrapInt (number - 1)
     \/
     (exists argType,
        TypeErr "" "" "id" "string" "int" "integer" 1 27 fn
        = TypeErr schema table column argType (col_Type c) (col_DBType c) number pl fn /\
        ArgTypes fn !! Z.to_nat (wrapInt (number - 1)) = Some argType /\
        argType <> col_Type c)
     \/
     TypeErr "" "" "id" "string" "int" "integer" 1 27 fn
     = ErrorString ("failed to lookup package for driver type: " ++ col_Type c)%string /\
     containsByte dot (col_Type c) = true).
Proof.
  intros fn scope.
  exact (typeCheck_reports_real_mismatches scenarioState fn scope
           (ParamRef 1 27) (ColumnRef [StringNode "id"] 32)
           (TypeErr "" "" "id" "string" "int" "integer" 1 27 fn) eq_refl).
Defined.

(** ** What the checker reports *)

Lemma typeCheck_errorOf st fn scope lhs rhs e :
  typeCheck st fn scope lhs rhs = Done (Some e) -> errorOf fn e.
Proof.
  unfold typeCheck. intros H.
  destruct (isNil lhs || isNil rhs); [discriminate|].
  destruct (match rhs with
            | ColumnRef f _ => Some f
            | _ => match lhs with ColumnRef f _ => Some f | _ => None end
            end) as [fields|]; [|discriminate].
  destruct (match rhs with
            | ParamRef n l => Some (n, l)
            | _ => match lhs with ParamRef n l => Some (n, l) | _ => None end
            end) as [[number plocation]|]; [|discriminate].
  bind_inv H. destruct a as [[schema table] offset].
  bind_inv H. bind_inv H. destruct a0 as [found ret].
  destruct (negb (ret =? scopeRetOk)); [discriminate|].
  destruct found as [c|]; [|discriminate].
  destruct (wrapInt (number - 1) >=? Z.of_nat (length (ArgTypes fn))).
  { injection H as <-. reflexivity. }
  bind_inv H. bind_inv H. destruct a1.
  { injection H as <-. exact I. }
  destruct (negb (String.eqb a0 (col_Type c))); [|discriminate].
  injection H as <-. reflexivity.
Qed.

Section Attribution.
Variable fn : Call.

Lemma identErr_errorOf schema table column location :
  errorOf fn (IdentErr 0 schema table column location fn).
Proof. split; [reflexivity | left; reflexivity]. Qed.

Lemma descendEach_errorOf rec items : attributes fn rec ->
  forall errs scope r, Forall (errorOf fn) errs ->
    descendEach rec items errs scope = Done r -> Forall (errorOf fn) (fst r).
Proof.
  intros Hrec. induction items as [|n items IH]; simpl; intros errs scope r He H.
  - injection H as <-. exact He.
  - bind_inv H. eapply IH; [|exact H]. apply Forall_app. split; [exact He|].
    eapply Hrec. exact Ha.
Qed.

Lemma pushRelation_errorOf schema table alias location s errs n s' errs' n' :
  Forall (errorOf fn) errs ->
  pushRelation fn schema table alias location s errs n = (s', errs', n') ->
  Forall (errorOf fn) errs'.
Proof.
  unfold pushRelation. intros He H.
  destruct (pushTable schema table alias s) as [[] s1]; injection H as _ <- _.
  - exact He.
  - apply Forall_app. split; [exact He|].
    constructor; [apply identErr_errorOf | constructor].
Qed.

Lemma pushStatementTable_errorOf rel scope s1 errs1 n1 :
  pushStatementTable fn rel scope = Done (s1, errs1, n1) -> Forall (errorOf fn) errs1.
Proof.
  unfold pushStatementTable. intros H. bind_inv H. bind_inv H. bind_inv H.
  injection H as H. eapply pushRelation_errorOf; [|exact H]. constructor.
Qed.

Lemma fromLoop_errorOf recN recS : attributes fn recN -> attributesSelect fn recS ->
  forall k stack scope errs n scope' errs' n',
    Forall (errorOf fn) errs ->
    fromLoop recN recS fn k stack scope errs n = Done (scope', errs', n') ->
    Forall (errorOf fn) errs'.
Proof.
  intros HrecN HrecS.
  induction k as [|k IH]; intros stack scope errs n scope' errs' n' He H.
  - destruct stack; simpl in H; [|discriminate]. injection H as _ <- _. exact He.
  - destruct stack as [|popped stack]; simpl in H.
    { injection H as _ <- _. exact He. }
    destruct popped; try discriminate.
    + bind_inv H. eapply IH; [|exact H]. apply Forall_app. split; [exact He|].
      eapply HrecN. exact Ha.
    + bind_inv H. eapply IH; [|exact H]. apply Forall_app. split; [exact He|].
      eapply HrecN. exact Ha.
    + bind_inv H. destruct a as [[s1 e1] n1].
      unfold addTable in Ha. bind_inv Ha. bind_inv Ha. injection Ha as Ha.
      eapply IH; [|exact H]. eapply pushRelation_errorOf; eassumption.
    + eapply IH; eassumption.
    + destruct SubAlias as [al|]; [|discriminate].
      destruct popped; try discriminate.
      bind_inv H. destruct (fst a) as [subSelMap subSelectErrs] eqn:Ea.
      bind_inv H. eapply IH; [|exact H]. apply Forall_app. split; [exact He|].
      apply HrecS in Ha. rewrite Ea in Ha. exact Ha.
Qed.

Lemma targetStep_errorOf scope item addRefs errs r :
  Forall (errorOf fn) errs ->
  targetStep fn scope item addRefs errs = Done r -> Forall (errorOf fn) (snd r).
Proof.
  intros He H. destruct item as [| | | | | | | | | | |tname val loc| | | | | | | |];
    try discriminate. simpl in H.
  destruct val; try (injection H as <-; exact He).
  bind_inv H. bind_inv H. bind_inv H. bind_inv H. bind_inv H.
  destruct (negb (snd a3 =? scopeRetOk)).
  - injection H as <-. simpl. apply Forall_app. split; [exact He|].
    constructor; [apply identErr_errorOf | constructor].
  - bind_inv H. injection H as <-. exact He.
Qed.

Lemma targetLoop_errorOf scope items : forall addRefs errs r,
  Forall (errorOf fn) errs ->
  targetLoop fn scope items addRefs errs = Done r -> Forall (errorOf fn) (snd r).
Proof.
  induction items as [|item items IH]; simpl; intros addRefs errs r He H.
  - injection H as <-. exact He.
  - bind_inv H. eapply IH; [|exact H]. eapply targetStep_errorOf; eassumption.
Qed.

Lemma checkSelectBody_errorOf recN recS k scope sel r :
  attributes fn recN -> attributesSelect fn recS ->
  checkSelectBody recN recS k fn scope sel = Done r -> Forall (errorOf fn) (snd (fst r)).
Proof.
  intros HrecN HrecS H. destruct sel as [larg rarg from wher having targets group sort].
  unfold checkSelectBody in H.
  assert (Hmain :
    (do st <- fromLoop recN recS fn k (List.rev from) scope [] 0%nat;
     let '(scope1, errs1, nTables) := st in
     do r2 <- recN scope1 wher;
     do r3 <- recN (snd r2) having;
     do tl <- targetLoop fn (snd r3) targets [] ((errs1 ++ fst r2) ++ fst r3)%list;
     let '(addRefs, errs4) := tl in
     let scope4 := pushOutputNames addRefs (snd r3) in
     do r5 <- descendEach recN group errs4 scope4;
     do r6 <- descendEach recN sort (fst r5) (snd r5);
     do scope7 <- popOutputNames (length addRefs) (snd r6);
     do scope8 <- popTables nTables scope7;
     Done ((addRefs, fst r6), scope8)) = Done r -> Forall (errorOf fn) (snd (fst r))).
  { clear H. intros H. bind_inv H. destruct a as [[scope1 errs1] nTables].
    apply (fromLoop_errorOf _ _ HrecN HrecS) in Ha; [|constructor].
    bind_inv H. apply HrecN in Ha0. bind_inv H. apply HrecN in Ha1.
    bind_inv H. destruct a1 as [addRefs errs4].
    apply targetLoop_errorOf in Ha2;
      [|apply Forall_app; split; [apply Forall_app; split|]; assumption].
    bind_inv H. apply (descendEach_errorOf _ _ HrecN) in Ha3; [|exact Ha2].
    bind_inv H. apply (descendEach_errorOf _ _ HrecN) in Ha4; [|exact Ha3].
    bind_inv H. bind_inv H. injection H as <-. exact Ha4. }
  destruct larg as [l|]; [destruct rarg as [r'|]|]; auto.
  bind_inv H. bind_inv H. injection H as <-. simpl.
  apply Forall_app. split; eapply HrecN; eassumption.
Qed.

Lemma checkCallRecurseBody_errorOf recN recS st scope n r :
  attributes fn recN -> attributesSelect fn recS ->
  checkCallRecurseBody recN recS st fn scope n = Done r -> Forall (errorOf fn) (fst r).
Proof.
  intros HrecN HrecS H. destruct n; simpl in H;
    try (injection H as <-; constructor); try discriminate.
  - (* ColumnRef *)
    bind_inv H. destruct a as [[schema table] offset].
    destruct (Fields !! offset) as [[]|]; try discriminate.
    + bind_inv H. destruct (negb _); injection H as <-; [|constructor].
      constructor; [|constructor]. split; [reflexivity|].
      destruct (a =? scopeRetUnknown); [left; reflexivity|].
      destruct (a =? scopeRetAmbiguous); [right | left]; reflexivity.
    + injection H as <-; constructor.
  - (* A_Expr *)
    bind_inv H. bind_inv H. bind_inv H. apply HrecN in Ha, Ha0.
    destruct a1 as [e|]; injection H as <-; simpl.
    + apply typeCheck_errorOf in Ha1.
      apply Forall_app. split; [apply Forall_app; split; assumption|].
      constructor; [exact Ha1 | constructor].
    + apply Forall_app; split; assumption.
  - (* BoolExpr *) eapply descendEach_errorOf; [eassumption | constructor | eassumption].
  - (* FuncCall *) eapply descendEach_errorOf; [eassumption | constructor | eassumption].
  - (* SortBy *) eapply HrecN; eassumption.
  - (* SubLink *) eapply HrecN; eassumption.
  - (* ResTarget *)
    bind_inv H.
    assert (He : Forall (errorOf fn) a).
    { destruct TargetName as [c|]; [|injection Ha as <-; constructor].
      bind_inv Ha. destruct (a0 =? scopeRetUnknown); injection Ha as <-;
        [|constructor].
      constructor; [apply identErr_errorOf | constructor]. }
    destruct (isNil n).
    + injection H as <-. exact He.
    + bind_inv H. injection H as <-. simpl. apply Forall_app. split; [exact He|].
      eapply HrecN; eassumption.
  - (* SelectStmtNode *)
    bind_inv H. injection H as <-. simpl. eapply HrecS; eassumption.
  - (* UpdateStmt *)
    unfold checkUpdate in H. bind_inv H. destruct a as [[s1 e1] n1].
    apply pushStatementTable_errorOf in Ha.
    bind_inv H. apply (descendEach_errorOf _ _ HrecN) in Ha0; [|exact Ha].
    bind_inv H. apply HrecN in Ha1. bind_inv H. injection H as <-. simpl.
    apply Forall_app; split; assumption.
  - (* InsertStmt *)
    unfold checkInsert in H. bind_inv H. destruct a as [[s1 e1] n1].
    apply pushStatementTable_errorOf in Ha.
    bind_inv H. apply (descendEach_errorOf _ _ HrecN) in Ha0; [|exact Ha].
    bind_inv H. injection H as <-. exact Ha0.
  - (* DeleteStmt *)
    unfold checkDelete in H. bind_inv H. destruct a as [[s1 e1] n1].
    apply pushStatementTable_errorOf in Ha.
    bind_inv H. apply HrecN in Ha0. bind_inv H. injection H as <-. simpl.
    apply Forall_app; split; assumption.
Qed.

Lemma checker_errorOf st : forall fuel,
  attributes fn (checkCallRecurse fuel st fn) /\ attributesSelect fn (checkSelect fuel st fn).
Proof.
  induction fuel as [|fuel [IHn IHs]].
  - split; intros scope n r H; discriminate H.
  - split.
    + intros scope n r H. rewrite checkCallRecurse_S in H.
      eapply checkCallRecurseBody_errorOf; eassumption.
    + intros scope sel r H. rewrite checkSelect_S in H.
      eapply checkSelectBody_errorOf; eassumption.
Qed.

Lemma checkCall_errorOf st statements : forall errs,
  checkCall st fn statements = Done errs -> Forall (errorOf fn) errs.
Proof.
  induction statements as [|stmt rest IH]; simpl; intros errs H.
  - injection H as <-. constructor.
  - bind_inv H. bind_inv H. injection H as <-.
    apply Forall_app. split; [|auto].
    eapply (proj1 (checker_errorOf st _)). exact Ha.
Qed.

End Attribution.

(** X12 -- every diagnostic is made for a call that was checked: the
    identifier errors, type errors and parse errors that [checkCalls] returns
    each carry one of the calls given, an identifier error is of kind
    [Unknown] or [Ambiguous], and the only diagnostic without a call is the
    failed package lookup of [typeCheck], made with [fmt.Errorf]. *)
Theorem checkCalls_errors_carry_their_call
  (parse : string -> list Node * option string) (st : State) (fns : list Call)
  (errs : list GoError) :
  checkCalls parse st fns = Done errs ->
  Forall (fun e => exists fn, In fn fns /\ errorOf fn e) errs /\
  Forall (fun e => forall fn, callOf e = Some fn -> In fn fns) errs.
Proof.
  intros H.
  assert (Hall : Forall (fun e => exists fn, In fn fns /\ errorOf fn e) errs).
  { revert errs H. induction fns as [|fn fns IH]; simpl; intros errs H.
    - injection H as <-. constructor.
    - destruct (parse (SQL fn)) as [tree err].
      bind_inv H. bind_inv H. injection H as <-.
      apply checkCall_errorOf in Ha.
      apply Forall_app. split; [apply Forall_app; split|].
      + destruct err; [|constructor].
        constructor; [|constructor]. exists fn. split; [left|]; reflexivity.
      + eapply List.Forall_impl; [|exact Ha]. intros e He. exists fn. auto.
      + eapply List.Forall_impl; [|apply IH; exact Ha0].
        intros e (f & Hin & He). exists f. auto. }
  split; [exact Hall|].
  eapply List.Forall_impl; [|exact Hall].
  intros e (f & Hin & He) fn Hc.
  destruct e as [k ? ? ? ? g|? ? ? ? ? ? ? ? g|? g|?]; simpl in *;
    try discriminate; injection Hc as <-.
  - destruct He as [-> _]. exact Hin.
  - subst. exact Hin.
  - subst. exact Hin.
Qed.

Lemma checkCalls_errors_carry_their_call_witness :
  let fn := testCall ambiguousSQL [] in
  checkCalls scenarioParse scenarioState [fn]
  = Done [IdentErr Unknown "" "" "id" 7 fn] /\
  Forall (fun e => forall f, callOf e = Some f -> In f [fn])
         [IdentErr Unknown "" "" "id" 7 fn].
Proof.
  intros fn.
  assert (H : checkCalls scenarioParse scenarioState [fn]
              = Done [IdentErr Unknown "" "" "id" 7 fn]) by (vm_compute; reflexivity).
  split; [exact H|].
  exact (proj2 (checkCalls_errors_carry_their_call scenarioParse scenarioState [fn] _ H)).
Defined.

Lemma checkCall_app st fn l1 : forall l2,
  checkCall st fn (l1 ++ l2)
  = (do e1 <- checkCall st fn l1; do e2 <- checkCall st fn l2; Done (e1 ++ e2)%list).
Proof.
  induction l1 as [|stmt l1 IH]; intros l2.
  - simpl. destruct (checkCall st fn l2); reflexivity.
  - cbn [checkCall List.app]. rewrite IH.
    destruct (checkCallRecurse _ st fn _ _) as [r| |]; cbn [obind]; try reflexivity.
    destruct (checkCall st fn l1) as [e1| |]; cbn [obind]; try reflexivity.
    destruct (checkCall st fn l2) as [e2| |]; cbn [obind]; try reflexivity.
    rewrite app_assoc. reflexivity.
Qed.

(** X13 -- nothing carries over from one call to the next, nor from one
    statement to the next: the diagnostics of a list of calls are those of its
    first part followed by those of the rest, and likewise for the statements
    of one call, each of which is checked in a scope of its own; a panic in
    either part is a panic of the whole. *)
Theorem checkCalls_checks_each_on_its_own
  (parse : string -> list Node * option string) (st : State) (fn : Call)
  (fns1 fns2 : list Call) (stmts1 stmts2 : list Node) :
  checkCalls parse st (fns1 ++ fns2)
  = (do e1 <- checkCalls parse st fns1;
     do e2 <- checkCalls parse st fns2;
     Done (e1 ++ e2)%list) /\
  checkCall st fn (stmts1 ++ stmts2)
  = (do e1 <- checkCall st fn stmts1;
     do e2 <- checkCall st fn stmts2;
     Done (e1 ++ e2)%list).
Proof.
  split; [|apply checkCall_app].
  induction fns1 as [|f fns1 IH].
  - simpl. destruct (checkCalls parse st fns2); reflexivity.
  - cbn [checkCalls List.app]. rewrite IH.
    destruct (parse (SQL f)) as [tree err].
    destruct (checkCall st f tree) as [e| |]; cbn [obind]; try reflexivity.
    destruct (checkCalls parse st fns1) as [e1| |]; cbn [obind]; try reflexivity.
    destruct (checkCalls parse st fns2) as [e2| |]; cbn [obind]; try reflexivity.
    rewrite app_assoc. reflexivity.
Qed.

(** ** The column list of an [insert] *)

Lemma findColumn_filter column cs :
  findColumn column cs = None ->
  List.filter (fun c => String.eqb (col_Name c) column) cs = [].
Proof.
  induction cs as [|c cs IH]; simpl; [reflexivity|].
  destruct (String.eqb (col_Name c) column); [discriminate | exact IH].
Qed.

Lemma has_unknown_without_output_names s schema column :
  outputNames s = [] ->
  exists st, has s schema EmptyString column = Done st /\
    (st =? scopeRetUnknown)
    = match findColumn column (columnsInScope (tables s)) with
      | Some _ => false
      | None => true
      end.
Proof.
  intros Ho. unfold has. rewrite get_without_table_spec, Ho.
  cbn [findOutputName]. unfold occurrences.
  destruct (findColumn column (columnsInScope (tables s))) as [c|] eqn:Ec.
  - destruct (Nat.leb 2 _); cbn [obind snd]; eexists; split; reflexivity.
  - rewrite (findColumn_filter _ _ Ec). simpl. eexists; split; reflexivity.
Qed.

Lemma checkCallRecurse_insert_target fuel st fn scope c loc :
  outputNames scope = [] ->
  checkCallRecurse (S fuel) st fn scope (ResTarget (Some c) NilNode loc)
  = Done (missingColumns fn (columnsInScope (tables scope)) [(c, loc)], scope).
Proof.
  intros Ho. rewrite checkCallRecurse_S. cbn [checkCallRecurseBody isNil].
  destruct (has_unknown_without_output_names scope EmptyString c Ho) as (st' & -> & E).
  cbn [obind]. rewrite E. unfold missingColumns. cbn [flat_map fst snd].
  destruct (findColumn c (columnsInScope (tables scope))); reflexivity.
Qed.

Lemma descendEach_insertColumns fuel st fn scope cols :
  outputNames scope = [] ->
  (cols <> [] -> (1 <= fuel)%nat) ->
  forall errs,
    descendEach (checkCallRecurse fuel st fn) (insertColumns cols) errs scope
    = Done ((errs ++ missingColumns fn (columnsInScope (tables scope)) cols)%list, scope).
Proof.
  intros Ho Hfuel. induction cols as [|[c loc] cols IH]; intros errs.
  - simpl. rewrite app_nil_r. reflexivity.
  - destruct fuel as [|fuel]; [assert (1 <= 0)%nat by (apply Hfuel; discriminate); lia|].
    cbn [insertColumns List.map descendEach fst snd].
    rewrite checkCallRecurse_insert_target by exact Ho. cbn [obind fst snd].
    change (List.map _ cols) with (insertColumns cols).
    rewrite IH by (intros _; lia).
    unfold missingColumns. cbn [flat_map]. rewrite app_nil_r, app_assoc. reflexivity.
Qed.

Lemma nodeSizes_insertColumns cols : nodeSizes (insertColumns cols) = (2 * length cols)%nat.
Proof. induction cols as [|c cols IH]; simpl in *; [reflexivity | lia]. Qed.

(** X14 -- an [insert] into a table of the catalog is reported for exactly
    those names of its column list that no column of the table has, each as an
    unknown identifier at the place of the name, in the order of the list; when
    the table is not in the catalog, the table is reported at its place, and
    then every name of the list. *)
Theorem checkInsert_reports_missing_columns (st : State) (fn : Call)
  (rel : RangeVarData) (table alias : string) (cols : list (string * Z)) :
  Relname rel = Some table ->
  aliasOf (RangeAlias rel) = Done alias ->
  checkCall st fn [RawStmt (InsertStmt (Some rel) (insertColumns cols))]
  = Done (match lookupTable (orEmpty (Schemaname rel)) table (Tables (StateDBInfo st)) with
          | Some t => missingColumns fn (Columns t) cols
          | None =>
              IdentErr Unknown (orEmpty (Schemaname rel)) table EmptyString
                       (RangeLocation rel) fn
              :: missingColumns fn [] cols
          end).
Proof.
  intros Hrel Halias. cbn [checkCall].
  rewrite nodeSize_InsertStmt, checkCallRecurse_S. cbn [checkCallRecurseBody].
  unfold checkInsert, pushStatementTable. cbn [deref obind].
  rewrite Halias, Hrel. cbn [deref obind].
  unfold pushRelation, pushTable. cbn [NewScope info].
  assert (Hfuel : cols <> [] -> (1 <= nodeSizes (insertColumns cols))%nat).
  { rewrite nodeSizes_insertColumns. destruct cols; [congruence | simpl; lia]. }
  destruct (lookupTable (orEmpty (Schemaname rel)) table (Tables (StateDBInfo st)))
    as [t|].
  - rewrite descendEach_insertColumns by (reflexivity || exact Hfuel).
    simpl. unfold columnsInScope. simpl. rewrite ?app_nil_r. reflexivity.
  - rewrite descendEach_insertColumns by (reflexivity || exact Hfuel).
    simpl. rewrite ?app_nil_r. reflexivity.
Qed.

Lemma checkInsert_reports_missing_columns_witness :
  let fn := testCall "insert into users (id, nickname) values ($1, $2)" [] in
  let rel := mkRangeVar None (Some "users") None 12 in
  checkCall scenarioState fn
    [RawStmt (InsertStmt (Some rel) (insertColumns [("id", 19); ("nickname", 23)]))]
  = Done [IdentErr Unknown "" "" "nickname" 23 fn].
Proof.
  intros fn rel.
  exact (checkInsert_reports_missing_columns scenarioState fn rel "users" ""
           [("id", 19); ("nickname", 23)] eq_refl eq_refl).
Defined.

(** ** More on the call-site resolver *)

Lemma tagWhitelisted_exclusive types f i args r :
  tagWhitelisted types f i args = Done r ->
  (exists call, r = (Some call, None)) \/ (exists w, r = (None, Some w)).
Proof.
  unfold tagWhitelisted. intros H. bind_inv H. bind_inv H.
  destruct a0 as [sql|w]; [|injection H as <-; eauto].
  destruct (argTypesFrom _ _ _ _ _) as [tys|w]; injection H as <-; eauto.
Qed.

Lemma firstCallOf_exclusive types args : forall r,
  firstCallOf types args = Done r -> snd r = None.
Proof.
  induction args as [|a args IH]; intros r H.
  - injection H as <-. reflexivity.
  - rewrite firstCallOf_cons in H. bind_inv H.
    destruct (fst a0); [injection H as <-; reflexivity | auto].
Qed.

Lemma tagCall_exclusive types : forall n node r,
  (goSize node < n)%nat ->
  tagCall types node = Done r ->
  match r with
  | (Some _, Some _) => False
  | _ => True
  end.
Proof.
  induction n as [|n IH]; intros node r Hsize H; [lia|].
  destruct node as [i nm obj|i x sel|i fn args|i x|i init rest|i lhs rhs|i children].
  - injection H as <-. exact I.
  - injection H as <-. exact I.
  - rewrite tagCall_CallExpr in H. rewrite goSize_CallExpr in Hsize.
    bind_inv H. destruct a as [f|].
    + apply tagWhitelisted_exclusive in H. destruct H as [[c ->]|[w ->]]; exact I.
    + assert (Hargs : firstCallOf types args = Done r ->
                      match r with (Some _, Some _) => False | _ => True end).
      { intros Hf. apply firstCallOf_exclusive in Hf. destruct r as [[c|] [w|]];
          simpl in Hf; try discriminate; exact I. }
      destruct fn as [| ? x ?| | | | |]; try (apply Hargs; exact H).
      destruct x; try (apply Hargs; exact H).
      eapply IH; [|exact H].
      match type of Hsize with
      | context [goSize (SelectorExpr ?a ?b ?c)] =>
          change (goSize (SelectorExpr a b c)) with (S (goSize b)) in Hsize
      end. lia.
  - change (tagCall types x = Done r) in H. eapply IH; [|exact H].
    change (goSize (ExprStmt i x)) with (S (goSize x)) in Hsize. lia.
  - simpl in H. destruct init as [s|]; [|injection H as <-; exact I].
    eapply IH; [|exact H]. rewrite goSize_IfStmt in Hsize. lia.
  - simpl in H. destruct rhs as [|r0 rhs]; [discriminate|].
    eapply IH; [|exact H]. rewrite goSize_AssignStmt in Hsize. simpl in Hsize. lia.
  - injection H as <-. exact I.
Qed.

(** X15 -- a tagged statement is never passed over in silence: the descent
    into it gives a call and no warning, or no call and the warning that
    neither function nor constant was found, at the position of the
    statement, preceded by the reason when the descent had one.  The descent
    itself never answers with both a call and a reason. *)
Theorem tagNode_call_or_warning (types : TypesMap) (node : GoNode)
  (call : option Call) (warns : list Warn) :
  tagNode types node = Done (call, warns) ->
  let notFound :=
    mkWarn "failed to find either function or constant after sqlboiler:check tag"
           (npos (infoOf node)) in
  (exists c, call = Some c /\ warns = [] /\ tagCall types node = Done (Some c, None)) \/
  (call = None /\
   (warns = [notFound] /\ tagCall types node = Done (None, None) \/
    exists w, warns = [mkWarn (WarnError w) (npos (infoOf node)); notFound] /\
              tagCall types node = Done (None, Some w))).
Proof.
  unfold tagNode. intros H. bind_inv H.
  pose proof (tagCall_exclusive types _ node a (Nat.lt_succ_diag_r _) Ha) as Hex.
  destruct a as [[c|] [w|]]; try contradiction; simpl in H; injection H as <- <-.
  - left. eauto.
  - right. split; [reflexivity|]. right. eauto.
  - right. split; [reflexivity|]. left. auto.
Qed.

Lemma tagNode_call_or_warning_witness :
  exists w,
    [mkWarn (WarnError (mkWarn ("argument " ++ quoted "one"
                                  ++ " to sql function is not a constant") (hostPos 43)))
            (npos (infoOf execVarStmt));
     mkWarn "failed to find either function or constant after sqlboiler:check tag"
            (npos (infoOf execVarStmt))]
    = [mkWarn (WarnError w) (npos (infoOf execVarStmt));
       mkWarn "failed to find either function or constant after sqlboiler:check tag"
              (npos (infoOf execVarStmt))] /\
    tagCall testTypes execVarStmt = Done (None, Some w).
Proof.
  destruct (tagNode_call_or_warning testTypes execVarStmt None
              [mkWarn (WarnError (mkWarn ("argument " ++ quoted "one"
                                  ++ " to sql function is not a constant") (hostPos 43)))
                      (npos (infoOf execVarStmt));
               mkWarn "failed to find either function or constant after sqlboiler:check tag"
                      (npos (infoOf execVarStmt))] eq_refl)
    as [(c & Hc & _)|[_ [[Hw _]|Hw]]].
  - discriminate Hc.
  - discriminate Hw.
  - exact Hw.
Defined.

Lemma matchConstant_nil nm obj : matchConstant nm obj [] = Done None.
Proof. reflexivity. Qed.

Lemma findConstArg_nil : forall args i found,
  findConstArg [] i args found = Done found.
Proof.
  induction args as [|a args IH]; intros i found; [reflexivity|].
  destruct a; simpl; apply IH.
Qed.

Lemma walk_no_constants types : forall n node acc,
  (goSize node < n)%nat -> walk types [] node acc = Done acc.
Proof.
  induction n as [|n IH]; intros node acc Hsize; [lia|].
  assert (Hwalk : forall l a, (goSizes l < n)%nat -> walkList types [] l a = Done a).
  { intros l. induction l as [|x l IHl]; intros a Hl; [reflexivity|].
    change (goSizes (x :: l)) with (goSize x + goSizes l)%nat in Hl.
    rewrite walkList_cons, IH by lia. cbn [obind]. apply IHl. lia. }
  destruct node as [i nm obj|i x sel|i fn args|i x|i init rest|i lhs rhs|i children].
  - reflexivity.
  - change (goSize (SelectorExpr i x sel)) with (S (goSize x)) in Hsize.
    change (walk types [] (SelectorExpr i x sel) acc) with (walk types [] x acc).
    apply IH. lia.
  - rewrite walk_CallExpr. rewrite goSize_CallExpr in Hsize.
    unfold visitCall. rewrite findConstArg_nil. cbn [obind fst snd].
    rewrite IH by lia. cbn [obind]. apply Hwalk. lia.
  - change (goSize (ExprStmt i x)) with (S (goSize x)) in Hsize.
    change (walk types [] (ExprStmt i x) acc) with (walk types [] x acc).
    apply IH. lia.
  - rewrite walk_IfStmt. rewrite goSize_IfStmt in Hsize.
    destruct init as [s|].
    + rewrite IH by lia. cbn [obind]. apply Hwalk. lia.
    + cbn [obind]. apply Hwalk. lia.
  - rewrite walk_AssignStmt. rewrite goSize_AssignStmt in Hsize.
    rewrite Hwalk by lia. cbn [obind]. apply Hwalk. lia.
  - rewrite walk_OtherGoNode. rewrite goSize_OtherGoNode in Hsize.
    apply Hwalk. lia.
Qed.

(** X16 -- with no tagged constant the scan of a file for uses of tagged
    constants records no call and no warning, and it does not fail, whatever
    the file contains. *)
Theorem tagCallsByConstant_without_constants (types : TypesMap) (file : GoNode) :
  tagCallsByConstant types file [] = Done ([], []).
Proof.
  unfold tagCallsByConstant. apply (walk_no_constants types (S (goSize file))). lia.
Qed.

(** ** Tagged declarations *)

(** The tagged [var one] of the test package is refused, the tagged
    [const two] is recorded with its value. *)
Example test_tagged_var :
  tagConstants hostTypes varOneDecl
  = Done ([], [mkWarn "tagged declaration was not a constant" (hostPos 11)]).
Proof. reflexivity. Qed.

Example test_tagged_const :
  tagConstants hostTypes constTwoDecl = Done ([twoConstant], []).
Proof. vm_compute. reflexivity. Qed.

Lemma constantOf_shift types valSpec i nm names c :
  constantOf types valSpec (S i) names c -> constantOf types valSpec i (nm :: names) c.
Proof.
  intros (H1 & H2 & H3 & j & nm' & v & Hj & Hn & Hv & Hs).
  repeat (split; [assumption|]). exists (S j), nm', v.
  replace (i + S j)%nat with (S i + j)%nat by lia. auto.
Qed.

Lemma valuesPresent_cons valSpec i nm names :
  (mayBeConstant nm = true -> is_Some (Values valSpec !! i)) ->
  valuesPresent valSpec (S i) names -> valuesPresent valSpec i (nm :: names).
Proof.
  intros Hhere Hrest [|j] nm' Hj Hm; simpl in Hj.
  - injection Hj as <-. rewrite Nat.add_0_r. auto.
  - replace (i + S j)%nat with (S i + j)%nat by lia. eauto.
Qed.

Lemma valueSpecNames_spec types valSpec names : forall i consts warns consts' warns',
  valueSpecNames types valSpec i names consts warns = Done (consts', warns') ->
  exists newC newW,
    consts' = (consts ++ newC)%list /\ warns' = (warns ++ newW)%list /\
    (length newC + length newW = length names)%nat /\
    sublist (List.map ConstName newC) (List.map id_Name names) /\
    Forall (constantOf types valSpec i names) newC /\
    valuesPresent valSpec i names.
Proof.
  induction names as [|nm names IH]; intros i consts warns consts' warns' H.
  - injection H as <- <-. exists [], []. rewrite !app_nil_r.
    repeat split; try constructor. intros j nm' Hj. discriminate Hj.
  - cbn [valueSpecNames] in H.
    assert (Hskip : mayBeConstant nm = false ->
      forall w, valueSpecNames types valSpec (S i) names consts (warns ++ [w])
                = Done (consts', warns') ->
      exists newC newW,
        consts' = (consts ++ newC)%list /\ warns' = (warns ++ newW)%list /\
        (length newC + length newW = length (nm :: names))%nat /\
        sublist (List.map ConstName newC) (List.map id_Name (nm :: names)) /\
        Forall (constantOf types valSpec i (nm :: names)) newC /\
        valuesPresent valSpec i (nm :: names)).
    { intros Hno w Hrest.
      destruct (IH _ _ _ _ _ Hrest) as (newC & newW & -> & -> & Hlen & Hsub & Hall & Hval).
      exists newC, (w :: newW). rewrite <- app_assoc.
      split; [reflexivity|]. split; [reflexivity|]. split; [simpl; lia|].
      split; [simpl; apply sublist_cons; exact Hsub|]. split.
      - eapply List.Forall_impl; [|exact Hall]. intros c. apply constantOf_shift.
      - apply valuesPresent_cons; [congruence | exact Hval]. }
    unfold mayBeConstant in Hskip.
    destruct (match id_Obj nm with
              | Some o => negb (String.eqb (ObjKindString (ObjKindOf o)) "const")
              | None => false
              end) eqn:Eobj.
    { eapply Hskip; [reflexivity | exact H]. }
    destruct (String.eqb_spec (id_Name nm) "_") as [Eblank|Eblank].
    { eapply Hskip; [reflexivity | exact H]. }
    clear Hskip. bind_inv H.
    destruct (Values valSpec !! i) as [v|] eqn:Ev; [|discriminate].
    injection Ha as <-.
    destruct (negb (IsValue (typeOf types v))).
    + destruct (IH _ _ _ _ _ H) as (newC & newW & -> & -> & Hlen & Hsub & Hall & Hval).
      eexists newC, (_ :: newW). rewrite <- app_assoc.
      split; [reflexivity|]. split; [reflexivity|]. split; [simpl; lia|].
      split; [simpl; apply sublist_cons; exact Hsub|]. split.
      * eapply List.Forall_impl; [|exact Hall]. intros c. apply constantOf_shift.
      * apply valuesPresent_cons; [rewrite Ev; eauto | exact Hval].
    + bind_inv H.
      destruct (IH _ _ _ _ _ H) as (newC & newW & -> & -> & Hlen & Hsub & Hall & Hval).
      eexists (_ :: newC), newW. rewrite <- app_assoc.
      split; [reflexivity|]. split; [reflexivity|]. split; [simpl; lia|].
      split; [simpl; apply sublist_skip; exact Hsub|]. split.
      * constructor.
        -- repeat (split; [assumption || reflexivity|]).
           exists 0%nat, nm, v. rewrite Nat.add_0_r. auto.
        -- eapply List.Forall_impl; [|exact Hall]. intros c. apply constantOf_shift.
      * apply valuesPresent_cons; [rewrite Ev; eauto | exact Hval].
Qed.

(** X17 -- [tagValueSpecConstants] gives one result for each declared name:
    a constant or a warning.  The constants keep the order of the names; none
    is the blank identifier; each carries the value spec and its position, and
    as its value the string value of the expression that stands at the index
    of its name.  It returns only if every name that may be a constant (no
    object or that of a constant, not blank) has an expression at its index:
    a name that repeats the expression of the line before makes it panic. *)
Theorem tagValueSpecConstants_pairs_names_with_values (types : TypesMap)
  (valSpec : ValueSpec) (consts : list Constant) (warns : list Warn) :
  tagValueSpecConstants types valSpec = Done (consts, warns) ->
  (length consts + length warns = length (Names valSpec))%nat /\
  sublist (List.map ConstName consts) (List.map id_Name (Names valSpec)) /\
  Forall (fun c =>
    ConstName c <> "_" /\ ValSpec c = addr (vs_info valSpec) /\
    ConstPos c = npos (vs_info valSpec) /\
    exists j nm v,
      Names valSpec !! j = Some nm /\ id_Name nm = ConstName c /\
      Values valSpec !! j = Some v /\
      StringVal (Value (typeOf types v)) = Done (ConstVal c)) consts /\
  (forall j nm, Names valSpec !! j = Some nm -> mayBeConstant nm = true ->
                is_Some (Values valSpec !! j)).
Proof.
  unfold tagValueSpecConstants. intros H.
  destruct (valueSpecNames_spec _ _ _ _ _ _ _ _ H)
    as (newC & newW & -> & -> & Hlen & Hsub & Hall & Hval).
  simpl. repeat (split; [assumption|]). exact Hval.
Qed.

Lemma tagValueSpecConstants_pairs_names_with_values_witness :
  tagValueSpecConstants hostTypes twoValueSpec = Done ([twoConstant], []) /\
  (length [twoConstant] + length (@nil Warn) = length (Names twoValueSpec))%nat /\
  tagValueSpecConstants hostTypes repeatedSpec = Panic.
Proof.
  assert (H : tagValueSpecConstants hostTypes twoValueSpec = Done ([twoConstant], []))
    by (vm_compute; reflexivity).
  split; [exact H|]. split; [|reflexivity].
  exact (proj1 (tagValueSpecConstants_pairs_names_with_values hostTypes twoValueSpec
                  [twoConstant] [] H)).
Defined.

Lemma tagSpecs_spec types specs : forall consts warns consts' warns',
  tagSpecs types specs consts warns = Done (consts', warns') ->
  exists newC newW,
    consts' = (consts ++ newC)%list /\ warns' = (warns ++ newW)%list /\
    (length newC + length newW = namesOf specs)%nat /\
    Forall (fun c => exists valSpec,
              In (ValueSpecOf valSpec) specs /\
              constantOf types valSpec 0 (Names valSpec) c) newC.
Proof.
  induction specs as [|spec specs IH]; intros consts warns consts' warns' H.
  - injection H as <- <-. exists [], []. rewrite !app_nil_r. repeat split. constructor.
  - cbn [tagSpecs] in H. destruct spec as [valSpec|]; [|discriminate].
    bind_inv H. destruct a as [c1 w1].
    unfold tagValueSpecConstants in Ha.
    destruct (valueSpecNames_spec _ _ _ _ _ _ _ _ Ha)
      as (newC1 & newW1 & E1 & E2 & Hlen1 & _ & Hall1 & _).
    simpl in E1, E2. subst c1 w1.
    destruct (IH _ _ _ _ H) as (newC & newW & -> & -> & Hlen & Hall).
    exists (newC1 ++ newC)%list, (newW1 ++ newW)%list.
    cbn [fst snd]. rewrite <- !app_assoc.
    split; [reflexivity|]. split; [reflexivity|].
    split; [rewrite !length_app; simpl; lia|].
    apply Forall_app. split.
    + eapply List.Forall_impl; [|exact Hall1]. intros c Hc. exists valSpec.
      split; [left; reflexivity | exact Hc].
    + eapply List.Forall_impl; [|exact Hall]. intros c (vs & Hin & Hc). exists vs.
      split; [right; exact Hin | exact Hc].
Qed.

(** X18 -- only a [const] declaration gives constants.  A tagged declaration
    with another token ([var], [type], [import]) gives no constant and the one
    warning that it is not a constant, at its position; a [const] declaration
    gives a constant or a warning for every name of its specs, and each
    constant is made of a name of one of its specs and of the string value of
    the expression at the index of that name. *)
Theorem tagConstants_only_const_declarations (types : TypesMap) (genDec : GenDecl)
  (consts : list Constant) (warns : list Warn) :
  tagConstants types genDec = Done (consts, warns) ->
  (Tok genDec <> CONST ->
   consts = [] /\
   warns = [mkWarn "tagged declaration was not a constant" (npos (gd_info genDec))]) /\
  (Tok genDec = CONST ->
   (length consts + length warns = namesOf (Specs genDec))%nat /\
   Forall (fun c => exists valSpec,
             In (ValueSpecOf valSpec) (Specs genDec) /\
             constantOf types valSpec 0 (Names valSpec) c) consts).
Proof.
  unfold tagConstants. intros H. destruct (Tok genDec) eqn:Et.
  2: { apply tagSpecs_spec in H. destruct H as (newC & newW & -> & -> & Hlen & Hall).
       split; [congruence|]. intros _. simpl. auto. }
  all: injection H as <- <-; split; [auto | discriminate].
Qed.

Lemma tagConstants_only_const_declarations_witness :
  tagConstants hostTypes varOneDecl
  = Done ([], [mkWarn "tagged declaration was not a constant" (hostPos 11)]) /\
  Tok varOneDecl <> CONST /\
  @nil Constant = [] /\
  [mkWarn "tagged declaration was not a constant" (hostPos 11)]
  = [mkWarn "tagged declaration was not a constant" (npos (gd_info varOneDecl))].
Proof.
  assert (H : tagConstants hostTypes varOneDecl
              = Done ([], [mkWarn "tagged declaration was not a constant" (hostPos 11)]))
    by reflexivity.
  assert (Ht : Tok varOneDecl <> CONST) by discriminate.
  split; [exact H|]. split; [exact Ht|].
  exact (proj1 (tagConstants_only_const_declarations hostTypes varOneDecl _ _ H) Ht).
Defined.

(** ** The comment map *)

Lemma getSQLFunction_fuel fn : getSQLFunction fn <> OutOfFuel.
Proof. destruct fn; simpl; auto with fuel. Qed.

Lemma tagWhitelisted_fuel types f i args :
  tagWhitelisted types f i args <> OutOfFuel.
Proof.
  unfold tagWhitelisted. apply obind_fuel; [auto with fuel|]. intros arg _.
  apply obind_fuel; [apply sqlOfArg_fuel|]. intros [sql|w] _; [|auto with fuel].
  destruct (argTypesFrom _ _ _ _ _); auto with fuel.
Qed.

Lemma tagCall_fuel types : forall n node,
  (goSize node < n)%nat -> tagCall types node <> OutOfFuel.
Proof.
  induction n as [|n IH]; intros node Hsize; [lia|].
  destruct node as [i nm obj|i x sel|i fn args|i x|i init rest|i lhs rhs|i children];
    try (simpl; auto with fuel; fail).
  - rewrite tagCall_CallExpr. rewrite goSize_CallExpr in Hsize.
    apply obind_fuel; [apply getSQLFunction_fuel|]. intros [f|] _.
    + apply tagWhitelisted_fuel.
    + assert (Hargs : firstCallOf types args <> OutOfFuel).
      { assert (Hl : (goSizes args < n)%nat) by lia. clear Hsize.
        induction args as [|a args IHa]; [simpl; auto with fuel|].
        change (goSizes (a :: args)) with (goSize a + goSizes args)%nat in Hl.
        rewrite firstCallOf_cons. apply obind_fuel; [apply IH; lia|].
        intros r _. destruct (fst r); [auto with fuel | apply IHa; lia]. }
      destruct fn as [| ? x ?| | | | |]; try exact Hargs.
      destruct x; try exact Hargs.
      apply IH.
      match type of Hsize with
      | context [goSize (SelectorExpr ?a ?b ?c)] =>
          change (goSize (SelectorExpr a b c)) with (S (goSize b)) in Hsize
      end. lia.
  - change (tagCall types (ExprStmt i x)) with (tagCall types x).
    change (goSize (ExprStmt i x)) with (S (goSize x)) in Hsize. apply IH. lia.
  - simpl. destruct init as [s|]; [|auto with fuel].
    rewrite goSize_IfStmt in Hsize. apply IH. lia.
  - simpl. destruct rhs as [|r0 rhs]; [auto with fuel|].
    rewrite goSize_AssignStmt in Hsize.
    change (goSizes (r0 :: rhs)) with (goSize r0 + goSizes rhs)%nat in Hsize.
    apply IH. lia.
Qed.

Lemma tagNode_fuel types node : tagNode types node <> OutOfFuel.
Proof.
  unfold tagNode. apply obind_fuel; [apply (tagCall_fuel types (S (goSize node))); lia|].
  intros r _. destruct (fst r); auto with fuel.
Qed.

Lemma valueSpecNames_fuel types valSpec names : forall i consts warns,
  valueSpecNames types valSpec i names consts warns <> OutOfFuel.
Proof.
  induction names as [|nm names IH]; intros i consts warns; cbn [valueSpecNames];
    [auto with fuel|].
  destruct (match id_Obj nm with Some _ => _ | None => _ end); [apply IH|].
  destruct (String.eqb (id_Name nm) "_"); [apply IH|].
  apply obind_fuel; [auto with fuel|]. intros v _.
  destruct (negb _); [apply IH|].
  apply obind_fuel; [auto with fuel|]. intros val _. apply IH.
Qed.

Lemma tagConstants_fuel types genDec : tagConstants types genDec <> OutOfFuel.
Proof.
  unfold tagConstants. destruct (Tok genDec); auto with fuel.
  generalize (@nil Constant) (@nil Warn).
  induction (Specs genDec) as [|spec specs IH]; intros consts warns; simpl;
    [auto with fuel|].
  destruct spec; [|auto with fuel].
  apply obind_fuel; [apply valueSpecNames_fuel|]. intros more _. apply IH.
Qed.

Lemma tagEntry_fuel types entry acc : tagEntry types entry acc <> OutOfFuel.
Proof.
  destruct entry as [node comments], acc as [[consts calls] warns]. unfold tagEntry.
  destruct (negb (isTagged comments)); [auto with fuel|].
  destruct node as [i [g|]|g|v|n];
    (apply obind_fuel;
     [first [apply tagConstants_fuel | apply valueSpecNames_fuel | apply tagNode_fuel]
     | intros; auto with fuel]).
Qed.

Lemma joinTagged_nil_r a : joinTagged a ([], [], []) = a.
Proof. destruct a as [[? ?] ?]. unfold joinTagged. simpl. rewrite !app_nil_r. reflexivity. Qed.

Lemma joinTagged_assoc a b c :
  joinTagged (joinTagged a b) c = joinTagged a (joinTagged b c).
Proof. unfold joinTagged. simpl. rewrite <- !app_assoc. reflexivity. Qed.

Lemma tagEntry_acc types entry acc :
  tagEntry types entry acc
  = (do r <- tagEntry types entry ([], [], []); Done (joinTagged acc r)).
Proof.
  destruct entry as [node comments], acc as [[consts calls] warns]. unfold tagEntry.
  destruct (negb (isTagged comments)).
  { simpl. rewrite joinTagged_nil_r. reflexivity. }
  destruct node as [i [g|]|g|v|n].
  - destruct (tagConstants types g) as [r| |]; [|reflexivity..].
    unfold joinTagged. simpl. rewrite app_nil_r. reflexivity.
  - destruct (tagNode types (OtherGoNode i [])) as [r| |]; [|reflexivity..].
    unfold joinTagged. simpl. destruct (fst r); rewrite ?app_nil_r; reflexivity.
  - destruct (tagConstants types g) as [r| |]; [|reflexivity..].
    unfold joinTagged. simpl. rewrite app_nil_r. reflexivity.
  - destruct (tagValueSpecConstants types v) as [r| |]; [|reflexivity..].
    unfold joinTagged. simpl. rewrite app_nil_r. reflexivity.
  - destruct (tagNode types n) as [r| |]; [|reflexivity..].
    unfold joinTagged. simpl. destruct (fst r); rewrite ?app_nil_r; reflexivity.
Qed.

Lemma tagEntries_acc types cm : forall acc,
  tagEntries types cm acc
  = (do r <- tagEntries types cm ([], [], []); Done (joinTagged acc r)).
Proof.
  induction cm as [|entry cm IH]; intros acc.
  - simpl. rewrite joinTagged_nil_r. reflexivity.
  - cbn [tagEntries]. rewrite (tagEntry_acc types entry acc).
    destruct (tagEntry types entry ([], [], [])) as [r| |]; cbn [obind]; [|reflexivity..].
    rewrite (IH (joinTagged acc r)), (IH r).
    destruct (tagEntries types cm ([], [], [])) as [r'| |]; cbn [obind]; [|reflexivity..].
    rewrite joinTagged_assoc. reflexivity.
Qed.

Lemma tagEntries_fuel types cm : forall acc, tagEntries types cm acc <> OutOfFuel.
Proof.
  induction cm as [|entry cm IH]; intros acc; simpl; [auto with fuel|].
  apply obind_fuel; [apply tagEntry_fuel | intros; apply IH].
Qed.

Lemma tagEntries_cons types entry cm :
  tagEntries types (entry :: cm) ([], [], [])
  = (do a <- tagEntry types entry ([], [], []);
     do r <- tagEntries types cm ([], [], []);
     Done (joinTagged a r)).
Proof.
  cbn [tagEntries]. destruct (tagEntry types entry ([], [], [])) as [a| |];
    cbn [obind]; [|reflexivity..].
  apply tagEntries_acc.
Qed.

Lemma sameTagged_refl o : o <> OutOfFuel -> sameTagged o o.
Proof.
  destruct o as [[[cs calls] ws]| |]; simpl; [auto | auto | congruence].
Qed.

Lemma sameTagged_trans o1 o2 o3 :
  sameTagged o1 o2 -> sameTagged o2 o3 -> sameTagged o1 o3.
Proof.
  destruct o1 as [[[c1 k1] w1]| |], o2 as [[[c2 k2] w2]| |], o3 as [[[c3 k3] w3]| |];
    simpl; try tauto.
  intros (H1 & H2 & H3) (H4 & H5 & H6).
  split; [|split]; eapply Permutation_trans; eassumption.
Qed.

(** X19 -- the [range] over the comment map delivers its entries in no fixed
    order, and the order does not matter: two runs of [iterateCommentMap] over
    the same entries, in whatever orders, both panic or both return, and then
    with the same constants, the same calls and the same warnings, up to the
    order in which they stand. *)
Theorem iterateCommentMap_any_order (types : TypesMap)
  (cm cm' : list (MapNode * list string)) :
  Permutation cm cm' ->
  sameTagged (iterateCommentMap types cm) (iterateCommentMap types cm').
Proof.
  unfold iterateCommentMap. induction 1 as [|x l l' Hperm IH|x y l|l1 l2 l3 _ IH1 _ IH2].
  - simpl. auto.
  - rewrite !tagEntries_cons.
    pose proof (tagEntry_fuel types x ([], [], [])) as Hx.
    destruct (tagEntry types x ([], [], [])) as [[[c k] w]| |]; cbn [obind];
      [|exact I|congruence].
    destruct (tagEntries types l ([], [], [])) as [[[c1 k1] w1]| |],
             (tagEntries types l' ([], [], [])) as [[[c2 k2] w2]| |];
      simpl in IH |- *; try tauto.
    destruct IH as (H1 & H2 & H3).
    split; [|split]; apply Permutation_app_head; assumption.
  - rewrite !tagEntries_cons.
    pose proof (tagEntry_fuel types x ([], [], [])) as Hx.
    pose proof (tagEntry_fuel types y ([], [], [])) as Hy.
    pose proof (tagEntries_fuel types l ([], [], [])) as Hl.
    destruct (tagEntry types x ([], [], [])) as [[[cx kx] wx]| |],
             (tagEntry types y ([], [], [])) as [[[cy ky] wy]| |];
      cbn [obind]; try congruence; try exact I.
    destruct (tagEntries types l ([], [], [])) as [[[c1 k1] w1]| |];
      cbn [obind]; try congruence; try exact I.
    unfold joinTagged. simpl.
    split; [|split]; rewrite !app_assoc; apply Permutation_app_tail, Permutation_app_comm.
  - eapply sameTagged_trans; eassumption.
Qed.

Lemma iterateCommentMap_any_order_witness :
  let tagged := ["sqlboiler:check"; "this one is checked"] in
  sameTagged
    (iterateCommentMap testTypes
       [(GenDeclNode constTwoDecl, tagged); (PlainNode execVarStmt, tagged)])
    (iterateCommentMap testTypes
       [(PlainNode execVarStmt, tagged); (GenDeclNode constTwoDecl, tagged)]).
Proof.
  intros tagged.
  apply (iterateCommentMap_any_order testTypes
           [(GenDeclNode constTwoDecl, tagged); (PlainNode execVarStmt, tagged)]
           [(PlainNode execVarStmt, tagged); (GenDeclNode constTwoDecl, tagged)]).
  apply perm_swap.
Defined.

(** ** The order of the results *)

Lemma ordersStrictly_refl {A} (cmp : A -> A -> comparison) :
  ordersStrictly cmp -> forall x, cmp x x = Eq.
Proof.
  intros (Hanti & _ & _) x. specialize (Hanti x x).
  destruct (cmp x x); [reflexivity | discriminate..].
Qed.

Lemma lexCompare_ordersStrictly {A B} (cA : A -> A -> comparison)
  (cB : B -> B -> comparison) :
  ordersStrictly cA -> ordersStrictly cB -> ordersStrictly (lexCompare cA cB).
Proof.
  intros HA HB. pose proof (ordersStrictly_refl cA HA) as HrA.
  destruct HA as (HantiA & HeqA & HtrA), HB as (HantiB & HeqB & HtrB).
  unfold lexCompare. split; [|split].
  - intros [a b] [a' b']. simpl. rewrite (HantiA a a').
    destruct (cA a' a); simpl; auto.
  - intros [a b] [a' b']. simpl. destruct (cA a a') eqn:E; try discriminate.
    intros Hb. apply HeqA in E. apply HeqB in Hb. congruence.
  - intros [a b] [a' b'] [a'' b'']. simpl.
    destruct (cA a a') eqn:E1; try discriminate;
      destruct (cA a' a'') eqn:E2; try discriminate; intros H1 H2.
    + apply HeqA in E1, E2. subst. rewrite HrA. eauto.
    + apply HeqA in E1. subst. rewrite E2. reflexivity.
    + apply HeqA in E2. subst. rewrite E1. reflexivity.
    + rewrite (HtrA _ _ _ E1 E2). reflexivity.
Qed.

Lemma string_compare_trans (x : string) : forall y z,
  String.compare x y = Lt -> String.compare y z = Lt -> String.compare x z = Lt.
Proof.
  induction x as [|a x IH]; intros [|b y] [|c z]; simpl; try discriminate; auto.
  unfold Ascii.compare.
  destruct (N.compare_spec (N_of_ascii a) (N_of_ascii b)) as [E1|E1|E1];
    try discriminate;
    destruct (N.compare_spec (N_of_ascii b) (N_of_ascii c)) as [E2|E2|E2];
    try discriminate; intros H1 H2.
  - rewrite E1, E2, N.compare_refl. eauto.
  - rewrite E1. apply N.compare_lt_iff in E2. rewrite E2. reflexivity.
  - rewrite <- E2. apply N.compare_lt_iff in E1. rewrite E1. reflexivity.
  - assert (E : (N_of_ascii a < N_of_ascii c)%N) by (eapply N.lt_trans; eassumption).
    apply N.compare_lt_iff in E. rewrite E. reflexivity.
Qed.

Lemma string_compare_ordersStrictly : ordersStrictly String.compare.
Proof.
  split; [|split].
  - apply String.compare_antisym.
  - apply String.compare_eq_iff.
  - apply string_compare_trans.
Qed.

Lemma Z_compare_ordersStrictly : ordersStrictly Z.compare.
Proof.
  split; [|split].
  - intros x y. apply Z.compare_antisym.
  - intros x y. apply Z.compare_eq.
  - intros x y z. rewrite !Z.compare_lt_iff. lia.
Qed.

Lemma compareCallKeys_ordersStrictly : ordersStrictly compareCallKeys.
Proof.
  unfold compareCallKeys.
  repeat apply lexCompare_ordersStrictly;
    first [apply string_compare_ordersStrictly | apply Z_compare_ordersStrictly].
Qed.

Lemma compareWarnKeys_ordersStrictly : ordersStrictly compareWarnKeys.
Proof.
  unfold compareWarnKeys.
  repeat apply lexCompare_ordersStrictly;
    first [apply string_compare_ordersStrictly | apply Z_compare_ordersStrictly].
Qed.

Lemma callsLess_compare ci cj :
  callsLess ci cj = match compareCallKeys (callKey ci) (callKey cj) with
                    | Lt => true
                    | _ => false
                    end.
Proof.
  unfold callsLess, compareCallKeys, callKey, lexCompare, String.ltb, Z.ltb, Z.gtb.
  cbn [fst snd].
  rewrite (String.compare_antisym (Package cj) (Package ci)).
  rewrite (String.compare_antisym (Filename (Pos cj)) (Filename (Pos ci))).
  destruct (String.compare (Package ci) (Package cj)); cbn [CompOpp]; try reflexivity.
  destruct (String.compare (Filename (Pos ci)) (Filename (Pos cj))); cbn [CompOpp];
    try reflexivity.
  destruct (Z.compare (Line (Pos ci)) (Line (Pos cj))); try reflexivity.
  destruct (Z.compare (PosColumn (Pos ci)) (PosColumn (Pos cj))); reflexivity.
Qed.

Lemma warnsLess_compare ci cj :
  warnsLess ci cj = match compareWarnKeys (warnKey ci) (warnKey cj) with
                    | Lt => true
                    | _ => false
                    end.
Proof.
  unfold warnsLess, compareWarnKeys, warnKey, lexCompare, String.ltb, Z.ltb, Z.gtb.
  cbn [fst snd].
  rewrite (String.compare_antisym (Filename (WarnPos cj)) (Filename (WarnPos ci))).
  destruct (String.compare (Filename (WarnPos ci)) (Filename (WarnPos cj)));
    cbn [CompOpp]; try reflexivity.
  destruct (Z.compare (Line (WarnPos ci)) (Line (WarnPos cj))); try reflexivity.
  destruct (Z.compare (PosColumn (WarnPos ci)) (PosColumn (WarnPos cj))); reflexivity.
Qed.

Lemma less_strict_weak {A K} (cmp : K -> K -> comparison) (key : A -> K)
  (less : A -> A -> bool) :
  ordersStrictly cmp ->
  (forall a b, less a b = match cmp (key a) (key b) with Lt => true | _ => false end) ->
  (forall a, less a a = false) /\
  (forall a b, less a b = true -> less b a = false) /\
  (forall a b c, less a b = true -> less b c = true -> less a c = true) /\
  (forall a b, less a b = false /\ less b a = false <-> key a = key b).
Proof.
  intros Hcmp Hless. pose proof (ordersStrictly_refl cmp Hcmp) as Hrefl.
  destruct Hcmp as (Hanti & Heq & Htrans).
  split; [|split; [|split]].
  - intros a. rewrite Hless, Hrefl. reflexivity.
  - intros a b. rewrite !Hless, (Hanti (key b) (key a)).
    destruct (cmp (key a) (key b)); simpl; congruence.
  - intros a b c. rewrite !Hless.
    destruct (cmp (key a) (key b)) eqn:E1; try discriminate.
    destruct (cmp (key b) (key c)) eqn:E2; try discriminate.
    rewrite (Htrans _ _ _ E1 E2). reflexivity.
  - intros a b. rewrite !Hless, (Hanti (key b) (key a)). split.
    + destruct (cmp (key a) (key b)) eqn:E; simpl; intros [H1 H2]; try discriminate.
      apply Heq. exact E.
    + intros ->. rewrite Hrefl. simpl. auto.
Qed.

(** X20 -- the two functions given to [sort.Slice] are strict weak orders, as
    sorting needs them: nothing is less than itself, less is never mutual, it
    is transitive, and two calls are left in either order exactly when they
    agree on package, file name, line and column (two warnings: on file name,
    line and column).  So the sorted lists are fixed up to the order of
    entries at one and the same position. *)
Theorem results_sorted_by_strict_weak_orders :
  ((forall a, callsLess a a = false) /\
   (forall a b, callsLess a b = true -> callsLess b a = false) /\
   (forall a b c, callsLess a b = true -> callsLess b c = true -> callsLess a c = true) /\
   (forall a b, callsLess a b = false /\ callsLess b a = false <-> callKey a = callKey b)) /\
  ((forall a, warnsLess a a = false) /\
   (forall a b, warnsLess a b = true -> warnsLess b a = false) /\
   (forall a b c, warnsLess a b = true -> warnsLess b c = true -> warnsLess a c = true) /\
   (forall a b, warnsLess a b = false /\ warnsLess b a = false <-> warnKey a = warnKey b)).
Proof.
  split.
  - apply (less_strict_weak compareCallKeys callKey callsLess).
    + apply compareCallKeys_ordersStrictly.
    + apply callsLess_compare.
  - apply (less_strict_weak compareWarnKeys warnKey warnsLess).
    + apply compareWarnKeys_ordersStrictly.
    + apply warnsLess_compare.
Qed.

Lemma results_sorted_by_strict_weak_orders_witness :
  callsLess (mkCall "a" [] "p" (hostPos 49)) (mkCall "b" [] "p" (hostPos 55)) = true /\
  callsLess (mkCall "b" [] "p" (hostPos 55)) (mkCall "a" [] "p" (hostPos 49)) = false.
Proof.
  assert (H : callsLess (mkCall "a" [] "p" (hostPos 49)) (mkCall "b" [] "p" (hostPos 55))
              = true) by reflexivity.
  split; [exact H|].
  exact (proj1 (proj2 (proj1 results_sorted_by_strict_weak_orders)) _ _ H).
Defined.

(** ** The stacks in memory, for any sequence of operations *)

(** X21 -- the three slices of a scope behave as stacks, whatever capacity
    their arrays have: any sequence of [pushTable], [pushPseudoTable],
    [popTable], [pushOutputName] and [popOutputName] run on a scope object in
    memory returns exactly when it returns on the stacks as lists, and then
    the object shows the stacks the lists have; it panics exactly when the
    lists run empty. *)
Theorem scope_slices_behave_as_stacks (grow : nat -> nat) (ops : list ScopeOp) :
  forall (m : Memory) (p : nat) (s : Scope),
    holds m p s ->
    match applyOps ops s with
    | Done s' => exists m', runOps grow p ops m = Done m' /\ holds m' p s'
    | Panic => runOps grow p ops m = Panic
    | OutOfFuel => False
    end.
Proof.
  induction ops as [|op ops IH]; intros m p s Hh.
  - simpl. eauto.
  - cbn [applyOps runOps]. pose proof (runOp_refines grow m p s op Hh) as Hop.
    destruct (applyOp op s) as [s1| |]; cbn [obind].
    + destruct Hop as (m1 & -> & Hh1). cbn [obind]. apply IH. exact Hh1.
    + rewrite Hop. reflexivity.
    + exact Hop.
Qed.

Lemma scope_slices_behave_as_stacks_witness :
  let o := mkScopeObj scenarioCatalog (mkSlice 1 1 2) (mkSlice 1 1 1) nilSlice in
  let m := mkMemory {[ 1%nat := o ]}
                    {[ 1%nat := [Some usersTable; Some videosTable] ]}
                    {[ 1%nat := ["u"] ]} ∅ in
  let s := mkScope scenarioCatalog [usersTable] ["u"] [] in
  holds m 1 s /\
  (exists m', runOps (fun c => c) 1 [OpPushTable "" "comments" "c"; OpPopTable] m = Done m'
              /\ holds m' 1 s) /\
  runOps (fun c => c) 1 [OpPopTable; OpPopTable] m = Panic.
Proof.
  intros o m s.
  assert (Hh : holds m 1 s).
  { exists o. repeat split; simpl; lia. }
  split; [exact Hh|]. split.
  - exact (scope_slices_behave_as_stacks (fun c => c)
             [OpPushTable "" "comments" "c"; OpPopTable] m 1%nat s Hh).
  - exact (scope_slices_behave_as_stacks (fun c => c) [OpPopTable; OpPopTable] m 1%nat s Hh).
Defined.

(** ** The FROM clause and the select list *)

Lemma targetStep_one fn scope item addRefs errs r :
  targetStep fn scope item addRefs errs = Done r ->
  (exists ref, fst r = (addRefs ++ [ref])%list /\ snd r = errs) \/
  (exists e, fst r = addRefs /\ snd r = (errs ++ [e])%list).
Proof.
  intros H. destruct item as [| | | | | | | | | | |tname val loc| | | | | | | |];
    try discriminate. simpl in H.
  destruct val; try (injection H as <-; left; eauto).
  bind_inv H. bind_inv H. bind_inv H. bind_inv H. bind_inv H.
  destruct (negb (snd a3 =? scopeRetOk)).
  - injection H as <-. right. eauto.
  - bind_inv H. injection H as <-. left. eauto.
Qed.

(** X22 -- every target of a select list gives one thing: an output column,
    or an error.  The loop over the list returns as many output columns and
    new errors together as there are targets, keeps what it was given of
    both, and so a target that does not resolve is missing from the columns
    the select hands to a FROM clause around it. *)
Theorem targetLoop_column_or_error (fn : Call) (scope : Scope) (items : list Node) :
  forall (addRefs : list outputColRef) (errs : list GoError)
         (addRefs' : list outputColRef) (errs' : list GoError),
    targetLoop fn scope items addRefs errs = Done (addRefs', errs') ->
    exists newRefs newErrs,
      addRefs' = (addRefs ++ newRefs)%list /\ errs' = (errs ++ newErrs)%list /\
      (length newRefs + length newErrs = length items)%nat.
Proof.
  induction items as [|item items IH]; simpl; intros addRefs errs addRefs' errs' H.
  - injection H as <- <-. exists [], []. rewrite !app_nil_r. auto.
  - bind_inv H. destruct (IH _ _ _ _ H) as (newRefs & newErrs & -> & -> & Hlen).
    destruct (targetStep_one _ _ _ _ _ _ Ha) as [(ref & -> & ->)|(e & -> & ->)].
    + exists (ref :: newRefs), newErrs. rewrite <- app_assoc.
      repeat split. simpl. lia.
    + exists newRefs, (e :: newErrs). rewrite <- app_assoc.
      repeat split. simpl. lia.
Qed.

Lemma targetLoop_column_or_error_witness :
  let fn := testCall "select id, nickname from users" [] in
  let scope := mkScope scenarioCatalog [usersTable] [EmptyString] [] in
  exists newRefs newErrs,
    [mkOutputColRef "id" (Some (intColumn "id"))] = ([] ++ newRefs)%list /\
    [IdentErr Unknown "" "" "nickname" 11 fn] = ([] ++ newErrs)%list /\
    (length newRefs + length newErrs
     = length [ResTarget None (ColumnRef [StringNode "id"] 7) 7;
               ResTarget None (ColumnRef [StringNode "nickname"] 11) 11])%nat.
Proof.
  intros fn scope.
  exact (targetLoop_column_or_error fn scope
           [ResTarget None (ColumnRef [StringNode "id"] 7) 7;
            ResTarget None (ColumnRef [StringNode "nickname"] 11) 11]
           [] [] [mkOutputColRef "id" (Some (intColumn "id"))]
           [IdentErr Unknown "" "" "nickname" 11 fn] eq_refl).
Defined.

Lemma knownTables_cons i nm loc tabs :
  knownTables i ((nm, loc) :: tabs)
  = match lookupTable EmptyString nm (Tables i) with
    | Some t => t :: knownTables i tabs
    | None => knownTables i tabs
    end.
Proof.
  unfold knownTables. simpl. destruct (lookupTable "" nm (Tables i)); reflexivity.
Qed.

Lemma unknownTables_cons fn i nm loc tabs :
  unknownTables fn i ((nm, loc) :: tabs)
  = match lookupTable EmptyString nm (Tables i) with
    | Some _ => unknownTables fn i tabs
    | None => IdentErr Unknown EmptyString nm EmptyString loc fn :: unknownTables fn i tabs
    end.
Proof.
  unfold unknownTables. simpl. destruct (lookupTable "" nm (Tables i)); reflexivity.
Qed.

Lemma fromLoop_plainTables recN recS fn tabs : forall k scope errs n,
  (length tabs <= k)%nat ->
  fromLoop recN recS fn k (plainTables tabs) scope errs n
  = Done (mkScope (info scope)
                  (tables scope ++ knownTables (info scope) tabs)
                  (aliases scope
                   ++ List.map (fun _ => EmptyString) (knownTables (info scope) tabs))
                  (outputNames scope),
          (errs ++ unknownTables fn (info scope) tabs)%list,
          (n + length (knownTables (info scope) tabs))%nat).
Proof.
  induction tabs as [|[nm loc] tabs IH]; intros k scope errs n Hk.
  - destruct k; simpl; rewrite !app_nil_r, Nat.add_0_r; destruct scope; reflexivity.
  - destruct k as [|k]; [simpl in Hk; lia|].
    rewrite knownTables_cons, unknownTables_cons.
    cbn [plainTables List.map fromLoop plainTable fst snd].
    unfold addTable. cbn [Relname Schemaname RangeAlias RangeLocation deref obind
                          aliasOf orEmpty].
    unfold pushRelation, pushTable.
    change (List.map (fun t => plainTable (fst t) (snd t)) tabs) with (plainTables tabs).
    destruct (lookupTable "" nm (Tables (info scope))) as [t|] eqn:Et.
    + rewrite IH by (simpl in Hk; lia). cbn [info tables aliases outputNames].
      cbn [List.map length]. rewrite <- !app_assoc. cbn [List.app].
      rewrite Nat.add_succ_r. reflexivity.
    + rewrite IH by (simpl in Hk; lia). rewrite <- !app_assoc. reflexivity.
Qed.

Lemma rev_plainTables tabs : List.rev (plainTables tabs) = plainTables (List.rev tabs).
Proof. unfold plainTables. rewrite map_rev. reflexivity. Qed.

(** X23 -- the items of a FROM clause are taken off the end of a stack, so a
    comma-separated list of tables is gone through from its last to its
    first: the tables of the catalog among them come into scope in that
    order, each without alias, and those that the catalog does not have are
    reported in that order, each as an unknown identifier at its place. *)
Theorem checkSelect_from_list_last_to_first (fn : Call)
  (tabs : list (string * Z)) (scope : Scope) (fuel : nat)
  (recN : Recurse) (recS : RecurseSelect) :
  (length tabs <= fuel)%nat ->
  fromLoop recN recS fn fuel (List.rev (plainTables tabs)) scope [] 0%nat
  = Done (mkScope (info scope)
                  (tables scope ++ knownTables (info scope) (List.rev tabs))
                  (aliases scope
                   ++ List.map (fun _ => EmptyString)
                        (knownTables (info scope) (List.rev tabs)))
                  (outputNames scope),
          unknownTables fn (info scope) (List.rev tabs),
          length (knownTables (info scope) (List.rev tabs))).
Proof.
  intros Hk. rewrite rev_plainTables.
  rewrite fromLoop_plainTables by (rewrite length_rev; exact Hk). reflexivity.
Qed.

Lemma checkSelect_from_list_last_to_first_witness :
  let fn := testCall "select 1 from nowhere, users, nothing" [] in
  (length [("nowhere", 14); ("users", 23); ("nothing", 30)] <= 3)%nat /\
  fromLoop (fun s _ => Done ([], s)) (fun s _ => Done (([], []), s)) fn 3
    (List.rev (plainTables [("nowhere", 14); ("users", 23); ("nothing", 30)]))
    (NewScope scenarioCatalog) [] 0%nat
  = Done (mkScope scenarioCatalog [usersTable] [EmptyString] [],
          [IdentErr Unknown "" "nothing" "" 30 fn; IdentErr Unknown "" "nowhere" "" 14 fn],
          1%nat).
Proof.
  intros fn.
  assert (Hk : (length [("nowhere", 14); ("users", 23); ("nothing", 30)] <= 3)%nat)
    by (simpl; lia).
  split; [exact Hk|].
  exact (checkSelect_from_list_last_to_first fn
           [("nowhere", 14); ("users", 23); ("nothing", 30)] (NewScope scenarioCatalog) 3
           (fun s _ => Done ([], s)) (fun s _ => Done (([], []), s)) Hk).
Defined.

Lemma findColumn_occurs column cs :
  match findColumn column cs with
  | Some _ => (1 <= length (List.filter (fun c => String.eqb (col_Name c) column) cs))%nat
  | None => length (List.filter (fun c => String.eqb (col_Name c) column) cs) = 0%nat
  end.
Proof.
  induction cs as [|c cs IH]; simpl; [reflexivity|].
  destruct (String.eqb (col_Name c) column); simpl; [lia | exact IH].
Qed.

Lemma get_plain_column s column :
  outputNames s = [] ->
  exists found st,
    get s EmptyString EmptyString column = Done (found, st) /\
    (st =? scopeRetOk) = Nat.eqb (occurrences column (tables s)) 1 /\
    (st = scopeRetOk -> exists c, found = Some c).
Proof.
  intros Ho. rewrite get_without_table_spec, Ho. cbn [findOutputName].
  unfold occurrences. pose proof (findColumn_occurs column (columnsInScope (tables s))) as Hc.
  destruct (Nat.leb 2 _) eqn:E2.
  - apply Nat.leb_le in E2. eexists _, _. split; [reflexivity|]. split.
    + symmetry. apply Nat.eqb_neq. lia.
    + discriminate.
  - apply Nat.leb_gt in E2.
    destruct (findColumn column (columnsInScope (tables s))) as [c|].
    + eexists _, _. split; [reflexivity|]. split; [|eauto].
      symmetry. apply Nat.eqb_eq. lia.
    + eexists _, _. split; [reflexivity|]. split; [|discriminate].
      rewrite Hc. reflexivity.
Qed.

Lemma targetStep_plain fn scope c loc addRefs errs :
  targetStep fn scope (ResTarget None (ColumnRef [StringNode c] loc) loc) addRefs errs
  = (do r <- get scope EmptyString EmptyString c;
     if negb (snd r =? scopeRetOk)
     then Done (addRefs, (errs ++ [IdentErr 0 "" "" c loc fn])%list)
     else do nm <- (do c0 <- deref (fst r); Done (col_Name c0));
          Done ((addRefs ++ [mkOutputColRef nm (fst r)])%list, errs)).
Proof. reflexivity. Qed.

Lemma targetLoop_selectColumns fn scope cols :
  outputNames scope = [] ->
  forall addRefs errs,
    exists refs,
      targetLoop fn scope (selectColumns cols) addRefs errs
      = Done (refs, (errs ++ unresolvedColumns fn (tables scope) cols)%list).
Proof.
  intros Ho. induction cols as [|[c loc] cols IH]; intros addRefs errs.
  - exists addRefs. simpl. rewrite app_nil_r. reflexivity.
  - cbn [selectColumns List.map targetLoop fst snd].
    change (List.map _ cols) with (selectColumns cols).
    rewrite targetStep_plain.
    destruct (get_plain_column scope c Ho) as (found & st' & -> & Est & Hfound).
    cbn [obind fst snd]. unfold unresolvedColumns. cbn [flat_map fst snd].
    rewrite <- Est.
    destruct (Z.eqb_spec st' scopeRetOk) as [E|E]; cbn [negb].
    + destruct (Hfound E) as (col0 & ->). cbn [deref obind fst snd List.app].
      apply IH.
    + cbn [obind fst snd]. destruct (IH addRefs (errs ++ [IdentErr 0 "" "" c loc fn])%list)
        as (refs & ->).
      exists refs. rewrite <- app_assoc. reflexivity.
Qed.

Lemma nodeSizes_plainTables tabs : nodeSizes (plainTables tabs) = length tabs.
Proof. induction tabs as [|t tabs IH]; simpl in *; [reflexivity | lia]. Qed.

(** X24 -- a select of plain column names from a comma-separated list of
    plain table names, with no other clause, is reported for exactly this:
    the tables that the catalog does not have, from the last to the first,
    each at its place; then, in the order of the select list, every column
    name that is not the name of exactly one column of the tables that were
    found, each as an identifier error of kind [Unknown] at its place, be the
    name missing or ambiguous. *)
Theorem checkSelect_reports_tables_then_columns (st : State) (fn : Call)
  (tabs cols : list (string * Z)) :
  checkCall st fn
    [RawStmt (SelectStmtNode
       (mkSelectStmt None None (plainTables tabs) NilNode NilNode
                     (selectColumns cols) [] []))]
  = Done (unknownTables fn (StateDBInfo st) (List.rev tabs)
          ++ unresolvedColumns fn (knownTables (StateDBInfo st) (List.rev tabs)) cols)%list.
Proof.
  cbn [checkCall].
  change (nodeSize (SelectStmtNode ?sel)) with (S (selectSize sel)).
  rewrite selectSize_eq, checkCallRecurse_S. cbn [checkCallRecurseBody].
  rewrite checkSelect_S. cbn [checkSelectBody].
  rewrite rev_plainTables.
  rewrite fromLoop_plainTables
    by (rewrite length_rev, nodeSizes_plainTables; cbn [nodeSize]; lia).
  cbn [obind NewScope info tables aliases outputNames List.app Nat.add].
  do 2 (rewrite checkCallRecurse_S; cbn [checkCallRecurseBody obind fst snd]).
  rewrite !app_nil_r.
  match goal with
  | |- context [targetLoop fn ?sc (selectColumns cols) [] ?es] =>
      destruct (targetLoop_selectColumns fn sc cols eq_refl [] es) as (refs & ->)
  end.
  cbn [obind descendEach fst snd tables].
  rewrite popOutputNames_push. cbn [obind].
  rewrite popTables_spec. cbn [info tables aliases outputNames].
  rewrite length_map, Nat.leb_refl. cbn [andb obind fst snd].
  rewrite app_nil_r. reflexivity.
Qed.

(** ** A parameter in the condition of a [delete] *)

Lemma columnsInScope_one t : columnsInScope [t] = Columns t.
Proof. unfold columnsInScope. simpl. apply app_nil_r. Qed.

Lemma checkCallRecurse_plain_column fuel st fn scope column l :
  checkCallRecurse (S fuel) st fn scope (ColumnRef [StringNode column] l)
  = (do ret <- has scope EmptyString EmptyString column;
     let kind := if Z.eqb ret scopeRetUnknown then Unknown
                 else if Z.eqb ret scopeRetAmbiguous then Ambiguous
                 else 0 in
     if negb (Z.eqb ret scopeRetOk)
     then Done ([IdentErr kind EmptyString EmptyString column l fn], scope)
     else Done ([], scope)).
Proof. reflexivity. Qed.

Lemma checkCallRecurse_parameter fuel st fn scope n pl :
  checkCallRecurse (S fuel) st fn scope (ParamRef n pl) = Done ([], scope).
Proof. reflexivity. Qed.

Lemma checkCallRecurse_A_Expr fuel st fn scope lexpr rexpr :
  checkCallRecurse (S fuel) st fn scope (A_Expr lexpr rexpr)
  = (do r1 <- checkCallRecurse fuel st fn scope lexpr;
     do r2 <- checkCallRecurse fuel st fn (snd r1) rexpr;
     do err <- typeCheck st fn (snd r2) lexpr rexpr;
     match err with
     | Some e => Done (((fst r1 ++ fst r2) ++ [e])%list, snd r2)
     | None => Done ((fst r1 ++ fst r2)%list, snd r2)
     end).
Proof. reflexivity. Qed.

(** X25 -- the condition [column = $n] of a [delete] from a table of the
    catalog, the column being the one column of that name and of a plain
    driver type, the parameter having an argument: the statement is reported
    for a type mismatch, with both types, the parameter and its place, exactly
    when the type of argument [n] is not the driver type of the column; else
    it is reported for nothing. *)
Theorem checkDelete_checks_parameter_type (st : State) (fn : Call)
  (rel : RangeVarData) (table alias column : string) (l n pl : Z)
  (t : Table) (c : Column) (argType : string) :
  Relname rel = Some table ->
  aliasOf (RangeAlias rel) = Done alias ->
  lookupTable (orEmpty (Schemaname rel)) table (Tables (StateDBInfo st)) = Some t ->
  occurrences column [t] = 1%nat ->
  findColumn column (Columns t) = Some c ->
  containsByte dot (col_Type c) = false ->
  1 <= n < 2 ^ 63 ->
  ArgTypes fn !! Z.to_nat (n - 1) = Some argType ->
  checkCall st fn
    [RawStmt (DeleteStmt (Some rel)
                (A_Expr (ColumnRef [StringNode column] l) (ParamRef n pl)))]
  = Done (if String.eqb argType (col_Type c) then []
          else [TypeErr "" "" column argType (col_Type c) (col_DBType c) n pl fn]).
Proof.
  intros Hrel Halias Ht Hocc Hc Hdot Hn Harg.
  set (scope := mkScope (StateDBInfo st) [t] [alias] []).
  assert (Hget : get scope "" "" column = Done (Some c, scopeRetOk)).
  { rewrite get_without_table_spec. cbn [tables outputNames scope].
    rewrite Hocc, columnsInScope_one, Hc. reflexivity. }
  assert (Htype : typeCheck st fn scope (ColumnRef [StringNode column] l) (ParamRef n pl)
                  = Done (if String.eqb argType (col_Type c) then None
                          else Some (TypeErr "" "" column argType (col_Type c)
                                             (col_DBType c) n pl fn))).
  { rewrite (typeCheck_resolved st fn scope [StringNode column] l n pl "" "" 0%nat column
               (Some c, scopeRetOk) eq_refl eq_refl Hget).
    cbv zeta. change (scopeRetOk =? scopeRetOk) with true. cbn [negb].
    rewrite wrapInt_small by lia.
    pose proof (lookup_lt_Some _ _ _ Harg) as Hlt.
    replace (n - 1 >=? Z.of_nat (length (ArgTypes fn))) with false
      by (symmetry; rewrite Z.geb_leb; apply Z.leb_gt; lia).
    replace (n - 1 <? 0) with false by (symmetry; apply Z.ltb_ge; lia).
    rewrite Harg. cbn [deref obind].
    rewrite (stringsSplit_plain _ _ Hdot). cbn [length Nat.ltb Nat.leb obind].
    destruct (String.eqb argType (col_Type c)); reflexivity. }
  cbn [checkCall].
  change (nodeSize (DeleteStmt (Some rel) ?w)) with (S (nodeSize w)).
  rewrite checkCallRecurse_S. cbn [checkCallRecurseBody].
  unfold checkDelete, pushStatementTable. cbn [deref obind].
  rewrite Halias, Hrel. cbn [deref obind].
  unfold pushRelation, pushTable. cbn [NewScope info]. rewrite Ht.
  cbn [NewScope info tables aliases outputNames List.app obind].
  fold scope.
  change (nodeSize (A_Expr (ColumnRef [StringNode column] l) (ParamRef n pl)))
    with 4%nat.
  rewrite checkCallRecurse_A_Expr, checkCallRecurse_plain_column.
  rewrite (has_of_get _ _ _ _ _ Hget). cbn [obind snd fst].
  change (scopeRetOk =? scopeRetOk) with true. cbn [negb obind snd fst].
  rewrite checkCallRecurse_parameter. cbn [obind snd fst].
  rewrite Htype. cbn [obind].
  destruct (String.eqb argType (col_Type c)); reflexivity.
Qed.

Lemma checkDelete_checks_parameter_type_witness :
  let fn := testCall "delete from users where name = $1" ["int"] in
  let rel := mkRangeVar None (Some "users") None 12 in
  1 <= 1 < 2 ^ 63 /\
  checkCall scenarioState fn
    [RawStmt (DeleteStmt (Some rel)
                (A_Expr (ColumnRef [StringNode "name"] 24) (ParamRef 1 31)))]
  = Done [TypeErr "" "" "name" "int" "string" "text" 1 31 fn].
Proof.
  intros fn rel.
  assert (Hn : 1 <= 1 < 2 ^ 63) by lia.
  split; [exact Hn|].
  exact (checkDelete_checks_parameter_type scenarioState fn rel "users" "" "name"
           24 1 31 usersTable (textColumn "name") "int"
           eq_refl eq_refl eq_refl eq_refl eq_refl eq_refl Hn eq_refl).
Defined.

(** ** The report *)

Lemma errorLines_app out1 out2 :
  errorLines (out1 ++ out2) = (errorLines out1 ++ errorLines out2)%list.
Proof.
  induction out1 as [|o out1 IH]; [reflexivity|].
  simpl. destruct o; simpl; rewrite ?IH; reflexivity.
Qed.

Lemma errorLines_printPkg pkgPath pp : errorLines (printPkg pkgPath pp) = [].
Proof. destruct pp; reflexivity. Qed.

Lemma errorLines_printCalls rel pkgPath calls : forall pp,
  errorLines (snd (printCalls rel pkgPath calls pp)) = [].
Proof.
  induction calls as [|c calls IH]; intros pp; [reflexivity|].
  cbn [printCalls]. destruct (negb (String.eqb (Package c) pkgPath)); [apply IH|].
  specialize (IH true). destruct (printCalls rel pkgPath calls true) as [pp' out].
  cbn [snd] in *. rewrite errorLines_app, errorLines_printPkg. exact IH.
Qed.

Lemma printErrs_spec pkgPath errs : forall printed pp,
  length printed = length errs ->
  exists printed' pp' out,
    printErrs pkgPath errs printed pp = Done (printed', pp', out) /\
    length printed' = length errs /\
    errorLines out = List.filter (printedFor pkgPath) (pending errs printed) /\
    pending errs printed'
    = List.filter (fun e => negb (printedFor pkgPath e)) (pending errs printed).
Proof.
  induction errs as [|e errs IH]; intros [|p printed] pp Hlen; simpl in Hlen;
    try discriminate.
  - exists [], pp, []. simpl. auto.
  - injection Hlen as Hlen. cbn [printErrs pending].
    destruct p.
    + destruct (IH printed pp Hlen) as (ps & pp' & out & -> & H1 & H2 & H3).
      exists (true :: ps), pp', out. simpl. auto.
    + cbn [List.filter]. destruct (printedFor pkgPath e) eqn:E; cbn [negb].
      * destruct (IH printed true Hlen) as (ps & pp' & out & -> & H1 & H2 & H3).
        eexists (true :: ps), pp', _. split; [reflexivity|].
        split; [simpl; auto|]. split.
        -- rewrite errorLines_app, errorLines_printPkg. simpl.
           rewrite H2. reflexivity.
        -- exact H3.
      * destruct (IH printed pp Hlen) as (ps & pp' & out & -> & H1 & H2 & H3).
        exists (false :: ps), pp', out. split; [reflexivity|].
        split; [simpl; auto|]. split; [exact H2|].
        simpl. rewrite H3. reflexivity.
Qed.

Lemma filter_orb_Permutation {A} (f g : A -> bool) (l : list A) :
  Permutation (List.filter (fun x => f x || g x) l)
              (List.filter f l ++ List.filter g (List.filter (fun x => negb (f x)) l)).
Proof.
  induction l as [|x l IH]; simpl; [constructor|].
  destruct (f x); simpl.
  - constructor. exact IH.
  - destruct (g x); simpl; [|exact IH].
    apply Permutation_cons_app. exact IH.
Qed.

Lemma printPackages_spec verbose rel calls errs pkgs : forall printed,
  length printed = length errs ->
  exists out,
    printPackages verbose rel pkgs calls errs printed = Done out /\
    Permutation (errorLines out)
                (List.filter (printedForAny pkgs) (pending errs printed)).
Proof.
  induction pkgs as [|pkgPath pkgs IH]; intros printed Hlen.
  - exists []. split; [reflexivity|]. unfold printedForAny. simpl.
    induction (pending errs printed); simpl; auto.
  - cbn [printPackages].
    pose proof (errorLines_printCalls rel pkgPath calls false) as Hcalls.
    destruct (if verbose then printCalls rel pkgPath calls false else (false, []))
      as [pp out1] eqn:E1.
    assert (Hout1 : errorLines out1 = []).
    { destruct verbose; [rewrite E1 in Hcalls; exact Hcalls|].
      injection E1 as _ <-. reflexivity. }
    destruct (printErrs_spec pkgPath errs printed pp Hlen)
      as (printed' & pp' & out2 & -> & Hlen' & Hout2 & Hpend).
    cbn [obind]. destruct (IH printed' Hlen') as (out3 & -> & Hout3).
    cbn [obind]. eexists. split; [reflexivity|].
    rewrite !errorLines_app, Hout1, Hout2. cbn [List.app].
    eapply Permutation_trans; [apply Permutation_app_head; exact Hout3|].
    rewrite Hpend. symmetry.
    apply (filter_orb_Permutation (printedFor pkgPath) (printedForAny pkgs)).
Qed.

Lemma pending_fresh errs : pending errs (replicate (length errs) false) = errs.
Proof. induction errs as [|e errs IH]; simpl; [reflexivity | rewrite IH; reflexivity]. Qed.

(** X26 -- the report does not fail and prints no error twice.  The errors
    printed are, up to their order, the identifier and type errors whose call
    is of one of the packages, and, as soon as there is a package at all, every
    other error (parse errors, failed package lookups); with a first package,
    the lines up to those of the other packages hold, in the order of [errs],
    the errors of calls of that package and all those other errors, whatever
    package their call is of. *)
Theorem report_prints_each_error_once (verbose : bool) (rel : string -> option string)
  (pkgs : list string) (calls : list Call) (errs : list GoError) :
  exists out,
    report verbose rel pkgs calls errs = Done out /\
    Permutation (errorLines out) (List.filter (printedForAny pkgs) errs) /\
    (forall pkgPath rest, pkgs = pkgPath :: rest ->
       exists first others,
         out = (first ++ others)%list /\
         errorLines first = List.filter (printedFor pkgPath) errs /\
         Permutation (errorLines others)
           (List.filter (printedForAny rest)
              (List.filter (fun e => negb (printedFor pkgPath e)) errs))).
Proof.
  unfold report.
  destruct (printPackages_spec verbose rel calls errs pkgs
              (replicate (length errs) false) (length_replicate _ _))
    as (out & Hout & Hperm).
  rewrite pending_fresh in Hperm.
  exists out. split; [exact Hout|]. split; [exact Hperm|].
  intros pkgPath rest ->. cbn [printPackages] in Hout.
  pose proof (errorLines_printCalls rel pkgPath calls false) as Hcalls.
  destruct (if verbose then printCalls rel pkgPath calls false else (false, []))
    as [pp out1] eqn:E1.
  assert (Hout1 : errorLines out1 = []).
  { destruct verbose; [rewrite E1 in Hcalls; exact Hcalls|].
    injection E1 as _ <-. reflexivity. }
  destruct (printErrs_spec pkgPath errs (replicate (length errs) false) pp
              (length_replicate _ _))
    as (printed' & pp' & out2 & E2 & Hlen' & Hout2 & Hpend).
  rewrite pending_fresh in Hout2, Hpend.
  rewrite E2 in Hout. cbn [obind] in Hout.
  destruct (printPackages_spec verbose rel calls errs rest printed' Hlen')
    as (out3 & E3 & Hout3).
  rewrite E3 in Hout. cbn [obind] in Hout. injection Hout as <-.
  exists (out1 ++ out2)%list, out3.
  split; [apply app_assoc|]. split.
  - rewrite errorLines_app, Hout1, Hout2. reflexivity.
  - rewrite <- Hpend. exact Hout3.
Qed.

Lemma report_prints_each_error_once_witness :
  let bad := mkCall "selec" [] "b" (mkPosition "b.go" 3 1) in
  let ident := IdentErr Unknown "" "" "id" 7 (testCall ambiguousSQL []) in
  let errs := [ident; ParseError "syntax error" bad] in
  exists out,
    report false (fun _ => None) ["a"; "pkg"; "b"] [] errs = Done out /\
    Permutation (errorLines out) (List.filter (printedForAny ["a"; "pkg"; "b"]) errs) /\
    (forall pkgPath rest, ["a"; "pkg"; "b"] = pkgPath :: rest ->
       exists first others,
         out = (first ++ others)%list /\
         errorLines first = List.filter (printedFor pkgPath) errs /\
         Permutation (errorLines others)
           (List.filter (printedForAny rest)
              (List.filter (fun e => negb (printedFor pkgPath e)) errs))).
Proof.
  intros bad ident errs.
  exact (report_prints_each_error_once false (fun _ => None) ["a"; "pkg"; "b"] [] errs).
Defined.

(** The parse error of a call of package [b] is printed under package [a],
    the first one. *)
Example report_parse_error_under_first_package :
  let bad := mkCall "selec" [] "b" (mkPosition "b.go" 3 1) in
  let ident := IdentErr Unknown "" "" "id" 7 (testCall ambiguousSQL []) in
  report false (fun _ => None) ["a"; "pkg"; "b"] [] [ident; ParseError "syntax error" bad]
  = Done [PackageLine "a"; ErrorLine (ParseError "syntax error" bad);
          PackageLine "pkg"; ErrorLine ident].
Proof. reflexivity. Qed.

(** ** The assignments of an [update] *)

Lemma checkCallRecurse_update_target fuel st fn scope c loc n pl :
  outputNames scope = [] ->
  checkCallRecurse (S (S fuel)) st fn scope (ResTarget (Some c) (ParamRef n pl) loc)
  = Done (missingColumns fn (columnsInScope (tables scope)) [(c, loc)], scope).
Proof.
  intros Ho. rewrite checkCallRecurse_S. cbn [checkCallRecurseBody isNil].
  destruct (has_unknown_without_output_names scope EmptyString c Ho) as (st' & -> & E).
  cbn [obind]. rewrite E, checkCallRecurse_parameter. cbn [obind fst snd].
  unfold missingColumns. cbn [flat_map fst snd].
  destruct (findColumn c (columnsInScope (tables scope))); reflexivity.
Qed.

Lemma descendEach_updateTargets fuel st fn scope sets :
  outputNames scope = [] ->
  (sets <> [] -> (2 <= fuel)%nat) ->
  forall errs,
    descendEach (checkCallRecurse fuel st fn) (updateTargets sets) errs scope
    = Done ((errs ++ missingColumns fn (columnsInScope (tables scope))
                       (List.map fst sets))%list, scope).
Proof.
  intros Ho Hfuel. induction sets as [|[[c loc] [n pl]] sets IH]; intros errs.
  - simpl. rewrite app_nil_r. reflexivity.
  - destruct fuel as [|[|fuel]];
      try (assert (2 <= 0)%nat by (apply Hfuel; discriminate); lia);
      try (assert (2 <= 1)%nat by (apply Hfuel; discriminate); lia).
    change (updateTargets ((c, loc, (n, pl)) :: sets))
      with (ResTarget (Some c) (ParamRef n pl) loc :: updateTargets sets).
    cbn [descendEach].
    rewrite checkCallRecurse_update_target by exact Ho. cbn [obind fst snd].
    rewrite IH by (intros _; lia).
    unfold missingColumns. cbn [List.map flat_map fst snd].
    rewrite app_nil_r, app_assoc. reflexivity.
Qed.

Lemma nodeSizes_updateTargets sets :
  nodeSizes (updateTargets sets) = (2 * length sets)%nat.
Proof. induction sets as [|a sets IH]; simpl in *; [reflexivity | lia]. Qed.

(** X27 -- the assignments of an [update] are checked for their columns and
    for nothing else: for [update t set c = $n, ...] without a condition the
    statement is reported for exactly the assigned names that no column of the
    table has (after the table itself, when the catalog does not have it),
    and never for the type of an argument, whatever the parameters and the
    argument types of the call are. *)
Theorem checkUpdate_does_not_type_assignments (st : State) (fn : Call)
  (rel : RangeVarData) (table alias : string) (sets : list (string * Z * (Z * Z))) :
  Relname rel = Some table ->
  aliasOf (RangeAlias rel) = Done alias ->
  checkCall st fn [RawStmt (UpdateStmt (Some rel) (updateTargets sets) NilNode)]
  = Done (match lookupTable (orEmpty (Schemaname rel)) table (Tables (StateDBInfo st)) with
          | Some t => missingColumns fn (Columns t) (List.map fst sets)
          | None =>
              IdentErr Unknown (orEmpty (Schemaname rel)) table EmptyString
                       (RangeLocation rel) fn
              :: missingColumns fn [] (List.map fst sets)
          end).
Proof.
  intros Hrel Halias. cbn [checkCall].
  rewrite nodeSize_UpdateStmt, checkCallRecurse_S. cbn [checkCallRecurseBody].
  unfold checkUpdate, pushStatementTable. cbn [deref obind].
  rewrite Halias, Hrel. cbn [deref obind].
  unfold pushRelation, pushTable. cbn [NewScope info].
  assert (Hfuel : sets <> [] ->
            (2 <= nodeSizes (updateTargets sets) + nodeSize NilNode)%nat).
  { rewrite nodeSizes_updateTargets. destruct sets; [congruence | simpl; lia]. }
  change (nodeSize NilNode) with 1%nat in *.
  destruct (lookupTable (orEmpty (Schemaname rel)) table (Tables (StateDBInfo st)))
    as [t|].
  - rewrite descendEach_updateTargets by (reflexivity || exact Hfuel).
    cbn [obind snd fst]. rewrite Nat.add_1_r, checkCallRecurse_S.
    cbn [checkCallRecurseBody obind fst snd].
    simpl. unfold columnsInScope. simpl. rewrite ?app_nil_r. reflexivity.
  - rewrite descendEach_updateTargets by (reflexivity || exact Hfuel).
    cbn [obind snd fst]. rewrite Nat.add_1_r, checkCallRecurse_S.
    cbn [checkCallRecurseBody obind fst snd].
    simpl. rewrite ?app_nil_r. reflexivity.
Qed.

Lemma checkUpdate_does_not_type_assignments_witness :
  let fn := testCall "update users set id = $1, nickname = $2" ["string"; "bool"] in
  let rel := mkRangeVar None (Some "users") None 7 in
  checkCall scenarioState fn
    [RawStmt (UpdateStmt (Some rel)
                (updateTargets [("id", 17, (1, 22)); ("nickname", 26, (2, 37))]) NilNode)]
  = Done [IdentErr Unknown "" "" "nickname" 26 fn].
Proof.
  intros fn rel.
  exact (checkUpdate_does_not_type_assignments scenarioState fn rel "users" ""
           [("id", 17, (1, 22)); ("nickname", 26, (2, 37))] eq_refl eq_refl).
Defined.
